(** * A chained hash table with frequency counting and staged growth

    Shallow embedding of [hashTable.c] / [hashTable.h] and verification of
    its documented behaviour.

    Modelling conventions
    - [unsigned] and [int] are 32 bits wide.  Values live in [Z]; every
      conversion and every arithmetic result is normalised explicitly with
      [to_unsigned] (reduction modulo 2^32) or [to_int] (two's complement
      wrap-around, the behaviour of the usual targets for signed overflow).
    - [float] is IEEE-754 binary32, taken from the Standard Library's
      [SpecFloat] with precision 24 and maximal exponent 128; conversions
      from integers and division round to nearest, ties to even.
    - [void *] is [option V] for an arbitrary type [V] of pointees; [None]
      is [NULL].  The client callbacks take such pointers.
    - A [ListNode *] is the chain hanging from it: a list of the entries
      of the successive nodes ([[]] is the null pointer).  The bucket array
      [ListNode **] is a list of chains.
    - A failed [assert] is [Abort].  Allocation is assumed to succeed
      ([failMalloc] is never reached), and [calloc (0, _)] to return a
      non-null pointer as the GNU C library does.
    - Reading an array outside its bounds yields a default value and
      writing outside its bounds does nothing; the invariant [wf] excludes
      both.
    - [htDestroy] only releases memory, which the embedding does not
      represent; it yields the sequence of its calls of [free] and of the
      client's destroy callback.
    - Construction has a second model, [Heap.htCreate], on a store that
      holds the caller's structure of functions and array of sizes and the
      table's own as objects at addresses, where a copy differs from an
      alias; it is related to [htCreate] on values. *)

From Stdlib Require Import ZArith Lia.
From Stdlib Require Import Floats.SpecFloat.
From Stdlib Require Import Strings.Ascii Strings.String.
From stdpp Require Import base tactics option list.

Local Open Scope Z_scope.

(** ** 32-bit machine integers *)

Definition UINT_MAX : Z := 4294967295.
Definition INT_MAX : Z := 2147483647.
Definition INT_MIN : Z := -2147483648.

Definition is_unsigned (z : Z) : Prop := 0 <= z <= UINT_MAX.
Definition is_int (z : Z) : Prop := INT_MIN <= z <= INT_MAX.

(** Conversion to [unsigned]: reduction modulo 2^32. *)
Definition to_unsigned (z : Z) : Z := z mod (UINT_MAX + 1).

(** Conversion to [int]: the representative of [z] modulo 2^32 that lies
    in [INT_MIN .. INT_MAX]. *)
Definition to_int (z : Z) : Z := (z - INT_MIN) mod (UINT_MAX + 1) + INT_MIN.

(** ** binary32 floating point *)

Module Float32.
Definition prec : Z := 24.
Definition emax : Z := 128.
Definition float : Type := spec_float.

(** Integer to float conversion, round to nearest even. *)
Definition of_Z (z : Z) : float := binary_normalize prec emax z 0 false.
Definition div (x y : float) : float := SFdiv prec emax x y.
Definition eqb (x y : float) : bool := SFeqb x y.
Definition ltb (x y : float) : bool := SFltb x y.
Definition leb (x y : float) : bool := SFleb x y.
Definition is_nan (x : float) : bool :=
  match x with S754_nan => true | _ => false end.

(** The float nearest to the decimal 0.49 (bit pattern 0x3EFAE148). *)
Definition f0_49 : float := S754_finite false 16441672 (-25).
End Float32.

(** ** Assertions *)

Inductive result (A : Type) : Type :=
| Ok (a : A)
| Abort.
Arguments Ok {A} a.
Arguments Abort {A}.

#[global] Instance result_ret : MRet result := fun A a => Ok a.
#[global] Instance result_bind : MBind result := fun A B k r =>
  match r with
  | Ok a => k a
  | Abort => Abort
  end.

(** [assert (b)]. *)
Definition assert (b : bool) : result unit := if b then Ok tt else Abort.

(** ** C arrays and counting loops *)

(** [a[i]] for an [int] index. *)
Definition zlookup {A} (l : list A) (i : Z) (d : A) : A :=
  if i <? 0 then d else default d (l !! Z.to_nat i).

(** [a[i] = x] for an [int] index. *)
Definition zupdate {A} (l : list A) (i : Z) (x : A) : list A :=
  if i <? 0 then l else <[Z.to_nat i := x]> l.

(** [for (i = 0; i < n; i++) s = body i s]. *)
Definition for_loop {S} (n : Z) (body : Z -> S -> S) (s : S) : S :=
  fold_left (fun s i => body (Z.of_nat i) s) (seq 0 (Z.to_nat n)) s.

(** [calloc (n, sizeof x)]: [n] zeroed cells. *)
Definition calloc {A} (n : Z) (zero : A) : list A := replicate (Z.to_nat n) zero.

(** ** Data model ([hashTable.h] and the file-local structures) *)

Section Model.
Context {V : Type}.

(** [void *]. *)
Definition ptr : Type := option V.
Definition NULL : ptr := None.
Definition is_null (p : ptr) : bool :=
  match p with None => true | Some _ => false end.

(** The entry type returned by [htLookUp] and [htToArray], and the
    payload of a chain node. *)
Record HTEntry : Type := mkEntry { data : ptr; frequency : Z }.

Record HTMetrics : Type := mkMetrics {
  numberOfChains : Z;
  maxChainLength : Z;
  avgChainLength : Float32.float
}.

(** The client's function pointers.  [compare] returns zero on
    equivalent data; [destroy] may be null. *)
Record HTFunctions : Type := mkFunctions {
  hash : ptr -> Z;
  compare : ptr -> ptr -> Z;
  destroy : option (ptr -> unit)
}.

Record HashTable : Type := mkTable {
  functions : HTFunctions;
  sizes : list Z;
  numSizes : Z;
  index : Z;
  numItem : Z;
  total : Z;
  lf : Float32.float;
  ht : list (list HTEntry)
}.

Definition set_index (hti : HashTable) (i : Z) : HashTable :=
  mkTable (functions hti) (sizes hti) (numSizes hti) i
          (numItem hti) (total hti) (lf hti) (ht hti).
Definition set_numItem (hti : HashTable) (n : Z) : HashTable :=
  mkTable (functions hti) (sizes hti) (numSizes hti) (index hti)
          n (total hti) (lf hti) (ht hti).
Definition set_total (hti : HashTable) (n : Z) : HashTable :=
  mkTable (functions hti) (sizes hti) (numSizes hti) (index hti)
          (numItem hti) n (lf hti) (ht hti).
Definition set_ht (hti : HashTable) (b : list (list HTEntry)) : HashTable :=
  mkTable (functions hti) (sizes hti) (numSizes hti) (index hti)
          (numItem hti) (total hti) (lf hti) b.

(** [hti->sizes[hti->index]]. *)
Definition cur_size (hti : HashTable) : Z := zlookup (sizes hti) (index hti) 0.

(** [hti->functions->hash(d) % hti->sizes[hti->index]], stored in an
    [int]. *)
Definition bucket_of (hti : HashTable) (d : ptr) : Z :=
  to_int (hash (functions hti) d mod cur_size hti).

(** ** Growth *)

(** The loop of [hrehash]: every node of the chain [curr] is pushed on
    the head of its chain in the new array. *)
Fixpoint hrehash (hti : HashTable) (curr : list HTEntry)
    (nht : list (list HTEntry)) : list (list HTEntry) :=
  match curr with
  | [] => nht
  | e :: temp =>
      let i := bucket_of hti (data e) in
      hrehash hti temp (zupdate nht i (e :: zlookup nht i []))
  end.

Definition rehash (hti : HashTable) : HashTable :=
  let hti := set_index hti (to_int (index hti + 1)) in
  let nht := calloc (cur_size hti) [] in
  let nht :=
    for_loop (zlookup (sizes hti) (to_int (index hti - 1)) 0)
      (fun i nht => hrehash hti (zlookup (ht hti) i []) nht) nht in
  set_ht hti nht.

Definition checkRehash (hti : HashTable) : HashTable :=
  let ratio :=
    Float32.div (Float32.of_Z (numItem hti)) (Float32.of_Z (cur_size hti)) in
  if negb (Float32.eqb (lf hti) (Float32.of_Z 1))
     && (index hti <? to_int (numSizes hti - 1))
     && Float32.ltb (lf hti) ratio
  then rehash hti
  else hti.

(** ** Construction *)

(** The loop of [setSizeArray] with [n] turns to go, at position [i];
    [dst] is the table's own array.  [prev] is an [int], compared as an
    [unsigned] with the size. *)
Fixpoint setSizeArray_loop (n : nat) (i : Z) (prev : Z) (src dst : list Z)
    : result (list Z) :=
  match n with
  | O => Ok dst
  | S n =>
      let s := zlookup src i 0 in
      assert (1 <? s);;
      assert (to_unsigned prev <? s);;
      setSizeArray_loop n (to_int (i + 1)) (to_int s) src (zupdate dst i s)
  end.

Definition setSizeArray (dst src : list Z) (numSizes : Z) : result (list Z) :=
  setSizeArray_loop (Z.to_nat numSizes) 0 0 src dst.

Definition setFunctions (functions : HTFunctions) : HTFunctions :=
  mkFunctions (hash functions) (compare functions) (destroy functions).

Definition htCreate (functions : HTFunctions) (sizes : list Z)
    (numSizes : Z) (rehashLoadFactor : Float32.float) : result HashTable :=
  assert (0 <? numSizes);;
  assert (Float32.ltb (Float32.of_Z 0) rehashLoadFactor
          && Float32.leb rehashLoadFactor (Float32.of_Z 1));;
  own ← setSizeArray (calloc numSizes 0) sizes numSizes;
  Ok (mkTable (setFunctions functions) own numSizes 0 0 0 rehashLoadFactor
              (calloc (zlookup sizes 0 0) [])).

(** ** Insertion *)

(** The scan of [addTail]: on the first node whose data compares equal
    the frequency is incremented and returned. *)
Fixpoint addTail_loop (f : HTFunctions) (curr : list HTEntry) (d : ptr)
    : option (Z * list HTEntry) :=
  match curr with
  | [] => None
  | e :: next =>
      if compare f (data e) d =? 0 then
        let fr := to_unsigned (frequency e + 1) in
        Some (fr, mkEntry (data e) fr :: next)
      else
        match addTail_loop f next d with
        | Some (fr, next') => Some (fr, e :: next')
        | None => None
        end
  end.

(** [addEntry]. *)
Definition addEntry (d : ptr) : HTEntry := mkEntry d 1.

Definition addTail (hti : HashTable) (hi : Z) (d : ptr) : Z * HashTable :=
  let curr := zlookup (ht hti) hi [] in
  let hti := set_numItem hti (to_int (numItem hti + 1)) in
  let hti := set_total hti (to_int (total hti + 1)) in
  match addTail_loop (functions hti) curr d with
  | Some (fr, curr') =>
      let hti := set_numItem hti (to_int (numItem hti - 1)) in
      (fr, set_ht hti (zupdate (ht hti) hi curr'))
  | None =>
      (1, set_ht hti (zupdate (ht hti) hi (addEntry d :: curr)))
  end.

Definition htAdd (hti : HashTable) (d : ptr) : result (Z * HashTable) :=
  assert (negb (is_null d));;
  let hti := checkRehash hti in
  let hi := bucket_of hti d in
  let '(fr, hti) := addTail hti hi d in
  Ok (to_unsigned (to_int fr), hti).

(** ** Lookup *)

Definition notFound : HTEntry := mkEntry NULL 0.

Fixpoint htLookUp_loop (f : HTFunctions) (curr : list HTEntry) (d : ptr)
    : HTEntry :=
  match curr with
  | [] => notFound
  | e :: next =>
      if compare f (data e) d =? 0 then e else htLookUp_loop f next d
  end.

(** The table is passed through: the second component of the result is
    the table as the call leaves it. *)
Definition htLookUp (hti : HashTable) (d : ptr)
    : result (HTEntry * HashTable) :=
  assert (negb (is_null d));;
  let i := bucket_of hti d in
  let curr := zlookup (ht hti) i [] in
  Ok (htLookUp_loop (functions hti) curr d, hti).

(** ** Snapshot *)

Fixpoint toArray (arr : list HTEntry) (curr : list HTEntry) (s : Z)
    : list HTEntry * Z :=
  match curr with
  | [] => (arr, s)
  | e :: next => toArray (zupdate arr s e) next (to_int (s + 1))
  end.

(** Returns the array ([None] for the null pointer) and the value
    stored through [size]. *)
Definition htToArray (hti : HashTable) : option (list HTEntry) * Z :=
  let arr := calloc (numItem hti) (mkEntry NULL 0) in
  let '(arr, s) :=
    for_loop (cur_size hti)
      (fun i '(arr, s) => toArray arr (zlookup (ht hti) i []) s) (arr, 0) in
  (if s =? 0 then None else Some arr, to_unsigned s).

(** ** Introspection *)

Definition htCapacity (hti : HashTable) : Z := cur_size hti.
Definition htUniqueEntries (hti : HashTable) : Z := to_unsigned (numItem hti).
Definition htTotalEntries (hti : HashTable) : Z := to_unsigned (total hti).

(** The loop of [updateChain] on the triple [( *chain, *count, *total )]. *)
Fixpoint updateChain_loop (curr : list HTEntry) (chain count total : Z)
    : Z * Z * Z :=
  match curr with
  | [] => (chain, count, total)
  | _ :: next =>
      updateChain_loop next 1 (to_int (count + 1)) (to_int (total + 1))
  end.

Definition updateChain (curr : list HTEntry) (total : Z) : Z * Z * Z :=
  updateChain_loop curr 0 0 total.

Definition htMetrics (hti : HashTable) : HTMetrics :=
  let '(num, max, total) :=
    for_loop (cur_size hti)
      (fun i '(num, max, total) =>
         let '(chain, count, total) :=
           updateChain (zlookup (ht hti) i []) total in
         let num := if chain =? 0 then num else to_int (num + 1) in
         let max := if max <? count then count else max in
         (num, max, total))
      (0, 0, 0) in
  mkMetrics (to_unsigned num) (to_unsigned max)
            (Float32.div (Float32.of_Z total) (Float32.of_Z num)).

(** ** Sequences of insertions *)

(** [htAdd] for each element of [ds] in turn, collecting the returned
    frequencies. *)
Fixpoint htAddAll (hti : HashTable) (ds : list ptr)
    : result (list Z * HashTable) :=
  match ds with
  | [] => Ok ([], hti)
  | d :: ds =>
      '(fr, hti) ← htAdd hti d;
      '(frs, hti) ← htAddAll hti ds;
      Ok (fr :: frs, hti)
  end.

End Model.

Arguments ptr V : clear implicits.
Arguments HTEntry V : clear implicits.
Arguments HTFunctions V : clear implicits.
Arguments HashTable V : clear implicits.

(** ** The client of the unit tests ([testHashTable.c]) *)

Module StringClient.

(** A [char], which is signed on the usual targets. *)
Definition char_value (c : ascii) : Z :=
  let n := Z.of_N (N_of_ascii c) in
  if n <? 128 then n else n - 256.

(** The loop of [hashString]: [hash = *str + 31 * hash] in [unsigned]
    arithmetic. *)
Fixpoint hashString_loop (str : string) (h : Z) : Z :=
  match str with
  | EmptyString => h
  | String c str => hashString_loop str (to_unsigned (char_value c + 31 * h))
  end.

(** The data are C strings: a [string] holds the characters before the
    terminating zero.  Applying a callback to [NULL] is undefined in C;
    the value chosen here is never used by the table. *)
Definition hashString (d : ptr string) : Z :=
  match d with
  | Some str => hashString_loop str 0
  | None => 0
  end.

(** [strcmp], which returns a negative, zero or positive value. *)
Definition compareString (a b : ptr string) : Z :=
  match a, b with
  | Some a, Some b =>
      match String.compare a b with
      | Eq => 0
      | Lt => -1
      | Gt => 1
      end
  | None, None => 0
  | None, Some _ => -1
  | Some _, None => 1
  end.

(** The function table of the tests that store C strings. *)
Definition stringFunctions : HTFunctions string :=
  mkFunctions hashString compareString None.

End StringClient.

(** ** Specification vocabulary *)

Section Vocabulary.
Context {V : Type}.
Implicit Types (t : HashTable V) (f : HTFunctions V) (d : ptr V)
  (e : HTEntry V) (l : list (HTEntry V)).

(** The callbacks a well-behaved client supplies: [hash] returns an
    [unsigned], [compare] is zero exactly on the pairs of an equivalence
    relation, and equivalent data hash alike. *)
Record lawful f : Prop := {
  hash_unsigned : forall d, is_unsigned (hash f d);
  compare_refl : forall d, compare f d d = 0;
  compare_sym : forall d1 d2, compare f d1 d2 = 0 -> compare f d2 d1 = 0;
  compare_trans : forall d1 d2 d3,
    compare f d1 d2 = 0 -> compare f d2 d3 = 0 -> compare f d1 d3 = 0;
  compare_hash : forall d1 d2, compare f d1 d2 = 0 -> hash f d1 = hash f d2
}.

(** All the entries of the table, bucket after bucket. *)
Definition entries t : list (HTEntry V) := concat (ht t).

(** No two entries of [l] hold equivalent data. *)
Fixpoint distinct f l : Prop :=
  match l with
  | [] => True
  | e :: l =>
      Forall (fun e' => compare f (data e) (data e') <> 0) l /\ distinct f l
  end.

(** No entry of the table is equivalent to [d]. *)
Definition absent t d : Prop :=
  Forall (fun e => compare (functions t) (data e) d <> 0) (entries t).

Definition sum_frequency l : Z := foldr (fun e s => frequency e + s) 0 l.

(** A capacity schedule as [htCreate] accepts it: every size is an
    [unsigned] greater than one, and the sizes increase strictly. *)
Definition schedule_ok (s : list Z) : Prop :=
  Forall (fun x => 1 < x <= UINT_MAX) s /\
  forall i a b, s !! i = Some a -> s !! S i = Some b -> a < b.

(** The part of the representation invariant about the schedule and
    its cursor. *)
Record wf_cursor t : Prop := {
  wf_numSizes : numSizes t = Z.of_nat (length (sizes t));
  wf_numSizes_int : numSizes t <= INT_MAX;
  wf_schedule : schedule_ok (sizes t);
  wf_index : 0 <= index t < numSizes t
}.

(** The representation invariant: the sizes fit the [int] variables
    that index the bucket array, the bucket array has one slot for every
    unit of capacity, every entry holds non-null data and hangs from the
    bucket of its hash, no two entries are equivalent, and the two
    counters agree with the chains without having overflowed. *)
Record wf t : Prop := {
  wf_sched : wf_cursor t;
  wf_sizes_int : Forall (fun x => x <= INT_MAX) (sizes t);
  wf_nonnull : Forall (fun e => is_null (data e) = false) (entries t);
  wf_length : Z.of_nat (length (ht t)) = cur_size t;
  wf_bucket : forall i c e,
    ht t !! i = Some c -> e ∈ c -> bucket_of t (data e) = Z.of_nat i;
  wf_distinct : distinct (functions t) (entries t);
  wf_frequency : Forall (fun e => 1 <= frequency e) (entries t);
  wf_numItem : numItem t = Z.of_nat (length (entries t));
  wf_total : total t = sum_frequency (entries t);
  wf_total_int : total t <= INT_MAX
}.

(** Every entry of the bucket array [b] hangs from the bucket the
    table [t] computes for it. *)
Definition placed t (b : list (list (HTEntry V))) : Prop :=
  forall (i : nat) c e, b !! i = Some c -> e ∈ c ->
    bucket_of t (data e) = Z.of_nat i.

(** No entry of the chain [l] compares equal to [d]. *)
Definition unmatched f d l : Prop :=
  Forall (fun e => compare f (data e) d <> 0) l.

(** The table with its cursor on the next size of the schedule. *)
Definition advanced t : HashTable V := set_index t (index t + 1).

(** The frequency [htLookUp] reports for [d]. *)
Definition lookup_frequency t d : Z :=
  match htLookUp t d with
  | Ok (e, _) => frequency e
  | Abort => 0
  end.

(** No two elements of [ds] are equivalent. *)
Fixpoint inequivalent f (ds : list (ptr V)) : Prop :=
  match ds with
  | [] => True
  | d :: ds => Forall (fun d' => compare f d d' <> 0) ds /\ inequivalent f ds
  end.

(** The number of elements of [ds] equivalent to [d]. *)
Definition occurrences f (ds : list (ptr V)) d : Z :=
  Z.of_nat (length (filter (fun x => compare f d x = 0) ds)).

(** The growth condition in the words of the documentation of [htAdd]:
    the load factor is not 1.0, there is a next size, and the ratio of
    unique entries to the current size exceeds the load factor. *)
Definition growth_due t : Prop :=
  Float32.eqb (lf t) (Float32.of_Z 1) = false /\
  index t < numSizes t - 1 /\
  Float32.ltb (lf t)
    (Float32.div (Float32.of_Z (numItem t)) (Float32.of_Z (htCapacity t)))
  = true.

(** The table of [testRehash] (schedule 10, 30, 999 and load factor
    0.49) before its first growth. *)
Definition calm t : Prop :=
  sizes t = [10; 30; 999] /\ numSizes t = 3 /\ lf t = Float32.f0_49 /\
  index t = 0.

(** One turn of the loop of [htMetrics], on the chain [l] and the
    variables [(num, max, total)]. *)
Definition metrics_step l (s : Z * Z * Z) : Z * Z * Z :=
  let '(num, max, total) := s in
  let '(chain, count, total) := updateChain l total in
  let num := if chain =? 0 then num else to_int (num + 1) in
  let max := if max <? count then count else max in
  (num, max, total).

(** The statistics of the chains, in the words of [hashTable.h]. *)
Definition nonempty_chains (b : list (list (HTEntry V))) : Z :=
  Z.of_nat (length (filter (fun c => c <> []) b)).
Definition longest_chain (b : list (list (HTEntry V))) : Z :=
  Z.of_nat (max_list (length <$> b)).
Definition chain_total (b : list (list (HTEntry V))) : Z :=
  Z.of_nat (sum_list (length <$> b)).

(** The size at position [i] is greater than one and greater than the
    size before it. *)
Definition size_ok_at (sizes : list Z) (i : nat) : Prop :=
  1 < zlookup sizes (Z.of_nat i) 0 /\
  match i with
  | O => True
  | S j => zlookup sizes (Z.of_nat j) 0 < zlookup sizes (Z.of_nat i) 0
  end.

(** The preconditions of [htCreate]: at least one size, sizes greater
    than one that increase strictly, and a load factor in (0, 1]. *)
Definition create_ok (sizes : list Z) (numSizes : Z)
    (rehashLoadFactor : Float32.float) : Prop :=
  0 < numSizes /\
  (Float32.ltb (Float32.of_Z 0) rehashLoadFactor = true /\
   Float32.leb rehashLoadFactor (Float32.of_Z 1) = true) /\
  forall i, (i < Z.to_nat numSizes)%nat -> size_ok_at sizes i.

End Vocabulary.

(** ** Sample tables over the client of the unit tests *)

Module Demo.
Import StringClient.
Local Open Scope string_scope.

(** The schedule and the load factor of [testRehash]. *)
Definition schedule : list Z := [10; 30; 999].

Definition created : HashTable string :=
  mkTable stringFunctions schedule 3 0 0 0 Float32.f0_49 (replicate 10 []).

Definition words : list (ptr string) :=
  [Some "a"; Some "b"; Some "c"; Some "d"; Some "e"].

(** The table after the insertion of [ds] into [t] ([t] itself if an
    insertion aborts). *)
Definition after (t : HashTable string) (ds : list (ptr string))
    : HashTable string :=
  match htAddAll t ds with
  | Ok (_, t') => t'
  | Abort => t
  end.

(** Five distinct words: the capacity is still 10. *)
Definition five : HashTable string := after created words.

(** A sixth word: the capacity is 30. *)
Definition six : HashTable string := after five [Some "f"].

(** A small schedule and a low load factor (the float nearest to 0.1):
    after one insertion the ratio 1/2 exceeds the load factor, and it
    still does under the next capacity, 1/3. *)
Definition crowded : HashTable string :=
  mkTable stringFunctions [2; 3; 1000] 3 0 1 1 (S754_finite false 13421773 (-27))
          [[]; [mkEntry (Some "a") 1]].

End Demo.

(** * Further parts of the repository

    The rest of [hashTable.c] (teardown) and the helpers of the test
    driver [testHashTable.c] and of [unitTest.h] that the properties below
    are about. *)

(** ** Teardown ([destroy] and [htDestroy]) *)

Section Teardown.
Context {V : Type}.

(** Memory is not represented.  What the teardown does to the heap is
    recorded instead, in program order: each call of the client's destroy
    callback and each [free], with the entry whose node, wrapper or data it
    concerns. *)
Inductive event : Type :=
| CallDestroy (d : ptr V)
| FreeData (d : ptr V)
| FreeEntry (e : HTEntry V)
| FreeNode (e : HTEntry V)
| FreeFunctions
| FreeSizes
| FreeBuckets
| FreeTable.

(** The function [destroy] of [hashTable.c] (the name [destroy] is the
    field of [HTFunctions] here): the loop over the nodes of one chain. *)
Fixpoint destroyChain (hti : HashTable V) (curr : list (HTEntry V))
    (destroyData : Z) : list event :=
  match curr with
  | [] => []
  | e :: next =>
      (if destroyData =? 0 then []
       else
         (match destroy (functions hti) with
          | Some _ => [CallDestroy (data e)]
          | None => []
          end)
         ++ [FreeData (data e); FreeEntry e])
      ++ FreeNode e :: destroyChain hti next destroyData
  end.

Definition htDestroy (hti : HashTable V) (destroyData : Z) : list event :=
  for_loop (cur_size hti)
    (fun i tr => tr ++ destroyChain hti (zlookup (ht hti) i []) destroyData) []
  ++ [FreeFunctions; FreeSizes; FreeBuckets; FreeTable].

(** The data the teardown frees, in order. *)
Definition freed_data (tr : list event) : list (ptr V) :=
  omap (fun ev => match ev with FreeData d => Some d | _ => None end) tr.

(** The entries whose wrapper the teardown frees, in order. *)
Definition freed_entries (tr : list event) : list (HTEntry V) :=
  omap (fun ev => match ev with FreeEntry e => Some e | _ => None end) tr.

(** The entries whose chain node the teardown frees, in order. *)
Definition freed_nodes (tr : list event) : list (HTEntry V) :=
  omap (fun ev => match ev with FreeNode e => Some e | _ => None end) tr.

(** The data handed to the destroy callback, in order. *)
Definition destroyed_data (tr : list event) : list (ptr V) :=
  omap (fun ev => match ev with CallDestroy d => Some d | _ => None end) tr.

(** What the teardown does for one entry when the data are destroyed. *)
Definition entry_teardown (hti : HashTable V) (e : HTEntry V) : list event :=
  (match destroy (functions hti) with
   | Some _ => [CallDestroy (data e)]
   | None => []
   end) ++ [FreeData (data e); FreeEntry e; FreeNode e].

End Teardown.

Arguments event V : clear implicits.

(** ** The growth schedule as a function of the unique count *)

(** The test of [checkRehash] on the fields it reads. *)
Definition growth_check (lf : Float32.float) (sizes : list Z)
    (numSizes index numItem : Z) : bool :=
  negb (Float32.eqb lf (Float32.of_Z 1))
  && (index <? to_int (numSizes - 1))
  && Float32.ltb lf
       (Float32.div (Float32.of_Z numItem)
                    (Float32.of_Z (zlookup sizes index 0))).

(** The cursor after [k] more insertions of new classes, starting from
    the cursor [index] with [numItem] unique entries. *)
Fixpoint cursor_after (lf : Float32.float) (sizes : list Z) (numSizes : Z)
    (k : nat) (index numItem : Z) : Z :=
  match k with
  | O => index
  | S k =>
      cursor_after lf sizes numSizes k
        (if growth_check lf sizes numSizes index numItem
         then index + 1 else index)
        (numItem + 1)
  end.

(** ** Lookups after a run of insertions *)

(** The entry [htLookUp] returns for [d]. *)
Definition lookup_entry {V} (t : HashTable V) (d : ptr V) : HTEntry V :=
  match htLookUp t d with
  | Ok (e, _) => e
  | Abort => notFound
  end.

(** The first element of [ds] equivalent to [d], or [NULL]. *)
Definition first_equivalent {V} (f : HTFunctions V) (ds : list (ptr V))
    (d : ptr V) : ptr V :=
  default NULL (head (filter (fun x => compare f d x = 0) ds)).

(** The frequencies a run of insertions returns: for each inserted value
    one more than the number of equivalent values in [seen], the values
    inserted before it. *)
Fixpoint running_counts {V} (f : HTFunctions V) (seen ds : list (ptr V))
    : list Z :=
  match ds with
  | [] => []
  | d :: ds => occurrences f seen d + 1 :: running_counts f (seen ++ [d]) ds
  end.

(** ** The hash of the unit tests without wrap-around *)

(** The value [hashString] computes in unbounded arithmetic, from the
    initial value [h]. *)
Fixpoint hash_value (str : string) (h : Z) : Z :=
  match str with
  | EmptyString => h
  | String c str => hash_value str (StringClient.char_value c + 31 * h)
  end.

(** ** The second client of the unit tests ([hashDat], [compareDat],
    [destroyDat]) *)

Module DatClient.

(** [struct strPtr]: a record holding a C string. *)
Record dat : Type := mkDat { dat_data : string }.

Definition hashDat (d : ptr dat) : Z :=
  match d with
  | Some x => StringClient.hashString_loop (dat_data x) 0
  | None => 0
  end.

Definition compareDat (a b : ptr dat) : Z :=
  StringClient.compareString (dat_data <$> a) (dat_data <$> b).

(** [destroyDat] frees the string of the record; memory is not
    represented. *)
Definition destroyDat (d : ptr dat) : unit := tt.

Definition datFunctions : HTFunctions dat :=
  mkFunctions hashDat compareDat (Some destroyDat).

End DatClient.

(** ** Random test data ([randomString]) *)

Module Random.

Definition RAND_MAX : Z := 2147483647.

(** A value stored in a [char], as a character. *)
Definition char_of (z : Z) : ascii := ascii_of_N (Z.to_N (z mod 256)).

(** The loop of [randomString] with [n] characters to go; [rand k] is the
    value of the [k]-th call of [rand ()].  The operator [%] of C truncates
    towards zero, and [' ' - '~' + 1] is [32 - 126 + 1]. *)
Fixpoint randomString_loop (rand : nat -> Z) (k : nat) (n : nat) : string :=
  match n with
  | O => EmptyString
  | S n =>
      String (char_of (Z.rem (rand k) (32 - 126 + 1) + 32))
             (randomString_loop rand (S k) n)
  end.

(** Returns the string and the number of calls of [rand ()] made so
    far. *)
Definition randomString (rand : nat -> Z) (k : nat) : string * nat :=
  let length := Z.rem (rand k) 70 + 3 in
  (randomString_loop rand (S k) (Z.to_nat length),
   (S k + Z.to_nat length)%nat).

End Random.

(** ** The comparison of reals of [unitTest.h] *)

Module Float64.
Definition prec : Z := 53.
Definition emax : Z := 1024.
Definition float : Type := spec_float.

(** The conversion of a [float] to [double], which is exact. *)
Definition of_float (x : Float32.float) : float :=
  match x with
  | S754_finite s m e => binary_normalize prec emax (cond_Zopp s (Zpos m)) e s
  | _ => x
  end.
Definition sub (x y : float) : float := SFsub prec emax x y.
Definition ltb (x y : float) : bool := SFltb x y.
End Float64.

(** The condition under which [TEST_REAL] reports a failure. *)
Definition TEST_REAL (actual expect epsilon : Float64.float) : bool :=
  Float64.ltb epsilon (Float64.sub actual expect)
  || Float64.ltb epsilon (Float64.sub expect actual).

(** ** More sample tables *)

Module Cases.
Import DatClient.
Local Open Scope string_scope.

(** The float nearest to the decimal 0.73 (bit pattern 0x3F3AE148). *)
Definition f0_73 : Float32.float := S754_finite false 12247368 (-24).

(** The table of [test27] and three insertions, one of them a
    duplicate. *)
Definition dat_created : HashTable dat :=
  mkTable datFunctions [3; 7] 2 0 0 0 f0_73 (replicate 3 []).

Definition dat_words : list (ptr dat) :=
  [Some (mkDat "x"); Some (mkDat "y"); Some (mkDat "x")].

Definition dat_table : HashTable dat :=
  match htAddAll dat_created dat_words with
  | Ok (_, t) => t
  | Abort => dat_created
  end.

(** The table of [test17]: a load factor of 1.0. *)
Definition fixed : HashTable string :=
  mkTable StringClient.stringFunctions [10; 100] 2 0 0 0 (Float32.of_Z 1)
          (replicate 10 []).

(** Sixteen distinct words, as [testRehash] inserts. *)
Definition sixteen : list (ptr string) :=
  [Some "a"; Some "b"; Some "c"; Some "d"; Some "e"; Some "f"; Some "g";
   Some "h"; Some "i"; Some "j"; Some "k"; Some "l"; Some "m"; Some "n";
   Some "o"; Some "p"].

(** A run with repetitions. *)
Definition mixed : list (ptr string) :=
  [Some "a"; Some "b"; Some "a"; Some "c"; Some "a"; Some "b"].

(** A sequence of values for [rand ()]. *)
Definition rand (k : nat) : Z := (Z.of_nat k * 7919 + 12345) mod 2147483648.

End Cases.

(** ** The objects [htCreate] reads and allocates

    A second model of construction, in which the structure of function
    pointers and the array of sizes are objects in a store, the caller's
    as well as the table's own, so that a copy can be told from an alias. *)

Module Heap.
Section Store.
Context {V : Type}.

(** An object: a structure [HTFunctions], whose fields are [None] until
    they are written, or an array of [unsigned]. *)
Inductive block : Type :=
| FunctionsBlock (fn_hash : option (ptr V -> Z))
                 (fn_compare : option (ptr V -> ptr V -> Z))
                 (fn_destroy : option (option (ptr V -> unit)))
| UnsignedBlock (cells : list Z).

(** The store holds the objects of the caller (on its stack or
    elsewhere) and those of the heap; an address is a position in it. *)
Local Abbreviation store := (list block).

(** [malloc]: a new object, at an address that no object has. *)
Definition malloc (h : store) (b : block) : nat * store :=
  (length h, h ++ [b]).

(** [p->hash], [p->compare], [p->destroy] as values and as places. *)
Definition load_hash (h : store) (p : nat) : option (ptr V -> Z) :=
  match h !! p with
  | Some (FunctionsBlock f _ _) => f
  | _ => None
  end.
Definition load_compare (h : store) (p : nat)
    : option (ptr V -> ptr V -> Z) :=
  match h !! p with
  | Some (FunctionsBlock _ c _) => c
  | _ => None
  end.
Definition load_destroy (h : store) (p : nat)
    : option (option (ptr V -> unit)) :=
  match h !! p with
  | Some (FunctionsBlock _ _ d) => d
  | _ => None
  end.
Definition store_hash (h : store) (p : nat) (v : option (ptr V -> Z))
    : store :=
  match h !! p with
  | Some (FunctionsBlock _ c d) => <[p := FunctionsBlock v c d]> h
  | _ => h
  end.
Definition store_compare (h : store) (p : nat)
    (v : option (ptr V -> ptr V -> Z)) : store :=
  match h !! p with
  | Some (FunctionsBlock f _ d) => <[p := FunctionsBlock f v d]> h
  | _ => h
  end.
Definition store_destroy (h : store) (p : nat)
    (v : option (option (ptr V -> unit))) : store :=
  match h !! p with
  | Some (FunctionsBlock f c _) => <[p := FunctionsBlock f c v]> h
  | _ => h
  end.

(** [p[i]] for an array of [unsigned], as a value and as a place. *)
Definition load_unsigned (h : store) (p : nat) (i : Z) : Z :=
  match h !! p with
  | Some (UnsignedBlock c) => zlookup c i 0
  | _ => 0
  end.
Definition store_unsigned (h : store) (p : nat) (i v : Z) : store :=
  match h !! p with
  | Some (UnsignedBlock c) => <[p := UnsignedBlock (zupdate c i v)]> h
  | _ => h
  end.

(** [setFunctions]: three assignments through [hti->functions], here
    the address [own]. *)
Definition setFunctions (h : store) (own functions : nat) : store :=
  let h := store_hash h own (load_hash h functions) in
  let h := store_compare h own (load_compare h functions) in
  store_destroy h own (load_destroy h functions).

(** The loop of [setSizeArray]; [own] is the address in [hti->sizes]. *)
Fixpoint setSizeArray_loop (n : nat) (i prev : Z) (h : store)
    (own sizes : nat) : result store :=
  match n with
  | O => Ok h
  | S n =>
      let s := load_unsigned h sizes i in
      assert (1 <? s);;
      assert (to_unsigned prev <? s);;
      setSizeArray_loop n (to_int (i + 1)) (to_int s)
        (store_unsigned h own i s) own sizes
  end.

Definition setSizeArray (h : store) (own sizes : nat) (numSizes : Z)
    : result store :=
  setSizeArray_loop (Z.to_nat numSizes) 0 0 h own sizes.

(** The structure [HashTable] with its two pointers to the table's own
    structure of functions and array of sizes as addresses. *)
Record Table : Type := mkHeapTable {
  functions_at : nat;
  sizes_at : nat;
  numSizes_of : Z;
  index_of : Z;
  numItem_of : Z;
  total_of : Z;
  lf_of : Float32.float;
  ht_of : list (list (HTEntry V))
}.

(** [htCreate] with the caller's structure at the address [functions]
    and the caller's array at the address [sizes].  As in [htCreate]
    above, the array that [malloc] returns is taken to hold zeros. *)
Definition htCreate (h : store) (functions sizes : nat) (numSizes : Z)
    (rehashLoadFactor : Float32.float) : result (store * Table) :=
  assert (0 <? numSizes);;
  assert (Float32.ltb (Float32.of_Z 0) rehashLoadFactor
          && Float32.leb rehashLoadFactor (Float32.of_Z 1));;
  let '(fa, h) := malloc h (FunctionsBlock None None None) in
  let h := setFunctions h fa functions in
  let '(sa, h) := malloc h (UnsignedBlock (calloc numSizes 0)) in
  h ← setSizeArray h sa sizes numSizes;
  Ok (h, mkHeapTable fa sa numSizes 0 0 0 rehashLoadFactor
           (calloc (load_unsigned h sizes 0) [])).

(** The structure of functions and the array at an address, when all
    of it has been written. *)
Definition load_functions (h : store) (p : nat) : option (HTFunctions V) :=
  match h !! p with
  | Some (FunctionsBlock (Some f) (Some c) (Some d)) =>
      Some (mkFunctions f c d)
  | _ => None
  end.
Definition load_array (h : store) (p : nat) : option (list Z) :=
  match h !! p with
  | Some (UnsignedBlock c) => Some c
  | _ => None
  end.

(** The table that the operations see when they follow the two
    pointers of [r] in the store [h]. *)
Definition view (h : store) (r : Table) : option (HashTable V) :=
  f ← load_functions h (functions_at r);
  s ← load_array h (sizes_at r);
  Some (mkTable f s (numSizes_of r) (index_of r) (numItem_of r)
                (total_of r) (lf_of r) (ht_of r)).

(** The caller's structure holds the callbacks [f]. *)
Definition holds_functions (h : store) (p : nat) (f : HTFunctions V)
    : Prop :=
  h !! p = Some (FunctionsBlock (Some (hash f)) (Some (compare f))
                                (Some (destroy f))).

(** The caller's array holds the sizes [src]. *)
Definition holds_sizes (h : store) (p : nat) (src : list Z) : Prop :=
  h !! p = Some (UnsignedBlock src).

End Store.

Arguments block V : clear implicits.
Arguments Table V : clear implicits.

Abbreviation store V := (list (block V)) (only parsing).

End Heap.

(** The objects of the caller in [testRehash]: the structure of
    functions at the address 0 and the array of sizes at the address 1. *)
Definition testRehash_caller : Heap.store string :=
  [Heap.FunctionsBlock (Some StringClient.hashString)
     (Some StringClient.compareString) (Some None);
   Heap.UnsignedBlock [10; 30; 999]].

(** ** The growth condition with an exact quotient *)

(** [n / c] exceeds the number that the float [x] stands for, for a
    positive [c]: a finite float with the sign [s], the mantissa [m] and
    the exponent [e] stands for [(-1)^s * m * 2^e]. *)
Definition quotient_exceeds (n c : Z) (x : Float32.float) : Prop :=
  match x with
  | S754_finite s m e =>
      if 0 <=? e then cond_Zopp s (Zpos m) * 2 ^ e * c < n
      else cond_Zopp s (Zpos m) * c < n * 2 ^ (- e)
  | S754_zero _ => 0 < n
  | S754_infinity s => s = true
  | S754_nan => False
  end.

(** The growth condition with the quotient of the unique count by the
    capacity taken exactly, not rounded to a [float]. *)
Definition exact_growth_due {V} (t : HashTable V) : Prop :=
  Float32.eqb (lf t) (Float32.of_Z 1) = false /\
  index t < numSizes t - 1 /\
  quotient_exceeds (numItem t) (htCapacity t) (lf t).

(** ** A table on the edge of its load factor *)

Module Rounding.

(** A client that stores numbers: the hash of a number is the number,
    and two numbers are equivalent when they are equal. *)
Definition numberFunctions : HTFunctions nat :=
  mkFunctions
    (fun d => match d with
              | Some k => to_unsigned (Z.of_nat k)
              | None => 0
              end)
    (fun a b => if decide (a = b) then 0 else 1)
    None.

Definition schedule : list Z := [22319; 44641].

(** The float nearest to the decimal 0.721 (bit pattern 0x3F389375). *)
Definition f0_721 : Float32.float := S754_finite false 12096373 (-24).

Definition created : HashTable nat :=
  mkTable numberFunctions (take (Z.to_nat 2) schedule) 2 0 0 0 f0_721
          (replicate (Z.to_nat (zlookup schedule 0 0)) []).

(** The numbers 0, 1, ..., 16091. *)
Definition values : list (ptr nat) := Some <$> seq 0 (Z.to_nat 16092).

(** The table after the insertion of [ds] into [t] ([t] itself if an
    insertion aborts). *)
Definition after (t : HashTable nat) (ds : list (ptr nat)) : HashTable nat :=
  match htAddAll t ds with
  | Ok (_, t') => t'
  | Abort => t
  end.

(** The table after their insertion. *)
Definition full : HashTable nat := after created values.

End Rounding.

(** * Proofs *)

(** Equality of two triples of integers, component by component. *)
Ltac triple_eq := apply (f_equal2 pair); [apply (f_equal2 pair)|]; lia.

(** ** Machine integers *)

Lemma to_unsigned_id z : is_unsigned z -> to_unsigned z = z.
Proof. unfold is_unsigned, to_unsigned, UINT_MAX. intros. apply Z.mod_small. lia. Qed.

Lemma to_int_id z : is_int z -> to_int z = z.
Proof.
  unfold is_int, to_int, INT_MIN, INT_MAX, UINT_MAX. intros.
  rewrite Z.mod_small; lia.
Qed.

Lemma to_unsigned_to_int z : is_unsigned z -> to_unsigned (to_int z) = z.
Proof.
  unfold is_unsigned, to_unsigned, to_int, INT_MIN, UINT_MAX. intros.
  Z.div_mod_to_equations. lia.
Qed.

Lemma to_int_small z : 0 <= z <= INT_MAX -> to_int z = z.
Proof. intros. apply to_int_id. unfold is_int, INT_MIN, INT_MAX in *. lia. Qed.

Lemma to_unsigned_small z : 0 <= z <= INT_MAX -> to_unsigned z = z.
Proof.
  intros. apply to_unsigned_id. unfold is_unsigned, UINT_MAX, INT_MAX in *. lia.
Qed.

Lemma to_unsigned_range z : is_unsigned (to_unsigned z).
Proof.
  unfold is_unsigned, to_unsigned, UINT_MAX.
  pose proof (Z.mod_pos_bound z (4294967295 + 1)). lia.
Qed.

(** From here on the conversions are used through the lemmas above. *)
#[global] Opaque to_int to_unsigned.

(** ** Arrays and loops *)

Lemma zlookup_nat {A} (l : list A) (i : nat) d :
  zlookup l (Z.of_nat i) d = default d (l !! i).
Proof.
  unfold zlookup. destruct (Z.ltb_spec (Z.of_nat i) 0); [lia|].
  by rewrite Nat2Z.id.
Qed.

Lemma zlookup_Some {A} (l : list A) (i : nat) d x :
  l !! i = Some x -> zlookup l (Z.of_nat i) d = x.
Proof. intros H. by rewrite zlookup_nat, H. Qed.

Lemma zupdate_nat {A} (l : list A) (i : nat) x :
  zupdate l (Z.of_nat i) x = <[i := x]> l.
Proof.
  unfold zupdate. destruct (Z.ltb_spec (Z.of_nat i) 0); [lia|].
  by rewrite Nat2Z.id.
Qed.

Lemma length_zupdate {A} (l : list A) i x : length (zupdate l i x) = length l.
Proof. unfold zupdate. destruct (i <? 0); [done|]. apply length_insert. Qed.

Lemma for_loop_nat {S} (n : nat) (body : Z -> S -> S) (s : S) :
  for_loop (Z.of_nat n) body s
  = fold_left (fun s i => body (Z.of_nat i) s) (seq 0 n) s.
Proof. unfold for_loop. by rewrite Nat2Z.id. Qed.

Lemma fold_seq_lookup {A S} (g : A -> S -> S) (d : A) (pre l : list A) (s : S) :
  fold_left (fun s i => g (zlookup (pre ++ l) (Z.of_nat i) d) s)
    (seq (length pre) (length l)) s
  = fold_left (fun s c => g c s) l s.
Proof.
  revert pre s. induction l as [|c l IH]; intros pre s; [done|].
  cbn [length seq fold_left].
  rewrite zlookup_nat, lookup_app_r, Nat.sub_diag by lia. cbn [lookup list_lookup default].
  replace (pre ++ c :: l) with ((pre ++ [c]) ++ l) by (by rewrite <- app_assoc).
  replace (Datatypes.S (length pre)) with (length (pre ++ [c]))
    by (rewrite length_app; simpl; lia).
  apply IH.
Qed.

(** A counting loop that reads [a[i]] on its [i]-th turn, run over the
    whole array, is a fold over the array. *)
Lemma for_loop_array {A S} (g : A -> S -> S) (d : A) (l : list A) (s : S) :
  for_loop (Z.of_nat (length l)) (fun i s => g (zlookup l i d) s) s
  = fold_left (fun s c => g c s) l s.
Proof. rewrite for_loop_nat. apply (fold_seq_lookup g d [] l s). Qed.

(** ** Chains and bucket arrays *)

Section Buckets.
Context {V : Type}.
Implicit Types (t : HashTable V) (f : HTFunctions V) (d : ptr V)
  (e : HTEntry V) (c l : list (HTEntry V)) (b : list (list (HTEntry V))).

Lemma concat_insert_cons b (i : nat) c e :
  b !! i = Some c -> concat (<[i := e :: c]> b) ≡ₚ e :: concat b.
Proof.
  revert i. induction b as [|c0 b IH]; intros [|i] H; simplify_eq/=; [done|].
  rewrite IH by done. by rewrite Permutation_middle.
Qed.

Lemma concat_insert_perm b (i : nat) c c' :
  b !! i = Some c -> c' ≡ₚ c -> concat (<[i := c']> b) ≡ₚ concat b.
Proof.
  revert i. induction b as [|c0 b IH]; intros [|i] H Hc; simplify_eq/=.
  - by rewrite Hc.
  - by rewrite IH.
Qed.

Lemma elem_of_concat_lookup b e :
  e ∈ concat b <-> exists (i : nat) c, b !! i = Some c /\ e ∈ c.
Proof.
  induction b as [|c0 b IH]; simpl.
  - split; [intros H; by apply elem_of_nil in H|].
    by intros (i & c & H & _).
  - rewrite elem_of_app, IH. split.
    + intros [H|(i & c & H & He)]; [by exists 0%nat, c0|by exists (S i), c].
    + intros ([|i] & c & H & He); simplify_eq/=; eauto.
Qed.

Lemma sum_frequency_perm l l' :
  l ≡ₚ l' -> sum_frequency l = sum_frequency l'.
Proof. induction 1; simpl; lia. Qed.

Lemma sum_frequency_app l l' :
  sum_frequency (l ++ l') = sum_frequency l + sum_frequency l'.
Proof. induction l; simpl; lia. Qed.

Lemma frequency_le_sum l e :
  Forall (fun e => 1 <= frequency e) l -> e ∈ l ->
  frequency e <= sum_frequency l.
Proof.
  induction 1 as [|e0 l H0 Hl IH]; intros He; [by apply elem_of_nil in He|].
  assert (0 <= sum_frequency l).
  { clear -Hl. induction Hl; simpl; lia. }
  apply elem_of_cons in He as [->|He]; simpl; [lia|].
  specialize (IH He). lia.
Qed.

Lemma length_le_sum l :
  Forall (fun e => 1 <= frequency e) l ->
  Z.of_nat (length l) <= sum_frequency l.
Proof. induction 1; simpl; lia. Qed.

(** *** Entries with pairwise inequivalent data *)

Lemma distinct_app f l l' :
  distinct f (l ++ l') <->
  distinct f l /\ distinct f l' /\
  forall e e', e ∈ l -> e' ∈ l' -> compare f (data e) (data e') <> 0.
Proof.
  induction l as [|e0 l IH]; simpl.
  - split; [intros H; repeat split; [done|]|tauto].
    intros e e' He. by apply elem_of_nil in He.
  - rewrite Forall_app, IH. split.
    + intros ((Hl & Hl') & Dl & Dl' & Hx). repeat split; try done.
      intros e e' He He'. apply elem_of_cons in He as [->|He]; [|eauto].
      by eapply Forall_forall in Hl'.
    + intros ((Hl & Dl) & Dl' & Hx). repeat split; try done.
      * apply Forall_forall. intros e' He'. apply Hx; [left|done].
      * intros e e' He He'. apply Hx; [by right|done].
Qed.

Lemma distinct_perm f l l' :
  lawful f -> l ≡ₚ l' -> distinct f l -> distinct f l'.
Proof.
  intros Hf. induction 1 as [|e l l' Hp IH|e1 e2 l|l1 l2 l3 _ IH1 _ IH2]; simpl.
  - done.
  - intros [H1 H2]. split; [by rewrite <- Hp|auto].
  - intros (H1 & H2 & H3). apply Forall_cons in H1 as [H12 H1].
    repeat split; try done. apply Forall_cons. split; [|done].
    intros H. by apply H12, (compare_sym f Hf).
  - auto.
Qed.

Lemma distinct_lookup f b (i : nat) c :
  distinct f (concat b) -> b !! i = Some c -> distinct f c.
Proof.
  revert i. induction b as [|c0 b IH]; intros [|i] D H; simplify_eq/=;
    apply distinct_app in D as (D1 & D2 & _); eauto.
Qed.

(** Two equivalent entries of a [distinct] list are the same entry. *)
Lemma distinct_unique f l e e' :
  lawful f -> distinct f l -> e ∈ l -> e' ∈ l ->
  compare f (data e) (data e') = 0 -> e = e'.
Proof.
  intros Hf. induction l as [|e0 l IH]; intros D He He' Hc.
  { by apply elem_of_nil in He. }
  destruct D as [D0 D].
  apply elem_of_cons in He as [->|He]; apply elem_of_cons in He' as [->|He'];
    auto.
  - by eapply Forall_forall in D0.
  - apply (compare_sym f Hf) in Hc. by eapply Forall_forall in D0.
Qed.

End Buckets.

(** ** Growth *)

Section Growth.
Context {V : Type}.
Implicit Types (t hti : HashTable V) (f : HTFunctions V) (d : ptr V)
  (e : HTEntry V) (c l : list (HTEntry V)) (b nht : list (list (HTEntry V))).

Lemma schedule_lookup (s : list Z) (i : Z) :
  schedule_ok s -> 0 <= i < Z.of_nat (length s) ->
  exists x, s !! Z.to_nat i = Some x /\ zlookup s i 0 = x /\ 1 < x <= UINT_MAX.
Proof.
  intros [Hs _] Hi.
  destruct (lookup_lt_is_Some_2 s (Z.to_nat i)) as [x Hx]; [lia|].
  exists x. split; [done|]. split.
  - replace i with (Z.of_nat (Z.to_nat i)) by lia. by apply zlookup_Some.
  - by eapply Forall_lookup_1 in Hs.
Qed.

Lemma cur_size_range t :
  wf_cursor t -> Forall (fun x => x <= INT_MAX) (sizes t) ->
  1 < cur_size t <= INT_MAX.
Proof.
  intros [Hn _ Hs Hi] Hint. unfold cur_size.
  destruct (schedule_lookup (sizes t) (index t) Hs) as (x & Hx & -> & Hr);
    [lia|].
  eapply Forall_lookup_1 in Hint; [|exact Hx]. simpl in Hint. lia.
Qed.

Lemma bucket_of_mod t d :
  1 < cur_size t <= INT_MAX ->
  bucket_of t d = hash (functions t) d mod cur_size t.
Proof.
  intros H. unfold bucket_of. apply to_int_small.
  pose proof (Z.mod_pos_bound (hash (functions t) d) (cur_size t)). lia.
Qed.

Lemma bucket_of_range t d :
  1 < cur_size t <= INT_MAX -> 0 <= bucket_of t d < cur_size t.
Proof.
  intros H. rewrite bucket_of_mod by done.
  apply Z.mod_pos_bound. lia.
Qed.

Lemma bucket_of_nat t d (n : nat) :
  1 < cur_size t <= INT_MAX -> cur_size t = Z.of_nat n ->
  exists i : nat, bucket_of t d = Z.of_nat i /\ (i < n)%nat.
Proof.
  intros H Hn. pose proof (bucket_of_range t d H).
  exists (Z.to_nat (bucket_of t d)). lia.
Qed.

Section Relink.
Variables (hti : HashTable V) (n : nat).
Hypothesis size_ok : 1 < cur_size hti <= INT_MAX.
Hypothesis size_n : cur_size hti = Z.of_nat n.

Lemma hrehash_length c nht : length (hrehash hti c nht) = length nht.
Proof.
  revert nht. induction c as [|e c IH]; intros nht; simpl; [done|].
  by rewrite IH, length_zupdate.
Qed.

Lemma hrehash_perm c nht :
  length nht = n -> concat (hrehash hti c nht) ≡ₚ c ++ concat nht.
Proof.
  revert nht. induction c as [|e c IH]; intros nht Hlen; simpl; [done|].
  destruct (bucket_of_nat hti (data e) n size_ok size_n) as (i & -> & Hi).
  destruct (lookup_lt_is_Some_2 nht i) as [c0 Hc0]; [lia|].
  rewrite zupdate_nat, (zlookup_Some _ _ _ _ Hc0).
  rewrite IH by (by rewrite length_insert).
  rewrite (concat_insert_cons _ _ _ _ Hc0).
  by rewrite Permutation_middle.
Qed.

Lemma hrehash_placed c nht :
  length nht = n -> placed hti nht -> placed hti (hrehash hti c nht).
Proof.
  revert nht. induction c as [|e c IH]; intros nht Hlen Hp; simpl; [done|].
  destruct (bucket_of_nat hti (data e) n size_ok size_n) as (i & Hb & Hi).
  rewrite Hb.
  destruct (lookup_lt_is_Some_2 nht i) as [c0 Hc0]; [lia|].
  rewrite zupdate_nat, (zlookup_Some _ _ _ _ Hc0).
  apply IH; [by rewrite length_insert|].
  intros j cj ej Hj Hej.
  destruct (decide (i = j)) as [->|Hne].
  - rewrite list_lookup_insert_eq in Hj by lia. simplify_eq.
    apply elem_of_cons in Hej as [->|Hej]; [exact Hb|].
    exact (Hp _ _ _ Hc0 Hej).
  - rewrite list_lookup_insert_ne in Hj by done.
    exact (Hp _ _ _ Hj Hej).
Qed.

(** The loop of [rehash] over all the old chains. *)
Lemma relink_all_length b nht :
  length (fold_left (fun nht c => hrehash hti c nht) b nht) = length nht.
Proof.
  revert nht. induction b as [|c b IH]; intros nht; simpl; [done|].
  by rewrite IH, hrehash_length.
Qed.

Lemma relink_all_perm b nht :
  length nht = n ->
  concat (fold_left (fun nht c => hrehash hti c nht) b nht)
  ≡ₚ concat b ++ concat nht.
Proof.
  revert nht. induction b as [|c b IH]; intros nht Hlen; simpl; [done|].
  rewrite IH by (by rewrite hrehash_length).
  rewrite hrehash_perm by done.
  rewrite <- !app_assoc. apply Permutation_app_swap_app.
Qed.

Lemma relink_all_placed b nht :
  length nht = n -> placed hti nht ->
  placed hti (fold_left (fun nht c => hrehash hti c nht) b nht).
Proof.
  revert nht. induction b as [|c b IH]; intros nht Hlen Hp; simpl; [done|].
  apply IH; [by rewrite hrehash_length|by apply hrehash_placed].
Qed.
End Relink.

End Growth.

Section Rehash.
Context {V : Type}.
Implicit Types (t hti : HashTable V) (d : ptr V) (e : HTEntry V).

(** What [rehash] leaves alone, whatever the table. *)
Lemma rehash_frame t :
  functions (rehash t) = functions t /\ sizes (rehash t) = sizes t /\
  numSizes (rehash t) = numSizes t /\ numItem (rehash t) = numItem t /\
  total (rehash t) = total t /\ lf (rehash t) = lf t /\
  index (rehash t) = to_int (index t + 1).
Proof. by repeat split. Qed.

Lemma concat_replicate_nil {A} (n : nat) : concat (replicate n (@nil A)) = [].
Proof. induction n; simpl; auto. Qed.

Lemma entries_set_ht t b : entries (set_ht t b) = concat b.
Proof. done. Qed.

Section Step.
Variable t : HashTable V.
Hypothesis Hwf : wf t.
Hypothesis Hnext : index t < numSizes t - 1.

Lemma next_cursor : wf_cursor (advanced t).
Proof.
  destruct (wf_sched t Hwf) as [Hn Hi Hs Hx].
  split; simpl; try done. lia.
Qed.

Lemma next_size : 1 < cur_size (advanced t) <= INT_MAX.
Proof. apply cur_size_range; [apply next_cursor|apply Hwf]. Qed.

Lemma rehash_unfold :
  rehash t =
  set_ht (advanced t)
    (fold_left (fun nht c => hrehash (advanced t) c nht) (ht t)
       (replicate (Z.to_nat (cur_size (advanced t))) [])).
Proof.
  destruct (wf_sched t Hwf) as [Hn Hi Hs Hx].
  pose proof (wf_length t Hwf) as Hlen.
  unfold rehash. cbn zeta.
  assert (to_int (index t + 1) = index t + 1) as ->
    by (apply to_int_small; lia).
  fold (advanced t). unfold calloc.
  change (index (advanced t)) with (index t + 1). change (sizes (advanced t)) with (sizes t).
  change (ht (advanced t)) with (ht t).
  assert (to_int (index t + 1 - 1) = index t) as ->
    by (rewrite to_int_small; lia).
  fold (cur_size t). rewrite <- Hlen.
  by rewrite (for_loop_array (fun c nht => hrehash (advanced t) c nht)).
Qed.

Lemma rehash_index : index (rehash t) = index t + 1.
Proof. by rewrite rehash_unfold. Qed.

Lemma rehash_length : Z.of_nat (length (ht (rehash t))) = cur_size (rehash t).
Proof.
  rewrite rehash_unfold. cbn [ht set_ht].
  rewrite relink_all_length, length_replicate.
  pose proof next_size.
  change (cur_size (set_ht (advanced t) _)) with (cur_size (advanced t)). lia.
Qed.

Lemma rehash_entries : entries (rehash t) ≡ₚ entries t.
Proof.
  pose proof next_size as Hr.
  rewrite rehash_unfold, entries_set_ht.
  rewrite (relink_all_perm (advanced t) (Z.to_nat (cur_size (advanced t))) Hr)
    by (first [lia | by rewrite length_replicate]).
  by rewrite concat_replicate_nil, app_nil_r.
Qed.

(** Every entry hangs from the bucket of its hash under the new
    capacity. *)
Lemma rehash_placed : placed (rehash t) (ht (rehash t)).
Proof.
  pose proof next_size as Hr.
  rewrite rehash_unfold. cbn [ht set_ht].
  intros i c e Hi He.
  change (bucket_of (set_ht (advanced t) _) (data e)) with (bucket_of (advanced t) (data e)).
  revert i c e Hi He.
  apply (relink_all_placed (advanced t) (Z.to_nat (cur_size (advanced t))) Hr);
    [lia|by rewrite length_replicate|].
  intros i c e Hi He. apply lookup_replicate in Hi as [-> _].
  by apply elem_of_nil in He.
Qed.

Lemma rehash_wf : lawful (functions t) -> wf (rehash t).
Proof.
  intros Hf. pose proof rehash_entries as Hp.
  split.
  - pose proof next_cursor as [? ? ? ?]. rewrite rehash_unfold.
    by split.
  - apply (wf_sizes_int t Hwf).
  - rewrite Hp. apply (wf_nonnull t Hwf).
  - apply rehash_length.
  - apply rehash_placed.
  - apply (distinct_perm _ (entries t)); [done|by symmetry|apply Hwf].
  - rewrite Hp. apply (wf_frequency t Hwf).
  - change (numItem (rehash t)) with (numItem t). rewrite Hp. apply Hwf.
  - change (total (rehash t)) with (total t).
    rewrite (sum_frequency_perm _ _ Hp). apply Hwf.
  - apply Hwf.
Qed.
End Step.

Lemma checkRehash_cases t :
  checkRehash t = t \/
  (checkRehash t = rehash t /\
   Float32.eqb (lf t) (Float32.of_Z 1) = false /\
   index t < to_int (numSizes t - 1) /\
   Float32.ltb (lf t)
     (Float32.div (Float32.of_Z (numItem t)) (Float32.of_Z (cur_size t)))
   = true).
Proof.
  unfold checkRehash.
  destruct (Float32.eqb (lf t) (Float32.of_Z 1)); simpl; [by left|].
  destruct (Z.ltb_spec (index t) (to_int (numSizes t - 1))); simpl;
    [|by left].
  destruct (Float32.ltb (lf t) _) eqn:E; [right|by left]. done.
Qed.

Lemma numSizes_pred t :
  wf_cursor t -> to_int (numSizes t - 1) = numSizes t - 1.
Proof. intros [Hn Hi Hs Hx]. apply to_int_small. lia. Qed.

Lemma checkRehash_wf t :
  lawful (functions t) -> wf t ->
  wf (checkRehash t) /\ entries (checkRehash t) ≡ₚ entries t /\
  functions (checkRehash t) = functions t /\
  numItem (checkRehash t) = numItem t /\ total (checkRehash t) = total t.
Proof.
  intros Hf Hwf.
  destruct (checkRehash_cases t) as [->|(-> & _ & Hi & _)]; [done|].
  rewrite numSizes_pred in Hi by apply Hwf.
  split; [by apply rehash_wf|]. split; [by apply rehash_entries|done].
Qed.

End Rehash.

(** ** Scanning a chain *)

Section Scan.
Context {V : Type}.
Implicit Types (t hti : HashTable V) (f : HTFunctions V) (d : ptr V)
  (e : HTEntry V) (c l : list (HTEntry V)).

Lemma addTail_loop_None f c d :
  unmatched f d c -> addTail_loop f c d = None.
Proof.
  induction 1 as [|e c He _ IH]; simpl; [done|].
  destruct (Z.eqb_spec (compare f (data e) d) 0); [done|]. by rewrite IH.
Qed.

Lemma addTail_loop_Some f c1 e c2 d :
  unmatched f d c1 -> compare f (data e) d = 0 ->
  addTail_loop f (c1 ++ e :: c2) d
  = Some (to_unsigned (frequency e + 1),
          c1 ++ mkEntry (data e) (to_unsigned (frequency e + 1)) :: c2).
Proof.
  intros H1 He. induction H1 as [|e1 c1 H1 _ IH]; simpl.
  - by rewrite He.
  - destruct (Z.eqb_spec (compare f (data e1) d) 0); [done|]. by rewrite IH.
Qed.

Lemma htLookUp_loop_absent f c d :
  unmatched f d c -> htLookUp_loop f c d = notFound.
Proof.
  induction 1 as [|e c He _ IH]; simpl; [done|].
  by destruct (Z.eqb_spec (compare f (data e) d) 0).
Qed.

Lemma htLookUp_loop_found f c1 e c2 d :
  unmatched f d c1 -> compare f (data e) d = 0 ->
  htLookUp_loop f (c1 ++ e :: c2) d = e.
Proof.
  intros H1 He. induction H1 as [|e1 c1 H1 _ IH]; simpl.
  - by rewrite He.
  - by destruct (Z.eqb_spec (compare f (data e1) d) 0).
Qed.

(** A chain splits at its first entry that compares equal to [d], if
    there is one. *)
Lemma scan_cases f c d :
  unmatched f d c \/
  exists c1 e c2, c = c1 ++ e :: c2 /\ unmatched f d c1 /\
                  compare f (data e) d = 0.
Proof.
  induction c as [|e c [IH|(c1 & e1 & c2 & -> & H1 & He)]].
  - left. constructor.
  - destruct (decide (compare f (data e) d = 0)) as [He|He].
    + right. exists [], e, c. repeat split; [constructor|done].
    + left. by constructor.
  - destruct (decide (compare f (data e) d = 0)) as [He'|He'].
    + right. exists [], e, (c1 ++ e1 :: c2). repeat split; [constructor|done].
    + right. exists (e :: c1), e1, c2. repeat split; [by constructor|done].
Qed.

(** In a chain of pairwise inequivalent entries, the entry equivalent
    to [d] is the first one the scan meets. *)
Lemma scan_split f c e d :
  lawful f -> distinct f c -> e ∈ c -> compare f (data e) d = 0 ->
  exists c1 c2, c = c1 ++ e :: c2 /\ unmatched f d c1.
Proof.
  intros Hf D He Hd.
  apply list_elem_of_split in He as (c1 & c2 & ->).
  exists c1, c2. split; [done|].
  apply distinct_app in D as (_ & _ & Hx).
  apply Forall_forall. intros e1 He1 H1.
  apply (Hx e1 e); [done|left|].
  apply (compare_trans f Hf _ d); [done|]. by apply (compare_sym f Hf).
Qed.

Lemma zlookup_chain t i e :
  e ∈ zlookup (ht t) i [] -> e ∈ entries t.
Proof.
  unfold zlookup. destruct (i <? 0); [intros H; by apply elem_of_nil in H|].
  destruct (ht t !! Z.to_nat i) as [c|] eqn:E; simpl;
    [|intros H; by apply elem_of_nil in H].
  intros H. apply elem_of_concat_lookup. eauto.
Qed.

Lemma absent_chain t i d : absent t d -> unmatched (functions t) d (zlookup (ht t) i []).
Proof.
  intros H. apply Forall_forall. intros e He.
  eapply Forall_forall in H; [done|]. by eapply zlookup_chain.
Qed.

(** In a well-formed table the entry [e] is in the chain that the hash
    of any equivalent [d] selects. *)
Lemma chain_of_equivalent t e d :
  lawful (functions t) -> wf t -> e ∈ entries t ->
  compare (functions t) (data e) d = 0 ->
  exists (i : nat) c1 c2,
    bucket_of t d = Z.of_nat i /\ ht t !! i = Some (c1 ++ e :: c2) /\
    unmatched (functions t) d c1.
Proof.
  intros Hf Hwf He Hd.
  apply elem_of_concat_lookup in He as (i & c & Hi & He).
  pose proof (wf_bucket t Hwf i c e Hi He) as Hb.
  destruct (scan_split (functions t) c e d Hf) as (c1 & c2 & -> & H1);
    [by eapply distinct_lookup; [apply Hwf|]|done|done|].
  exists i, c1, c2. split; [|done].
  rewrite <- Hb. unfold bucket_of.
  by rewrite (compare_hash _ Hf _ _ Hd).
Qed.

End Scan.

(** ** Lookup and insertion on a well-formed table *)

Section Operations.
Context {V : Type}.
Implicit Types (t hti : HashTable V) (f : HTFunctions V) (d : ptr V)
  (e : HTEntry V) (c l : list (HTEntry V)).

Lemma htLookUp_found t d e :
  lawful (functions t) -> wf t -> is_null d = false ->
  e ∈ entries t -> compare (functions t) (data e) d = 0 ->
  htLookUp t d = Ok (e, t).
Proof.
  intros Hf Hwf Hn He Hd. unfold htLookUp. rewrite Hn. simpl.
  destruct (chain_of_equivalent t e d Hf Hwf He Hd)
    as (i & c1 & c2 & -> & Hi & H1).
  by rewrite (zlookup_Some _ _ _ _ Hi), htLookUp_loop_found.
Qed.

Lemma htLookUp_absent t d :
  is_null d = false -> absent t d -> htLookUp t d = Ok (notFound, t).
Proof.
  intros Hn Ha. unfold htLookUp. rewrite Hn. simpl.
  by rewrite htLookUp_loop_absent by (by apply absent_chain).
Qed.

(** What [addTail] leaves alone, whatever the table. *)
Lemma addTail_frame t hi d :
  functions (addTail t hi d).2 = functions t /\
  sizes (addTail t hi d).2 = sizes t /\
  numSizes (addTail t hi d).2 = numSizes t /\
  index (addTail t hi d).2 = index t /\
  lf (addTail t hi d).2 = lf t /\
  total (addTail t hi d).2 = to_int (total t + 1).
Proof.
  unfold addTail. cbn [functions set_total set_numItem].
  by destruct (addTail_loop (functions t) _ d) as [[fr c']|].
Qed.

Lemma numItem_bound t : wf t -> 0 <= numItem t <= total t.
Proof.
  intros Hwf. rewrite (wf_numItem t Hwf), (wf_total t Hwf).
  pose proof (length_le_sum _ (wf_frequency t Hwf)). lia.
Qed.

Lemma wf_slot t d :
  wf t ->
  exists (i : nat) c, bucket_of t d = Z.of_nat i /\ ht t !! i = Some c.
Proof.
  intros Hwf.
  pose proof (cur_size_range t (wf_sched t Hwf) (wf_sizes_int t Hwf)) as Hr.
  destruct (bucket_of_nat t d (length (ht t)) Hr) as (i & Hb & Hi);
    [by rewrite (wf_length t Hwf)|].
  destruct (lookup_lt_is_Some_2 (ht t) i Hi) as [c Hc]. eauto.
Qed.

Lemma concat_insert_split (b : list (list (HTEntry V))) (i : nat) c c' :
  b !! i = Some c ->
  concat b = concat (take i b) ++ c ++ concat (drop (S i) b) /\
  concat (<[i := c']> b) = concat (take i b) ++ c' ++ concat (drop (S i) b).
Proof.
  revert i. induction b as [|c0 b IH]; intros [|i] H; simplify_eq/=.
  - by rewrite drop_0.
  - destruct (IH i H) as [-> ->]. by rewrite <- !app_assoc.
Qed.

(** Insertion of data with no equivalent in the table. *)
Lemma addTail_new t d :
  lawful (functions t) -> wf t -> is_null d = false -> absent t d ->
  total t < INT_MAX ->
  exists t',
    addTail t (bucket_of t d) d = (1, t') /\ wf t' /\
    entries t' ≡ₚ mkEntry d 1 :: entries t.
Proof.
  intros Hf Hwf Hnn Ha Ht.
  pose proof (addTail_frame t (bucket_of t d) d) as (F1 & F2 & F3 & F4 & F5 & F6).
  pose proof (numItem_bound t Hwf) as Hni.
  destruct (wf_slot t d Hwf) as (i & c & Hb & Hc).
  revert F1 F2 F3 F4 F5 F6. unfold addTail.
  cbn [functions set_total set_numItem ht numItem total].
  rewrite addTail_loop_None by (by apply absent_chain).
  rewrite Hb, (zlookup_Some _ _ _ _ Hc), zupdate_nat.
  rewrite !to_int_small by lia.
  set (t' := set_ht _ _). cbn [snd]. intros F1 F2 F3 F4 F5 F6.
  assert (entries t' ≡ₚ mkEntry d 1 :: entries t) as Hp.
  { unfold t'. rewrite entries_set_ht. cbn [ht set_total set_numItem].
    by apply concat_insert_cons. }
  exists t'. split; [done|]. split; [|done].
  destruct Hwf as [[Hn Hi Hs Hx] Hsi Hnl Hlen Hpl Hd Hfr Hnum Htot Hint].
  split.
  - split; by rewrite ?F2, ?F3, ?F4.
  - by rewrite F2.
  - rewrite Hp. by constructor.
  - unfold t' at 1. cbn [ht set_ht]. rewrite length_insert.
    unfold cur_size. by rewrite F2, F4.
  - intros j cj ej Hj Hej.
    assert (forall x, bucket_of t' x = bucket_of t x) as ->
      by (intros x; unfold bucket_of, cur_size; by rewrite F1, F2, F4).
    unfold t' in Hj. cbn [ht set_ht set_total set_numItem] in Hj.
    destruct (decide (i = j)) as [->|Hne].
    + rewrite list_lookup_insert_eq in Hj
        by (by eapply lookup_lt_Some). simplify_eq.
      apply elem_of_cons in Hej as [->|Hej]; [exact Hb|].
      exact (Hpl _ _ _ Hc Hej).
    + rewrite list_lookup_insert_ne in Hj by done.
      exact (Hpl _ _ _ Hj Hej).
  - rewrite F1. apply (distinct_perm _ (mkEntry d 1 :: entries t));
      [done|by symmetry|].
    split; [|done]. eapply Forall_impl; [exact Ha|].
    intros e He H. by apply He, (compare_sym _ Hf).
  - rewrite Hp. constructor; [simpl; lia|done].
  - unfold t' at 1. cbn [numItem set_ht set_total set_numItem].
    rewrite Hp. simpl length. lia.
  - unfold t' at 1. cbn [total set_ht set_total set_numItem].
    rewrite (sum_frequency_perm _ _ Hp). simpl. lia.
  - unfold t'. cbn [total set_ht set_total set_numItem]. lia.
Qed.

Lemma perm_extract {A} (a b c1 c2 : list A) (x : A) :
  a ++ (c1 ++ x :: c2) ++ b ≡ₚ x :: a ++ (c1 ++ c2) ++ b.
Proof.
  rewrite <- !(app_assoc c1). simpl.
  rewrite (Permutation_middle a). apply Permutation_app_head.
  symmetry. apply Permutation_middle.
Qed.

(** Insertion of data equivalent to the data of the entry [e]. *)
Lemma addTail_dup t d e :
  lawful (functions t) -> wf t -> e ∈ entries t ->
  compare (functions t) (data e) d = 0 -> total t < INT_MAX ->
  exists t' rest,
    addTail t (bucket_of t d) d = (frequency e + 1, t') /\ wf t' /\
    entries t ≡ₚ e :: rest /\
    entries t' ≡ₚ mkEntry (data e) (frequency e + 1) :: rest.
Proof.
  intros Hf Hwf He Hd Ht.
  pose proof (addTail_frame t (bucket_of t d) d) as (F1 & F2 & F3 & F4 & F5 & F6).
  pose proof (numItem_bound t Hwf) as Hni.
  destruct (chain_of_equivalent t e d Hf Hwf He Hd)
    as (i & c1 & c2 & Hb & Hc & H1).
  assert (1 <= frequency e <= total t) as Hfe.
  { split; [by eapply Forall_forall in He; [|apply (wf_frequency t Hwf)]|].
    rewrite (wf_total t Hwf).
    apply frequency_le_sum; [apply (wf_frequency t Hwf)|done]. }
  revert F1 F2 F3 F4 F5 F6. unfold addTail.
  cbn [functions set_total set_numItem ht numItem total].
  rewrite Hb, (zlookup_Some _ _ _ _ Hc).
  rewrite addTail_loop_Some by done. rewrite zupdate_nat.
  rewrite to_unsigned_small by (unfold INT_MAX in *; lia).
  rewrite (to_int_small (numItem t + 1)) by lia.
  rewrite !to_int_small by lia.
  replace (numItem t + 1 - 1) with (numItem t) by lia.
  set (e' := mkEntry (data e) (frequency e + 1)).
  set (t' := set_ht _ _). cbn [snd]. intros F1 F2 F3 F4 F5 F6.
  set (rest := concat (take i (ht t)) ++ (c1 ++ c2)
               ++ concat (drop (S i) (ht t))).
  destruct (concat_insert_split (ht t) i _ (c1 ++ e' :: c2) Hc) as [E1 E2].
  assert (entries t ≡ₚ e :: rest) as Hp.
  { unfold entries, rest. rewrite E1. apply perm_extract. }
  assert (entries t' ≡ₚ e' :: rest) as Hp'.
  { unfold t'. rewrite entries_set_ht. cbn [ht set_total set_numItem].
    unfold rest. rewrite E2. apply perm_extract. }
  exists t', rest. split; [done|]. split; [|done].
  destruct Hwf as [[Hn Hi Hs Hx] Hsi Hnl Hlen Hpl Hdi Hfr Hnum Htot Hint].
  split.
  - split; by rewrite ?F2, ?F3, ?F4.
  - by rewrite F2.
  - rewrite Hp'. rewrite Hp in Hnl. apply Forall_cons in Hnl as [? ?].
    by constructor.
  - unfold t' at 1. cbn [ht set_ht]. rewrite length_insert.
    unfold cur_size. by rewrite F2, F4.
  - intros j cj ej Hj Hej.
    assert (forall x, bucket_of t' x = bucket_of t x) as ->
      by (intros x; unfold bucket_of, cur_size; by rewrite F1, F2, F4).
    unfold t' in Hj. cbn [ht set_ht set_total set_numItem] in Hj.
    destruct (decide (i = j)) as [->|Hne].
    + rewrite list_lookup_insert_eq in Hj
        by (by eapply lookup_lt_Some). simplify_eq.
      apply elem_of_app in Hej as [Hej|Hej].
      { apply (Hpl _ _ _ Hc). apply elem_of_app. by left. }
      apply elem_of_cons in Hej as [->|Hej].
      { change (data e') with (data e).
        apply (Hpl _ _ _ Hc). apply elem_of_app. right. left. }
      apply (Hpl _ _ _ Hc). apply elem_of_app. right. by right.
    + rewrite list_lookup_insert_ne in Hj by done.
      exact (Hpl _ _ _ Hj Hej).
  - rewrite F1. apply (distinct_perm _ (e' :: rest)); [done|by symmetry|].
    by apply (distinct_perm _ _ (e :: rest)) in Hdi.
  - rewrite Hp'. rewrite Hp in Hfr. apply Forall_cons in Hfr as [? ?].
    constructor; [simpl; lia|done].
  - unfold t' at 1. cbn [numItem set_ht set_total set_numItem].
    rewrite Hp'. rewrite Hnum, Hp. done.
  - unfold t' at 1. cbn [total set_ht set_total set_numItem].
    rewrite (sum_frequency_perm _ _ Hp'). rewrite Htot.
    rewrite (sum_frequency_perm _ _ Hp). simpl. lia.
  - unfold t'. cbn [total set_ht set_total set_numItem]. lia.
Qed.

(** *** [htAdd] *)

Lemma htAdd_unfold t d :
  is_null d = false ->
  htAdd t d =
  Ok (to_unsigned (to_int (addTail (checkRehash t) (bucket_of (checkRehash t) d) d).1),
      (addTail (checkRehash t) (bucket_of (checkRehash t) d) d).2).
Proof.
  intros Hn. unfold htAdd. rewrite Hn. simpl.
  by destruct (addTail _ _ d).
Qed.

Lemma htAdd_null t : htAdd t NULL = Abort.
Proof. done. Qed.

Lemma absent_perm t t' d :
  functions t' = functions t -> entries t' ≡ₚ entries t ->
  absent t d -> absent t' d.
Proof. unfold absent. intros -> ->. done. Qed.

Lemma htAdd_new t d :
  lawful (functions t) -> wf t -> is_null d = false -> absent t d ->
  total t < INT_MAX ->
  exists t',
    htAdd t d = Ok (1, t') /\ wf t' /\
    entries t' ≡ₚ mkEntry d 1 :: entries t.
Proof.
  intros Hf Hwf Hn Ha Ht.
  destruct (checkRehash_wf t Hf Hwf) as (Hwf1 & Hp1 & Hf1 & Hn1 & Ht1).
  destruct (addTail_new (checkRehash t) d) as (t' & E & Hwf' & Hp');
    [by rewrite Hf1|done|done|by apply (absent_perm t)|by rewrite Ht1|].
  exists t'. rewrite htAdd_unfold, E by done. cbn [fst snd].
  split; [|split; [done|by rewrite Hp', Hp1]].
  by rewrite to_int_small, to_unsigned_small by (unfold INT_MAX; lia).
Qed.

Lemma htAdd_dup t d e :
  lawful (functions t) -> wf t -> is_null d = false -> e ∈ entries t ->
  compare (functions t) (data e) d = 0 -> total t < INT_MAX ->
  exists t' rest,
    htAdd t d = Ok (frequency e + 1, t') /\ wf t' /\
    entries t ≡ₚ e :: rest /\
    entries t' ≡ₚ mkEntry (data e) (frequency e + 1) :: rest.
Proof.
  intros Hf Hwf Hn He Hd Ht.
  destruct (checkRehash_wf t Hf Hwf) as (Hwf1 & Hp1 & Hf1 & Hn1 & Ht1).
  destruct (addTail_dup (checkRehash t) d e) as (t' & rest & E & Hwf' & Hp & Hp');
    [by rewrite Hf1|done|by rewrite Hp1|by rewrite Hf1|by rewrite Ht1|].
  assert (1 <= frequency e <= total t) as Hfe.
  { split; [by eapply Forall_forall in He; [|apply (wf_frequency t Hwf)]|].
    rewrite (wf_total t Hwf).
    apply frequency_le_sum; [apply (wf_frequency t Hwf)|done]. }
  exists t', rest. rewrite htAdd_unfold, E by done. cbn [fst snd].
  split; [|split; [done|by rewrite <- Hp1]].
  by rewrite to_int_small, to_unsigned_small by (unfold INT_MAX in *; lia).
Qed.

(** What [htAdd] leaves alone. *)
Lemma htAdd_frame t d fr t' :
  htAdd t d = Ok (fr, t') ->
  functions t' = functions t /\ sizes t' = sizes t /\
  numSizes t' = numSizes t /\ lf t' = lf t /\
  index t' = index (checkRehash t).
Proof.
  destruct d as [v|]; [|done]. rewrite htAdd_unfold by done.
  intros [= _ <-].
  pose proof (addTail_frame (checkRehash t) (bucket_of (checkRehash t) (Some v)) (Some v))
    as (F1 & F2 & F3 & F4 & F5 & F6).
  rewrite F1, F2, F3, F4, F5.
  destruct (checkRehash_cases t) as [->|(-> & _)]; [done|].
  by destruct (rehash_frame t) as (-> & -> & -> & _ & _ & -> & _).
Qed.

End Operations.

(** ** Construction *)

Section Construction.
Context {V : Type}.
Implicit Types (t : HashTable V) (f : HTFunctions V) (src dst : list Z).

Lemma zlookup_unsigned src i :
  Forall is_unsigned src -> is_unsigned (zlookup src i 0).
Proof.
  intros H. unfold zlookup. destruct (i <? 0); [by unfold is_unsigned, UINT_MAX|].
  destruct (src !! Z.to_nat i) eqn:E; simpl; [|by unfold is_unsigned, UINT_MAX].
  by eapply Forall_lookup_1 in H.
Qed.

Lemma zlookup_positive src (i : nat) :
  0 < zlookup src (Z.of_nat i) 0 -> src !! i = Some (zlookup src (Z.of_nat i) 0).
Proof.
  rewrite zlookup_nat. destruct (src !! i); simpl; [done|lia].
Qed.

Lemma size_ok_at_dec src i : {size_ok_at src i} + {~ size_ok_at src i}.
Proof.
  unfold size_ok_at.
  destruct (decide (1 < zlookup src (Z.of_nat i) 0)); [|right; tauto].
  destruct i as [|j]; [by left|].
  destruct (decide (zlookup src (Z.of_nat j) 0 < zlookup src (Z.of_nat (S j)) 0));
    [by left|right; tauto].
Qed.

(** The loop either copies the prefix it checks or stops at the first
    position that violates the precondition. *)
Lemma setSizeArray_loop_spec src (n : nat) :
  Forall is_unsigned src ->
  forall (k : nat) prev,
    Z.of_nat (k + n) <= INT_MAX ->
    to_unsigned prev
      = match k with O => 0 | S j => zlookup src (Z.of_nat j) 0 end ->
    (k <= length src)%nat ->
    ((forall j, (k <= j < k + n)%nat -> size_ok_at src j) /\
     setSizeArray_loop n (Z.of_nat k) prev src (take k src ++ replicate n 0)
     = Ok (take (k + n) src))
    \/
    ((exists j, (k <= j < k + n)%nat /\ ~ size_ok_at src j) /\
     setSizeArray_loop n (Z.of_nat k) prev src (take k src ++ replicate n 0)
     = Abort).
Proof.
  intros Hu. induction n as [|n IH]; intros k prev Hk Hprev Hlen.
  { left. split; [intros; lia|]. simpl. by rewrite app_nil_r, Nat.add_0_r. }
  cbn [setSizeArray_loop].
  set (s := zlookup src (Z.of_nat k) 0).
  destruct (size_ok_at_dec src k) as [Hok|Hbad].
  - destruct Hok as [H1 H2]. fold s in H1, H2.
    assert ((1 <? s) = true) as -> by (apply Z.ltb_lt; lia).
    assert ((to_unsigned prev <? s) = true) as ->.
    { apply Z.ltb_lt. rewrite Hprev. destruct k; lia. }
    cbn [assert mbind result_bind].
    assert (src !! k = Some s) as Hs by (apply zlookup_positive; fold s; lia).
    assert (to_int (Z.of_nat k + 1) = Z.of_nat (S k)) as ->
      by (rewrite to_int_small; lia).
    assert (zupdate (take k src ++ replicate (S n) 0) (Z.of_nat k) s
            = take (S k) src ++ replicate n 0) as ->.
    { rewrite zupdate_nat. rewrite (take_S_r _ _ _ Hs), <- app_assoc.
      rewrite insert_app_r_alt by (rewrite length_take; lia).
      rewrite length_take. replace (k - k `min` length src)%nat with 0%nat by lia.
      done. }
    destruct (IH (S k) (to_int s)) as [[Hall E]|[(j & Hj & Hbad) E]].
    + lia.
    + rewrite to_unsigned_to_int by (by apply zlookup_unsigned). done.
    + by eapply lookup_lt_Some.
    + left. split.
      * intros j Hj. destruct (decide (j = k)) as [->|]; [done|].
        apply Hall. lia.
      * rewrite E. f_equal. f_equal. lia.
    + right. split; [exists j; split; [lia|done]|done].
  - right. split; [exists k; split; [lia|done]|].
    destruct (Z.ltb_spec 1 s); [|done].
    destruct (Z.ltb_spec (to_unsigned prev) s); [|done].
    exfalso. apply Hbad. split; [done|]. fold s.
    rewrite Hprev in *. destruct k; [done|]. done.
Qed.

Lemma setFunctions_id f : setFunctions f = f.
Proof. by destruct f. Qed.

Lemma float_range_false (x : Float32.float) :
  ~ (Float32.ltb (Float32.of_Z 0) x = true /\
     Float32.leb x (Float32.of_Z 1) = true) ->
  Float32.ltb (Float32.of_Z 0) x && Float32.leb x (Float32.of_Z 1) = false.
Proof.
  intros H. destruct (Float32.ltb _ x); [|done].
  destruct (Float32.leb x _); [|done]. exfalso. by apply H.
Qed.

Lemma htCreate_ok f src numSizes lf :
  Forall is_unsigned src -> numSizes <= INT_MAX ->
  create_ok src numSizes lf ->
  htCreate f src numSizes lf
  = Ok (mkTable f (take (Z.to_nat numSizes) src) numSizes 0 0 0 lf
          (replicate (Z.to_nat (zlookup src 0 0)) [])).
Proof.
  intros Hu Hn (Hpos & [Hl1 Hl2] & Hall). unfold htCreate.
  assert ((0 <? numSizes) = true) as -> by (apply Z.ltb_lt; lia).
  rewrite Hl1, Hl2. cbn [andb assert mbind result_bind].
  unfold setSizeArray, calloc.
  destruct (setSizeArray_loop_spec src (Z.to_nat numSizes) Hu 0 0)
    as [[_ E]|[(j & Hj & Hbad) _]];
    [lia|by rewrite to_unsigned_small by (unfold INT_MAX; lia)|simpl; lia| |].
  - rewrite take_0, Nat.add_0_l in E. cbn [app] in E.
    change (Z.of_nat 0) with 0 in E.
    rewrite E. cbn [mbind result_bind]. by rewrite setFunctions_id.
  - exfalso. apply Hbad, Hall. lia.
Qed.

Lemma htCreate_abort f src numSizes lf :
  Forall is_unsigned src -> numSizes <= INT_MAX ->
  ~ create_ok src numSizes lf ->
  htCreate f src numSizes lf = Abort.
Proof.
  intros Hu Hn Hbad. unfold htCreate.
  destruct (Z.ltb_spec 0 numSizes) as [Hpos|]; [|done].
  cbn [assert mbind result_bind].
  destruct (Float32.ltb (Float32.of_Z 0) lf && Float32.leb lf (Float32.of_Z 1))
    eqn:El; [|done].
  apply andb_true_iff in El as [El1 El2].
  cbn [assert mbind result_bind].
  unfold setSizeArray, calloc.
  destruct (setSizeArray_loop_spec src (Z.to_nat numSizes) Hu 0 0)
    as [[Hall _]|[_ E]];
    [lia|by rewrite to_unsigned_small by (unfold INT_MAX; lia)|simpl; lia| |].
  - exfalso. apply Hbad. split; [done|]. split; [done|].
    intros j Hj. apply Hall. lia.
  - rewrite take_0 in E. cbn [app] in E.
    change (Z.of_nat 0) with 0 in E.
    by rewrite E.
Qed.

End Construction.

(** ** The schedule cursor *)

Section Cursor.
Context {V : Type}.
Implicit Types (t : HashTable V) (f : HTFunctions V) (d : ptr V).

Lemma create_ok_schedule src numSizes lf :
  Forall is_unsigned src -> create_ok src numSizes lf ->
  length (take (Z.to_nat numSizes) src) = Z.to_nat numSizes /\
  schedule_ok (take (Z.to_nat numSizes) src) /\
  zlookup (take (Z.to_nat numSizes) src) 0 0 = zlookup src 0 0.
Proof.
  intros Hu (Hpos & _ & Hall).
  assert (forall i, (i < Z.to_nat numSizes)%nat ->
            src !! i = Some (zlookup src (Z.of_nat i) 0)) as Hget.
  { intros i Hi. apply zlookup_positive. destruct (Hall i Hi). lia. }
  assert (Z.to_nat numSizes <= length src)%nat as Hlen.
  { destruct (Z.to_nat numSizes) as [|n] eqn:E; [lia|].
    specialize (Hget n ltac:(lia)). apply lookup_lt_Some in Hget. lia. }
  assert (forall i x, take (Z.to_nat numSizes) src !! i = Some x ->
            (i < Z.to_nat numSizes)%nat /\ x = zlookup src (Z.of_nat i) 0) as Hin.
  { intros i x Hi. pose proof (lookup_lt_Some _ _ _ Hi) as Hlt.
    rewrite length_take in Hlt. split; [lia|].
    rewrite lookup_take_lt in Hi by lia.
    rewrite Hget in Hi by lia. congruence. }
  split; [rewrite length_take; lia|]. split; [split|].
  - apply Forall_lookup. intros i x Hi. destruct (Hin i x Hi) as [Hlt ->].
    destruct (Hall i Hlt) as [H1 _].
    pose proof (zlookup_unsigned src (Z.of_nat i) Hu) as Hr.
    unfold is_unsigned in Hr. lia.
  - intros i a b Ha Hb. destruct (Hin _ _ Ha) as [_ ->].
    destruct (Hin _ _ Hb) as [Hlt ->]. by destruct (Hall _ Hlt) as [_ H2].
  - change 0 with (Z.of_nat 0). rewrite !zlookup_nat.
    by rewrite lookup_take_lt by lia.
Qed.

Lemma create_ok_dec src numSizes lf :
  Forall is_unsigned src -> numSizes <= INT_MAX ->
  create_ok src numSizes lf \/ ~ create_ok src numSizes lf.
Proof.
  intros Hu Hn. unfold create_ok.
  destruct (decide (0 < numSizes)); [|right; tauto].
  destruct (Float32.ltb (Float32.of_Z 0) lf);
    [|right; intros (_ & H & _); by destruct H].
  destruct (Float32.leb lf (Float32.of_Z 1));
    [|right; intros (_ & H & _); by destruct H].
  destruct (setSizeArray_loop_spec src (Z.to_nat numSizes) Hu 0 0)
    as [[Hall _]|[(j & Hj & Hbad) _]];
    [lia|by rewrite to_unsigned_small by (unfold INT_MAX; lia)|simpl; lia| |].
  - left. split; [done|]. split; [done|]. intros i Hi. apply Hall. lia.
  - right. intros (_ & _ & Hall). apply Hbad, Hall. lia.
Qed.

Lemma htCreate_cursor f src numSizes lf t :
  Forall is_unsigned src -> numSizes <= INT_MAX ->
  htCreate f src numSizes lf = Ok t ->
  create_ok src numSizes lf /\ wf_cursor t /\
  sizes t = take (Z.to_nat numSizes) src /\ index t = 0.
Proof.
  intros Hu Hn E.
  assert (create_ok src numSizes lf) as Hok.
  { destruct (create_ok_dec src numSizes lf Hu Hn) as [|Hbad]; [done|].
    by rewrite (htCreate_abort f src numSizes lf Hu Hn Hbad) in E. }
  split; [done|].
  rewrite htCreate_ok in E by done. injection E as <-.
  destruct (create_ok_schedule src numSizes lf Hu Hok) as (Hlen & Hs & _).
  destruct Hok as (Hpos & _). cbn [sizes index].
  split; [|done]. split; simpl; [lia|done|done|lia].
Qed.

Lemma htCreate_wf f src numSizes lf t :
  Forall is_unsigned src -> numSizes <= INT_MAX ->
  Forall (fun x => x <= INT_MAX) (take (Z.to_nat numSizes) src) ->
  htCreate f src numSizes lf = Ok t ->
  wf t /\ entries t = [] /\ functions t = f.
Proof.
  intros Hu Hn Hint E.
  destruct (htCreate_cursor f src numSizes lf t Hu Hn E) as (Hok & Hc & Hs & Hi).
  destruct (create_ok_schedule src numSizes lf Hu Hok) as (_ & _ & H0).
  rewrite htCreate_ok in E by done. injection E as <-.
  assert (entries (mkTable f (take (Z.to_nat numSizes) src) numSizes 0 0 0 lf
            (replicate (Z.to_nat (zlookup src 0 0)) [])) = []) as He
    by apply concat_replicate_nil.
  split; [|done]. split; rewrite ?He; try done.
  - cbn [ht]. rewrite length_replicate. unfold cur_size. cbn [sizes index].
    rewrite H0. destruct Hok as (Hpos & _ & Hall).
    destruct (Hall 0%nat ltac:(lia)) as [H1 _]. change (Z.of_nat 0) with 0 in H1.
    lia.
  - intros i c e Hi' He'. cbn [ht] in Hi'.
    apply lookup_replicate in Hi' as [-> _]. by apply elem_of_nil in He'.
Qed.

Lemma checkRehash_cursor t :
  wf_cursor t ->
  wf_cursor (checkRehash t) /\ sizes (checkRehash t) = sizes t /\
  (index (checkRehash t) = index t \/ index (checkRehash t) = index t + 1).
Proof.
  intros Hc. destruct (checkRehash_cases t) as [->|(-> & _ & Hi & _)]; [auto|].
  rewrite numSizes_pred in Hi by done.
  destruct Hc as [Hn Hm Hs Hx].
  destruct (rehash_frame t) as (_ & E2 & E3 & _ & _ & _ & E7).
  rewrite to_int_small in E7 by lia.
  split; [|split; [done|by right]].
  split; rewrite ?E2, ?E3, ?E7; try done. lia.
Qed.

Lemma htAdd_cursor t d fr t' :
  wf_cursor t -> htAdd t d = Ok (fr, t') ->
  wf_cursor t' /\ sizes t' = sizes t /\ numSizes t' = numSizes t /\
  (index t' = index t \/ index t' = index t + 1).
Proof.
  intros Hc E. destruct (htAdd_frame t d fr t' E) as (_ & E2 & E3 & _ & E5).
  destruct (checkRehash_cursor t Hc) as ([Hn Hm Hs Hx] & E6 & Hi).
  rewrite <- E5 in Hi, Hx. rewrite E6 in *.
  assert (numSizes (checkRehash t) = numSizes t) as E7.
  { destruct (checkRehash_cases t) as [->|(-> & _)]; [done|].
    by destruct (rehash_frame t) as (_ & _ & -> & _). }
  rewrite E7 in *.
  split; [|done]. split; by rewrite ?E2, ?E3.
Qed.

(** Sizes grow along the schedule. *)
Lemma schedule_step t :
  wf_cursor t -> index t + 1 < numSizes t ->
  zlookup (sizes t) (index t) 0 < zlookup (sizes t) (index t + 1) 0.
Proof.
  intros [Hn Hm Hs Hx] Hi.
  destruct (schedule_lookup (sizes t) (index t) Hs) as (a & Ha & -> & _); [lia|].
  destruct (schedule_lookup (sizes t) (index t + 1) Hs) as (b & Hb & -> & _); [lia|].
  destruct Hs as [_ Hinc]. apply (Hinc (Z.to_nat (index t))); [done|].
  by replace (S (Z.to_nat (index t))) with (Z.to_nat (index t + 1)) by lia.
Qed.

Lemma htAdd_capacity t d fr t' :
  wf_cursor t -> htAdd t d = Ok (fr, t') ->
  index t <= index t' <= index t + 1 /\ htCapacity t <= htCapacity t' /\
  htCapacity t' ∈ sizes t.
Proof.
  intros Hc E.
  destruct (htAdd_cursor t d fr t' Hc E) as (Hc' & Es & En & Hi).
  split; [lia|]. unfold htCapacity, cur_size. rewrite Es. split.
  - destruct Hc' as [_ _ _ Hx]. rewrite En in Hx.
    destruct Hi as [->| Hi]; [lia|]. rewrite Hi in *.
    pose proof (schedule_step t Hc ltac:(lia)). lia.
  - pose proof Hc' as [Hn _ Hs Hx]. rewrite Es in Hn, Hs.
    destruct (schedule_lookup (sizes t) (index t') Hs) as (a & Ha & -> & _);
      [lia|].
    eapply list_elem_of_lookup_2, Ha.
Qed.

Lemma htAddAll_capacity t ds frs t' :
  wf_cursor t -> htAddAll t ds = Ok (frs, t') ->
  wf_cursor t' /\ sizes t' = sizes t /\ numSizes t' = numSizes t /\
  index t <= index t' /\ htCapacity t <= htCapacity t'.
Proof.
  revert t frs. induction ds as [|d ds IH]; intros t frs Hc E.
  { injection E as <- <-. split; [done|]. split; [done|]. split; [done|].
    split; reflexivity. }
  cbn [htAddAll] in E.
  destruct (htAdd t d) as [[fr t1]|] eqn:E1; [|done].
  cbn [mbind result_bind] in E.
  destruct (htAddAll t1 ds) as [[frs' t2]|] eqn:E2; [|done].
  injection E as <- <-.
  destruct (htAdd_cursor t d fr t1 Hc E1) as (Hc1 & Es1 & En1 & _).
  destruct (htAdd_capacity t d fr t1 Hc E1) as (Hi1 & Hcap1 & _).
  destruct (IH t1 frs' Hc1 E2) as (Hc2 & Es2 & En2 & Hi2 & Hcap2).
  split; [done|]. split; [congruence|]. split; [congruence|]. lia.
Qed.

End Cursor.

(** ** The table as a frequency function *)

Section Frequencies.
Context {V : Type}.
Implicit Types (t : HashTable V) (f : HTFunctions V) (d : ptr V)
  (e : HTEntry V) (ds : list (ptr V)).

Lemma entry_cases t d :
  absent t d \/
  exists e, e ∈ entries t /\ compare (functions t) (data e) d = 0.
Proof.
  destruct (scan_cases (functions t) (entries t) d)
    as [H|(c1 & e & c2 & E & _ & He)]; [by left|right].
  exists e. split; [|done]. rewrite E. apply elem_of_app. right. left.
Qed.

Lemma lookup_frequency_found t d e :
  lawful (functions t) -> wf t -> is_null d = false ->
  e ∈ entries t -> compare (functions t) (data e) d = 0 ->
  lookup_frequency t d = frequency e.
Proof.
  intros Hf Hwf Hn He Hd. unfold lookup_frequency.
  by rewrite (htLookUp_found t d e).
Qed.

Lemma lookup_frequency_absent t d : absent t d -> lookup_frequency t d = 0.
Proof.
  intros Ha. unfold lookup_frequency. destruct d as [v|]; [|done].
  by rewrite htLookUp_absent.
Qed.

Lemma lookup_frequency_entry t e :
  lawful (functions t) -> wf t -> e ∈ entries t ->
  lookup_frequency t (data e) = frequency e.
Proof.
  intros Hf Hwf He. apply lookup_frequency_found; try done.
  - pose proof (wf_nonnull t Hwf) as Hn. by eapply Forall_forall in Hn.
  - apply (compare_refl _ Hf).
Qed.

(** The effect of one insertion on every frequency and on the counters. *)
Lemma htAdd_spec t d :
  lawful (functions t) -> wf t -> is_null d = false -> total t < INT_MAX ->
  exists t',
    htAdd t d = Ok (lookup_frequency t d + 1, t') /\ wf t' /\
    functions t' = functions t /\
    total t' = total t + 1 /\
    numItem t' = numItem t + (if decide (lookup_frequency t d = 0) then 1 else 0) /\
    (forall d', is_null d' = false ->
       lookup_frequency t' d' =
       lookup_frequency t d'
       + (if decide (compare (functions t) d' d = 0) then 1 else 0)) /\
    (forall e', e' ∈ entries t' ->
       data e' = d \/ exists e, e ∈ entries t /\ data e' = data e).
Proof.
  intros Hf Hwf Hn Ht.
  destruct (entry_cases t d) as [Ha|(e & He & Hd)].
  - destruct (htAdd_new t d Hf Hwf Hn Ha Ht) as (t' & E & Hwf' & Hp).
    destruct (htAdd_frame t d _ _ E) as (F1 & _).
    exists t'. rewrite (lookup_frequency_absent t d Ha).
    split; [done|]. split; [done|]. split; [done|].
    rewrite (wf_total t' Hwf'), (wf_numItem t' Hwf'), (sum_frequency_perm _ _ Hp), Hp.
    rewrite (wf_total t Hwf), (wf_numItem t Hwf).
    split; [simpl; lia|]. split; [simpl length; case_decide; [lia|done]|].
    split.
    + intros d' Hn'. case_decide as Hc.
      * rewrite (lookup_frequency_found t' d' (mkEntry d 1));
          [|by rewrite F1|done|done| |].
        -- rewrite lookup_frequency_absent; [done|].
           eapply Forall_impl; [exact Ha|]. cbn beta. intros e He H. apply He.
           by apply (compare_trans _ Hf _ d').
        -- rewrite Hp. left.
        -- rewrite F1. by apply (compare_sym _ Hf).
      * destruct (entry_cases t d') as [Ha'|(e & He & Hd')].
        -- rewrite (lookup_frequency_absent t d' Ha').
           rewrite lookup_frequency_absent; [lia|].
           unfold absent. rewrite F1, Hp. constructor; [|done].
           intros H. by apply Hc, (compare_sym _ Hf).
        -- rewrite (lookup_frequency_found t d' e) by done.
           rewrite (lookup_frequency_found t' d' e);
             [lia|by rewrite F1|done|done| |by rewrite F1].
           rewrite Hp. by right.
    + intros e' He'. rewrite Hp in He'.
      apply elem_of_cons in He' as [->|He']; [by left|right; eauto].
  - destruct (htAdd_dup t d e Hf Hwf Hn He Hd Ht) as (t' & rest & E & Hwf' & Hp & Hp').
    destruct (htAdd_frame t d _ _ E) as (F1 & _).
    pose proof (wf_frequency t Hwf) as Hfr.
    assert (1 <= frequency e) as He1 by (by eapply Forall_forall in Hfr).
    exists t'. rewrite (lookup_frequency_found t d e) by done.
    split; [done|]. split; [done|]. split; [done|].
    rewrite (wf_total t' Hwf'), (wf_numItem t' Hwf'), (sum_frequency_perm _ _ Hp'), Hp'.
    rewrite (wf_total t Hwf), (wf_numItem t Hwf), (sum_frequency_perm _ _ Hp), Hp.
    split; [simpl; lia|]. split; [simpl length; case_decide; [lia|lia]|].
    split.
    + intros d' Hn'. case_decide as Hc.
      * assert (compare (functions t) (data e) d' = 0) as Hd'.
        { apply (compare_trans _ Hf _ d); [done|]. by apply (compare_sym _ Hf). }
        rewrite (lookup_frequency_found t d' e) by done.
        rewrite (lookup_frequency_found t' d' (mkEntry (data e) (frequency e + 1)));
          [done|by rewrite F1|done|done| |by rewrite F1].
        rewrite Hp'. left.
      * destruct (entry_cases t d') as [Ha'|(e1 & He1' & Hd')].
        -- rewrite (lookup_frequency_absent t d' Ha').
           rewrite lookup_frequency_absent; [lia|].
           unfold absent in *. rewrite F1, Hp'. rewrite Hp in Ha'.
           apply Forall_cons in Ha' as [? ?]. by constructor.
        -- rewrite (lookup_frequency_found t d' e1) by done.
           rewrite (lookup_frequency_found t' d' e1);
             [lia|by rewrite F1|done|done| |by rewrite F1].
           rewrite Hp'. rewrite Hp in He1'.
           apply elem_of_cons in He1' as [->|?]; [|by right].
           exfalso. apply Hc. apply (compare_trans _ Hf _ (data e));
             [by apply (compare_sym _ Hf)|done].
    + intros e' He'. rewrite Hp' in He'. right.
      apply elem_of_cons in He' as [->|He'].
      * exists e. by split.
      * exists e'. split; [|done]. rewrite Hp. by right.
Qed.

Lemma occurrences_cons f d x ds :
  occurrences f (x :: ds) d
  = (if decide (compare f d x = 0) then 1 else 0) + occurrences f ds d.
Proof.
  unfold occurrences. rewrite filter_cons. case_decide; simpl length; lia.
Qed.

Lemma occurrences_nonneg f ds d : 0 <= occurrences f ds d.
Proof. unfold occurrences. lia. Qed.

Lemma occurrences_elem f ds d :
  lawful f -> d ∈ ds -> 1 <= occurrences f ds d.
Proof.
  intros Hf. induction ds as [|x ds IH]; intros Hd.
  { by apply elem_of_nil in Hd. }
  rewrite occurrences_cons. pose proof (occurrences_nonneg f ds d).
  apply elem_of_cons in Hd as [->|Hd].
  - rewrite decide_True by apply (compare_refl _ Hf). lia.
  - specialize (IH Hd). case_decide; lia.
Qed.

(** The effect of a sequence of insertions. *)
Lemma htAddAll_spec t ds :
  lawful (functions t) -> wf t -> Forall (fun d => is_null d = false) ds ->
  total t + Z.of_nat (length ds) <= INT_MAX ->
  exists frs t',
    htAddAll t ds = Ok (frs, t') /\ wf t' /\ functions t' = functions t /\
    total t' = total t + Z.of_nat (length ds) /\
    (forall d, is_null d = false ->
       lookup_frequency t' d
       = lookup_frequency t d + occurrences (functions t) ds d) /\
    (forall e', e' ∈ entries t' ->
       data e' ∈ ds \/ exists e, e ∈ entries t /\ data e' = data e).
Proof.
  revert t. induction ds as [|x ds IH]; intros t Hf Hwf Hn Ht.
  { exists [], t. split; [done|]. split; [done|]. split; [done|].
    split; [simpl; lia|]. split.
    - intros d _. unfold occurrences. simpl. lia.
    - intros e' He'. right. eauto. }
  apply Forall_cons in Hn as [Hx Hn]. simpl length in Ht.
  destruct (htAdd_spec t x Hf Hwf Hx) as (t1 & E1 & Hwf1 & F1 & T1 & _ & L1 & D1);
    [lia|].
  destruct (IH t1) as (frs & t' & E & Hwf' & F & T & L & D);
    [by rewrite F1|done|done|lia|].
  exists (lookup_frequency t x + 1 :: frs), t'.
  cbn [htAddAll]. rewrite E1. cbn [mbind result_bind]. rewrite E.
  split; [done|]. split; [done|]. split; [congruence|].
  split; [simpl length; lia|]. split.
  - intros d Hd. rewrite (L d Hd), (L1 d Hd), F1, occurrences_cons. lia.
  - intros e' He'. destruct (D e' He') as [H|(e1 & He1 & ->)].
    + left. by right.
    + destruct (D1 e1 He1) as [->|H]; [left; left|by right].
Qed.

End Frequencies.

(** ** The client of the unit tests is lawful *)

Section Client.
Import StringClient.

Lemma hashString_loop_unsigned str h :
  is_unsigned h -> is_unsigned (hashString_loop str h).
Proof.
  revert h. induction str as [|c str IH]; intros h Hh; simpl; [done|].
  apply IH, to_unsigned_range.
Qed.

Lemma string_compare_refl (a : string) : String.compare a a = Eq.
Proof.
  pose proof (String.compare_antisym a a) as H.
  destruct (String.compare a a); simpl in H; congruence.
Qed.

Lemma compareString_eq a b : compareString a b = 0 <-> a = b.
Proof.
  destruct a as [a|], b as [b|]; simpl; try done.
  destruct (String.compare a b) eqn:E.
  - apply String.compare_eq_iff in E. by subst.
  - split; [done|]. intros [= ->]. rewrite string_compare_refl in E. done.
  - split; [done|]. intros [= ->]. rewrite string_compare_refl in E. done.
Qed.

Lemma stringFunctions_lawful : lawful stringFunctions.
Proof.
  split; simpl.
  - intros [str|]; simpl; [|by unfold is_unsigned, UINT_MAX].
    apply hashString_loop_unsigned. by unfold is_unsigned, UINT_MAX.
  - intros d. by apply compareString_eq.
  - intros d1 d2 H. apply compareString_eq in H. by apply compareString_eq.
  - intros d1 d2 d3 H1 H2. apply compareString_eq in H1, H2.
    apply compareString_eq. congruence.
  - intros d1 d2 H. apply compareString_eq in H. by subst.
Qed.

End Client.

(** ** Facts about the sample tables *)

Section Samples.
Import StringClient Demo.

Lemma after_run (t : HashTable string) ds frs t' :
  htAddAll t ds = Ok (frs, t') -> after t ds = t'.
Proof. unfold after. by intros ->. Qed.

Lemma schedule_unsigned : Forall is_unsigned schedule.
Proof. repeat constructor; unfold UINT_MAX; lia. Qed.

Lemma schedule_create_ok : create_ok schedule 3 Float32.f0_49.
Proof.
  split; [lia|]. split; [done|].
  intros [|[|[|i]]] Hi; try (exfalso; simpl in Hi; lia);
    split; vm_compute; done.
Qed.

Lemma created_run : htCreate stringFunctions schedule 3 Float32.f0_49 = Ok created.
Proof. reflexivity. Qed.

Lemma created_wf : wf created.
Proof.
  apply (htCreate_wf stringFunctions schedule 3 Float32.f0_49).
  - apply schedule_unsigned.
  - unfold INT_MAX. lia.
  - repeat constructor; unfold INT_MAX; lia.
  - apply created_run.
Qed.

Lemma words_nonnull : Forall (fun d : ptr string => is_null d = false) words.
Proof. by repeat constructor. Qed.

Lemma five_spec :
  wf five /\ functions five = stringFunctions /\
  exists frs, htAddAll created words = Ok (frs, five).
Proof.
  destruct (htAddAll_spec created words stringFunctions_lawful created_wf words_nonnull)
    as (frs & t' & E & Hwf & Hf & _); [by vm_compute|].
  unfold five. rewrite (after_run _ _ _ _ E). eauto.
Qed.

Lemma six_spec :
  wf six /\ functions six = stringFunctions /\
  exists frs, htAddAll five [Some "f"%string] = Ok (frs, six).
Proof.
  destruct five_spec as (Hwf5 & Hf5 & _).
  destruct (htAddAll_spec five [Some "f"%string]) as (frs & t' & E & Hwf & Hf & _).
  - rewrite Hf5. apply stringFunctions_lawful.
  - done.
  - by repeat constructor.
  - by vm_compute.
  - unfold six. rewrite (after_run _ _ _ _ E). split; [done|].
    split; [congruence|eauto].
Qed.

Lemma crowded_cursor : wf_cursor crowded.
Proof.
  split; simpl; [done|by vm_compute| |lia].
  split; [repeat constructor; unfold UINT_MAX; lia|].
  intros [|[|[|i]]] a b Ha Hb; simplify_eq/=; lia.
Qed.

End Samples.

(** * Verified properties *)

(** ** Construction *)

(** ** Construction in the store *)

Lemma ok_inj {A} (a b : A) : Ok a = Ok b -> a = b.
Proof. intros E. by injection E. Qed.

Section HeapConstruction.
Context {V : Type}.
Implicit Types (h : Heap.store V) (f : HTFunctions V) (src dst : list Z).

Lemma malloc_old h (b : Heap.block V) (a : nat) :
  (a < length h)%nat -> (Heap.malloc h b).2 !! a = h !! a.
Proof. intros Ha. cbn [Heap.malloc snd]. by apply lookup_app_l. Qed.

Lemma malloc_new h (b : Heap.block V) :
  (Heap.malloc h b).2 !! (Heap.malloc h b).1 = Some b.
Proof. cbn [Heap.malloc fst snd]. apply list_lookup_middle. done. Qed.

(** Through distinct addresses [setFunctions] copies the three fields
    and touches nothing else. *)
Lemma setFunctions_copy h (own pf : nat) o1 o2 o3 a b c :
  own <> pf ->
  h !! own = Some (Heap.FunctionsBlock o1 o2 o3) ->
  h !! pf = Some (Heap.FunctionsBlock a b c) ->
  Heap.setFunctions h own pf = <[own := Heap.FunctionsBlock a b c]> h.
Proof.
  intros Hne Hown Hpf. pose proof (lookup_lt_Some _ _ _ Hown) as Hlt.
  unfold Heap.setFunctions. cbv zeta.
  assert (Heap.store_hash h own (Heap.load_hash h pf)
          = <[own := Heap.FunctionsBlock a o2 o3]> h) as ->.
  { unfold Heap.store_hash, Heap.load_hash. by rewrite Hpf, Hown. }
  assert (forall y, Heap.store_compare
                      (<[own := Heap.FunctionsBlock a o2 o3]> h) own y
                    = <[own := Heap.FunctionsBlock a y o3]> h) as E2.
  { intros y. unfold Heap.store_compare.
    rewrite list_lookup_insert_eq by done. by rewrite list_insert_insert_eq. }
  rewrite E2.
  assert (Heap.load_compare (<[own := Heap.FunctionsBlock a o2 o3]> h) pf = b)
    as ->.
  { unfold Heap.load_compare. rewrite list_lookup_insert_ne by done.
    by rewrite Hpf. }
  unfold Heap.store_destroy, Heap.load_destroy.
  rewrite list_lookup_insert_eq by done.
  rewrite list_lookup_insert_ne by done.
  by rewrite Hpf, list_insert_insert_eq.
Qed.

(** The loop of [setSizeArray] in the store writes to the table's own
    array what the loop on the arrays computes, when the table's array is
    not the caller's. *)
Lemma setSizeArray_loop_refines (n : nat) :
  forall i prev h (own ps : nat) src dst,
    own <> ps ->
    h !! ps = Some (Heap.UnsignedBlock src) ->
    h !! own = Some (Heap.UnsignedBlock dst) ->
    Heap.setSizeArray_loop n i prev h own ps
    = match setSizeArray_loop n i prev src dst with
      | Ok dst' => Ok (<[own := Heap.UnsignedBlock dst']> h)
      | Abort => Abort
      end.
Proof.
  induction n as [|n IH]; intros i prev h own ps src dst Hne Hps Hown.
  - cbn [Heap.setSizeArray_loop setSizeArray_loop].
    by rewrite list_insert_id.
  - pose proof (lookup_lt_Some _ _ _ Hown) as Hlt.
    cbn [Heap.setSizeArray_loop setSizeArray_loop].
    unfold Heap.load_unsigned. rewrite Hps.
    destruct (1 <? zlookup src i 0); [|reflexivity].
    cbn [assert mbind result_bind].
    destruct (to_unsigned prev <? zlookup src i 0); [|reflexivity].
    cbn [assert mbind result_bind].
    unfold Heap.store_unsigned. rewrite Hown.
    rewrite (IH _ _ _ own ps src (zupdate dst i (zlookup src i 0)) Hne).
    + destruct (setSizeArray_loop n _ _ src _); [|reflexivity].
      by rewrite list_insert_insert_eq.
    + by rewrite list_lookup_insert_ne.
    + by rewrite list_lookup_insert_eq.
Qed.

(** [htCreate] in the store aborts when [htCreate] on the values does;
    otherwise it leaves every object that existed as it was, allocates
    the table's structure of functions and array of sizes at the next two
    addresses, and through them the operations see the table that
    [htCreate] on the values returns. *)
Lemma htCreate_refines h (pf ps : nat) f src n x :
  Heap.holds_functions h pf f -> Heap.holds_sizes h ps src ->
  match htCreate f src n x with
  | Abort => Heap.htCreate h pf ps n x = Abort
  | Ok t =>
      exists h',
        Heap.htCreate h pf ps n x
        = Ok (h', Heap.mkHeapTable (length h) (S (length h)) (numSizes t)
                    (index t) (numItem t) (total t) (lf t) (ht t)) /\
        h' !! length h
        = Some (Heap.FunctionsBlock (Some (hash (functions t)))
                  (Some (compare (functions t)))
                  (Some (destroy (functions t)))) /\
        h' !! S (length h) = Some (Heap.UnsignedBlock (sizes t)) /\
        forall a : nat, (a < length h)%nat -> h' !! a = h !! a
  end.
Proof.
  unfold Heap.holds_functions, Heap.holds_sizes. intros Hpf Hps.
  pose proof (lookup_lt_Some _ _ _ Hpf) as Hpf_lt.
  pose proof (lookup_lt_Some _ _ _ Hps) as Hps_lt.
  unfold htCreate, Heap.htCreate.
  destruct (0 <? n); [|reflexivity]. cbn [assert mbind result_bind].
  destruct (Float32.ltb (Float32.of_Z 0) x && Float32.leb x (Float32.of_Z 1));
    [|reflexivity].
  cbn [assert mbind result_bind Heap.malloc].
  set (h1 := h ++ [Heap.FunctionsBlock None None None]).
  assert (h1 !! length h = Some (Heap.FunctionsBlock None None None)) as Hown1
    by by apply list_lookup_middle.
  assert (h1 !! pf = h !! pf) as Hpf1 by by apply lookup_app_l.
  rewrite (setFunctions_copy h1 (length h) pf _ _ _ _ _ _ ltac:(lia) Hown1
             ltac:(by rewrite Hpf1)).
  set (h2 := <[length h := _]> h1).
  assert (length h2 = S (length h)) as Hlen2.
  { unfold h2, h1. rewrite length_insert, length_app. simpl. lia. }
  rewrite Hlen2.
  set (h3 := h2 ++ [Heap.UnsignedBlock (calloc n 0)]).
  assert (h3 !! S (length h) = Some (Heap.UnsignedBlock (calloc n 0))) as Hown3.
  { unfold h3. rewrite <- Hlen2. by apply list_lookup_middle. }
  assert (forall a : nat, (a < length h)%nat -> h3 !! a = h !! a) as Hold3.
  { intros a Ha. unfold h3, h2, h1.
    rewrite lookup_app_l by (rewrite length_insert, length_app; simpl; lia).
    rewrite list_lookup_insert_ne by lia. by apply lookup_app_l. }
  assert (h3 !! length h
          = Some (Heap.FunctionsBlock (Some (hash f)) (Some (compare f))
                                      (Some (destroy f)))) as Hfun3.
  { unfold h3. rewrite lookup_app_l by lia. unfold h2.
    apply list_lookup_insert_eq. unfold h1. rewrite length_app. simpl. lia. }
  unfold Heap.setSizeArray, setSizeArray.
  rewrite (setSizeArray_loop_refines _ _ _ h3 (S (length h)) ps src
             (calloc n 0) ltac:(lia) ltac:(by rewrite Hold3) Hown3).
  destruct (setSizeArray_loop (Z.to_nat n) 0 0 src (calloc n 0)) as [own|];
    [|reflexivity].
  cbn [mbind result_bind]. eexists. split; [|split; [|split]].
  - cbn [numSizes index numItem total lf ht]. unfold Heap.load_unsigned.
    rewrite list_lookup_insert_ne by lia. by rewrite Hold3, Hps.
  - rewrite list_lookup_insert_ne by lia. exact Hfun3.
  - cbn [sizes]. apply list_lookup_insert_eq.
    by eapply lookup_lt_Some.
  - intros a Ha. rewrite list_lookup_insert_ne by lia. by apply Hold3.
Qed.

(** What the operations see depends on the table's own two objects
    only. *)
Lemma view_own h h' (r : Heap.Table V) :
  h' !! Heap.functions_at r = h !! Heap.functions_at r ->
  h' !! Heap.sizes_at r = h !! Heap.sizes_at r ->
  Heap.view h' r = Heap.view h r.
Proof.
  intros E1 E2. unfold Heap.view, Heap.load_functions, Heap.load_array.
  by rewrite E1, E2.
Qed.

End HeapConstruction.

(** C9 (construction contract).  For a schedule of [unsigned] sizes and
    an [int] count, [htCreate] aborts when the count is not positive, when
    a size is not greater than one or not greater than its predecessor, or
    when the load factor is outside (0, 1]; otherwise it returns a table
    whose bucket array has [sizes[0]] empty slots, whose two counters and
    whose cursor are zero, and which holds copies of the first [numSizes]
    sizes and of the three callbacks.  The copies are deep: with the
    caller's structure of functions and array of sizes as objects in a
    store, [htCreate] aborts in the same cases and otherwise allocates two
    new objects for the table, distinct from each other and from every
    object that existed, the caller's two among them; it leaves all
    existing objects as they were; and the table that the operations see
    through its two pointers is the one described above, and stays so
    whatever is done afterwards to the objects that existed before the
    call. *)
Theorem construction_contract {V} (f : HTFunctions V) (src : list Z)
    (n : Z) (x : Float32.float) :
  Forall is_unsigned src -> is_int n ->
  (n <= 0 -> htCreate f src n x = Abort) /\
  ((exists i, (i < Z.to_nat n)%nat /\ ~ size_ok_at src i) ->
   htCreate f src n x = Abort) /\
  (~ (Float32.ltb (Float32.of_Z 0) x = true /\
      Float32.leb x (Float32.of_Z 1) = true) ->
   htCreate f src n x = Abort) /\
  (create_ok src n x ->
   exists t,
     htCreate f src n x = Ok t /\
     ht t = replicate (Z.to_nat (zlookup src 0 0)) [] /\
     numItem t = 0 /\ total t = 0 /\ index t = 0 /\
     htUniqueEntries t = 0 /\ htTotalEntries t = 0 /\
     htCapacity t = zlookup src 0 0 /\
     sizes t = take (Z.to_nat n) src /\ numSizes t = n /\
     hash (functions t) = hash f /\ compare (functions t) = compare f /\
     destroy (functions t) = destroy f /\ lf t = x) /\
  (forall (h : Heap.store V) (pf ps : nat),
     Heap.holds_functions h pf f -> Heap.holds_sizes h ps src ->
     (~ create_ok src n x -> Heap.htCreate h pf ps n x = Abort) /\
     (create_ok src n x ->
      exists h' r t,
        Heap.htCreate h pf ps n x = Ok (h', r) /\
        htCreate f src n x = Ok t /\
        Heap.view h' r = Some t /\
        (length h <= Heap.functions_at r)%nat /\
        (length h <= Heap.sizes_at r)%nat /\
        Heap.functions_at r <> Heap.sizes_at r /\
        Heap.functions_at r <> pf /\ Heap.sizes_at r <> ps /\
        (forall a : nat, (a < length h)%nat -> h' !! a = h !! a) /\
        (forall h'' : Heap.store V,
           (forall a : nat, (length h <= a)%nat -> h'' !! a = h' !! a) ->
           Heap.view h'' r = Some t))).
Proof.
  intros Hu [_ Hn]. split; [|split; [|split; [|split]]].
  - intros Hle. apply htCreate_abort; [done|done|]. intros [? _]. lia.
  - intros (i & Hi & Hbad). apply htCreate_abort; [done|done|].
    intros (_ & _ & Hall). by apply Hbad, Hall.
  - intros Hbad. apply htCreate_abort; [done|done|].
    intros (_ & ? & _). by apply Hbad.
  - intros Hok. eexists. split; [by apply htCreate_ok|].
    destruct (create_ok_schedule src n x Hu Hok) as (_ & _ & H0).
    by repeat split.
  - intros h pf ps Hpf Hps.
    pose proof (htCreate_refines h pf ps f src n x Hpf Hps) as Href.
    pose proof (lookup_lt_Some _ _ _ Hpf) as Hpf_lt.
    pose proof (lookup_lt_Some _ _ _ Hps) as Hps_lt.
    split.
    + intros Hbad. by rewrite (htCreate_abort f src n x Hu Hn Hbad) in Href.
    + intros Hok. rewrite (htCreate_ok f src n x Hu Hn Hok) in Href.
      destruct Href as (h' & E & Hfun & Hsiz & Hold).
      cbn [numSizes index numItem total lf ht functions sizes hash compare
           destroy] in E, Hfun, Hsiz.
      eexists h', _, _. split; [exact E|].
      split; [by apply htCreate_ok|].
      cbn [Heap.functions_at Heap.sizes_at].
      assert (forall h'' : Heap.store V,
                h'' !! length h = h' !! length h ->
                h'' !! S (length h) = h' !! S (length h) ->
                Heap.view h'' (Heap.mkHeapTable (length h) (S (length h)) n 0 0 0 x
                                 (replicate (Z.to_nat (zlookup src 0 0)) []))
                = Some (mkTable f (take (Z.to_nat n) src) n 0 0 0 x
                          (replicate (Z.to_nat (zlookup src 0 0)) []))) as Hview.
      { intros h'' E1 E2. unfold Heap.view, Heap.load_functions, Heap.load_array.
        cbn [Heap.functions_at Heap.sizes_at]. rewrite E1, E2, Hfun, Hsiz.
        by destruct f. }
      split; [by apply Hview|]. split; [lia|]. split; [lia|]. split; [lia|].
      split; [lia|]. split; [lia|]. split; [exact Hold|].
      intros h'' Hsame. apply Hview; apply Hsame; lia.
Qed.

Lemma construction_contract_witness :
  (exists t,
     htCreate StringClient.stringFunctions [10; 30; 999] 3 Float32.f0_49 = Ok t /\
     ht t = replicate 10 [] /\ sizes t = [10; 30; 999] /\
     htUniqueEntries t = 0 /\ htTotalEntries t = 0 /\ index t = 0) /\
  htCreate StringClient.stringFunctions [10; 30; 999] 0 Float32.f0_49 = Abort /\
  htCreate StringClient.stringFunctions [10; 30; 30] 3 Float32.f0_49 = Abort /\
  htCreate StringClient.stringFunctions [10; 30; 999] 3 (Float32.of_Z 0) = Abort /\
  (exists h' r,
     Heap.htCreate testRehash_caller 0 1 3 Float32.f0_49 = Ok (h', r) /\
     Heap.functions_at r <> 0%nat /\ Heap.sizes_at r <> 1%nat /\
     Heap.view h' r = Some Demo.created /\
     Heap.view (<[0%nat := Heap.UnsignedBlock []]>
                  (<[1%nat := Heap.UnsignedBlock [2; 3]]> h')) r
     = Some Demo.created).
Proof.
  split; [|split; [|split; [|split]]].
  - destruct (construction_contract StringClient.stringFunctions [10; 30; 999] 3
                Float32.f0_49 schedule_unsigned) as (_ & _ & _ & H & _).
    { unfold is_int, INT_MIN, INT_MAX. lia. }
    destruct (H schedule_create_ok)
      as (t & E & E1 & _ & _ & E2 & E3 & E4 & _ & E5 & _).
    exists t. by repeat split.
  - refine (proj1 (construction_contract StringClient.stringFunctions
             [10; 30; 999] 0 Float32.f0_49 schedule_unsigned _) _).
    + unfold is_int, INT_MIN, INT_MAX. lia.
    + lia.
  - refine (proj1 (proj2 (construction_contract StringClient.stringFunctions
             [10; 30; 30] 3 Float32.f0_49 _ _)) _).
    + repeat constructor; unfold UINT_MAX; lia.
    + unfold is_int, INT_MIN, INT_MAX. lia.
    + exists 2%nat. split; [simpl; lia|]. intros [_ H]. vm_compute in H. done.
  - refine (proj1 (proj2 (proj2 (construction_contract StringClient.stringFunctions
             [10; 30; 999] 3 (Float32.of_Z 0) schedule_unsigned _))) _).
    + unfold is_int, INT_MIN, INT_MAX. lia.
    + intros [H _]. vm_compute in H. done.
  - destruct (construction_contract StringClient.stringFunctions [10; 30; 999] 3
                Float32.f0_49 schedule_unsigned) as (_ & _ & _ & _ & H).
    { unfold is_int, INT_MIN, INT_MAX. lia. }
    destruct (H testRehash_caller 0%nat 1%nat eq_refl eq_refl) as [_ Hok].
    destruct (Hok schedule_create_ok)
      as (h' & r & t & E & Et & Hv & H1 & H2 & _ & H4 & H5 & _ & Hind).
    change [10; 30; 999] with Demo.schedule in Et.
    rewrite created_run in Et. apply ok_inj in Et. subst t.
    exists h', r. split; [exact E|]. split; [exact H4|]. split; [exact H5|].
    split; [exact Hv|]. apply Hind. intros a Ha.
    cbn [testRehash_caller length] in Ha.
    rewrite !list_lookup_insert_ne by lia. reflexivity.
Defined.

(** ** The capacity schedule *)

(** C4 (capacity monotonicity).  After construction, along every
    sequence of insertions the capacity never decreases and is always one
    of the sizes given to [htCreate]; the cursor never decreases and stays
    within [0 .. numSizes - 1]. *)
Theorem capacity_monotonicity {V} (f : HTFunctions V) (src : list Z) (n : Z)
    (x : Float32.float) (t0 t1 t2 : HashTable V) (ds1 ds2 : list (ptr V))
    (frs1 frs2 : list Z) :
  Forall is_unsigned src -> is_int n ->
  htCreate f src n x = Ok t0 ->
  htAddAll t0 ds1 = Ok (frs1, t1) ->
  htAddAll t1 ds2 = Ok (frs2, t2) ->
  htCapacity t0 <= htCapacity t1 <= htCapacity t2 /\
  htCapacity t2 ∈ take (Z.to_nat n) src /\
  0 <= index t1 <= index t2 /\ index t2 <= n - 1.
Proof.
  intros Hu [_ Hn] E0 E1 E2.
  destruct (htCreate_cursor f src n x t0 Hu Hn E0) as (Hok & Hc0 & Hs0 & Hi0).
  assert (numSizes t0 = n) as Hn0.
  { rewrite htCreate_ok in E0 by done. by injection E0 as <-. }
  destruct (htAddAll_capacity t0 ds1 frs1 t1 Hc0 E1) as (Hc1 & Hs1 & Hn1 & Hi1 & Hcap1).
  destruct (htAddAll_capacity t1 ds2 frs2 t2 Hc1 E2) as (Hc2 & Hs2 & Hn2 & Hi2 & Hcap2).
  split; [lia|]. split; [|split]; [| |].
  - rewrite <- Hs0, <- Hs1, <- Hs2.
    destruct Hc2 as [Hlen _ Hs Hx].
    destruct (schedule_lookup (sizes t2) (index t2) Hs) as (a & Ha & Ea & _); [lia|].
    unfold htCapacity, cur_size. rewrite Ea.
    eapply list_elem_of_lookup_2, Ha.
  - lia.
  - destruct Hc2 as [_ _ _ Hx]. lia.
Qed.

Lemma capacity_monotonicity_witness :
  htCapacity Demo.created <= htCapacity Demo.five <= htCapacity Demo.six /\
  htCapacity Demo.six ∈ take 3 [10; 30; 999] /\
  0 <= index Demo.five <= index Demo.six /\ index Demo.six <= 3 - 1.
Proof.
  destruct five_spec as (_ & _ & frs1 & E1).
  destruct six_spec as (_ & _ & frs2 & E2).
  apply (capacity_monotonicity StringClient.stringFunctions [10; 30; 999] 3
           Float32.f0_49 Demo.created Demo.five Demo.six Demo.words
           [Some "f"%string] frs1 frs2).
  - apply schedule_unsigned.
  - unfold is_int, INT_MIN, INT_MAX. lia.
  - reflexivity.
  - exact E1.
  - exact E2.
Defined.

(** C8 (single-step growth).  A rehash moves the cursor to the next size
    of the schedule, and one call of [htAdd] moves it by at most one size,
    also when the load ratio under the next capacity still exceeds the
    load factor. *)
Theorem single_step_growth {V} (t : HashTable V) :
  wf_cursor t ->
  index (rehash t) = index t + 1 /\
  forall d fr t',
    htAdd t d = Ok (fr, t') ->
    (index t' = index t \/ index t' = index t + 1) /\
    (growth_due t -> growth_due (rehash t) -> index t' = index t + 1).
Proof.
  intros Hc. pose proof Hc as [Hn Hm Hs Hx]. split.
  - destruct (rehash_frame t) as (_ & _ & _ & _ & _ & _ & ->).
    apply to_int_small. lia.
  - intros d fr t' E.
    destruct (htAdd_cursor t d fr t' Hc E) as (_ & _ & _ & Hi).
    split; [done|]. intros (H1 & H2 & H3) _.
    destruct (htAdd_frame t d fr t' E) as (_ & _ & _ & _ & ->).
    unfold checkRehash. rewrite H1, numSizes_pred by done.
    assert ((index t <? numSizes t - 1) = true) as -> by (apply Z.ltb_lt; lia).
    unfold htCapacity in H3. rewrite H3. cbn [negb andb].
    destruct (rehash_frame t) as (_ & _ & _ & _ & _ & _ & ->).
    apply to_int_small. lia.
Qed.

Lemma single_step_growth_witness :
  index (rehash Demo.crowded) = 1 /\
  growth_due Demo.crowded /\ growth_due (rehash Demo.crowded) /\
  exists fr t',
    htAdd Demo.crowded (Some "b"%string) = Ok (fr, t') /\ index t' = 1.
Proof.
  destruct (single_step_growth Demo.crowded crowded_cursor) as [H1 H2].
  assert (growth_due Demo.crowded) as G1 by (by vm_compute).
  assert (growth_due (rehash Demo.crowded)) as G2 by (by vm_compute).
  split; [exact H1|]. split; [exact G1|]. split; [exact G2|].
  pose proof (htAdd_unfold Demo.crowded (Some "b"%string) eq_refl) as E.
  eexists _, _. split; [exact E|].
  destruct (H2 _ _ _ E) as [_ H3]. exact (H3 G1 G2).
Defined.

(** ** Growth *)

(** C10 (growth frame).  A rehash changes the cursor and the bucket
    array only: the callbacks, the schedule, the load factor and the two
    counters are the same before and after, so [htUniqueEntries] and
    [htTotalEntries] read the same values; and on a well-formed table with
    a next size the entries, each with its data and its frequency, are the
    same up to their order. *)
Theorem growth_frame {V} (t : HashTable V) :
  (functions (rehash t) = functions t /\ sizes (rehash t) = sizes t /\
   numSizes (rehash t) = numSizes t /\ lf (rehash t) = lf t /\
   numItem (rehash t) = numItem t /\ total (rehash t) = total t /\
   htUniqueEntries (rehash t) = htUniqueEntries t /\
   htTotalEntries (rehash t) = htTotalEntries t) /\
  (wf t -> index t < numSizes t - 1 -> entries (rehash t) ≡ₚ entries t).
Proof.
  split; [by repeat split|]. intros Hwf Hi. by apply rehash_entries.
Qed.

Lemma growth_frame_witness :
  htUniqueEntries (rehash Demo.five) = 5 /\
  htTotalEntries (rehash Demo.five) = 5 /\
  entries (rehash Demo.five) ≡ₚ entries Demo.five.
Proof.
  destruct (growth_frame Demo.five) as ((_ & _ & _ & _ & _ & _ & H1 & H2) & H3).
  split; [rewrite H1; by vm_compute|]. split; [rewrite H2; by vm_compute|].
  apply H3; [apply five_spec|by vm_compute].
Defined.

(** C3 (no loss across growth).  On a well-formed table with a next size
    and lawful callbacks, the rehash keeps exactly the entries it found
    (none lost, none duplicated), the capacity becomes the next size of
    the schedule, every entry hangs from the bucket of its hash under that
    capacity, and a lookup of the data of any entry returns that entry,
    hence the same frequency, before and after. *)
Theorem no_loss_across_growth {V} (t : HashTable V) :
  lawful (functions t) -> wf t -> index t < numSizes t - 1 ->
  entries (rehash t) ≡ₚ entries t /\
  htCapacity (rehash t) = zlookup (sizes t) (index t + 1) 0 /\
  (forall e, e ∈ entries t ->
     exists (i : nat) c,
       Z.of_nat i = hash (functions t) (data e) mod htCapacity (rehash t) /\
       ht (rehash t) !! i = Some c /\ e ∈ c) /\
  (forall e, e ∈ entries t ->
     htLookUp t (data e) = Ok (e, t) /\
     htLookUp (rehash t) (data e) = Ok (e, rehash t)).
Proof.
  intros Hf Hwf Hi.
  pose proof (rehash_entries t Hwf Hi) as Hp.
  pose proof (rehash_wf t Hwf Hi Hf) as Hwf'.
  pose proof (rehash_index t Hwf Hi) as Hx.
  split; [done|]. split; [|split].
  - unfold htCapacity, cur_size. by rewrite Hx.
  - intros e He. rewrite <- Hp in He.
    apply elem_of_concat_lookup in He as (i & c & Hc & He).
    exists i, c. split; [|done].
    rewrite <- (wf_bucket _ Hwf' i c e Hc He).
    rewrite bucket_of_mod; [done|].
    apply cur_size_range; [apply Hwf'|apply (wf_sizes_int _ Hwf')].
  - intros e He.
    assert (is_null (data e) = false) as Hn.
    { pose proof (wf_nonnull t Hwf) as H. by eapply Forall_forall in H. }
    split.
    + apply htLookUp_found; try done. apply (compare_refl _ Hf).
    + apply htLookUp_found; try done.
      * by rewrite Hp.
      * apply (compare_refl _ Hf).
Qed.

Lemma no_loss_across_growth_witness :
  entries (rehash Demo.five) ≡ₚ entries Demo.five /\
  htCapacity (rehash Demo.five) = 30 /\
  htLookUp (rehash Demo.five) (Some "c"%string)
  = Ok (mkEntry (Some "c"%string) 1, rehash Demo.five).
Proof.
  destruct five_spec as (Hwf & Hf & _).
  destruct (no_loss_across_growth Demo.five) as (H1 & H2 & _ & H4).
  - rewrite Hf. apply stringFunctions_lawful.
  - exact Hwf.
  - by vm_compute.
  - split; [exact H1|]. split; [rewrite H2; by vm_compute|].
    apply (H4 (mkEntry (Some "c"%string) 1)).
    apply elem_of_concat_lookup.
    exists 9%nat, [mkEntry (Some "c"%string) 1]. split; [by vm_compute|left].
Defined.

(** ** Lookup *)

(** C6 (lookup behaviour).  For non-null data [htLookUp] never aborts
    and leaves the table as it found it.  It scans the chain of the bucket
    [hash (data) mod capacity]: the result is the first entry of that chain
    whose data compares equal to the argument, with its data pointer and
    its current frequency, or, when no entry of the chain compares equal,
    the entry with null data and frequency 0. *)
Theorem lookup_behaviour {V} (t : HashTable V) (v : V) :
  let d := Some v in
  let chain :=
    zlookup (ht t) (to_int (hash (functions t) d mod htCapacity t)) [] in
  exists r,
    htLookUp t d = Ok (r, t) /\
    ((unmatched (functions t) d chain /\ data r = NULL /\ frequency r = 0) \/
     (exists c1 e c2,
        chain = c1 ++ e :: c2 /\ unmatched (functions t) d c1 /\
        compare (functions t) (data e) d = 0 /\
        r = e /\ data r = data e /\ frequency r = frequency e)).
Proof.
  intros d chain.
  exists (htLookUp_loop (functions t) chain d). split; [reflexivity|].
  destruct (scan_cases (functions t) chain d) as [H|(c1 & e & c2 & E & H1 & He)].
  - left. rewrite htLookUp_loop_absent by done. by repeat split.
  - right. exists c1, e, c2. rewrite E.
    rewrite htLookUp_loop_found by done. by repeat split.
Qed.

(** ** The growth trigger *)

Section Trigger.
Context {V : Type}.
Implicit Types (t : HashTable V) (f : HTFunctions V) (d : ptr V)
  (ds : list (ptr V)).

(** [checkRehash] decides as the documentation says. *)
Lemma checkRehash_due t :
  wf_cursor t ->
  (growth_due t -> checkRehash t = rehash t) /\
  (~ growth_due t -> checkRehash t = t).
Proof.
  intros Hc. unfold growth_due, htCapacity, checkRehash.
  rewrite numSizes_pred by done.
  destruct (Float32.eqb (lf t) (Float32.of_Z 1)); cbn [negb andb].
  { split; [by intros (? & _)|reflexivity]. }
  destruct (Z.ltb_spec (index t) (numSizes t - 1)); cbn [andb].
  - destruct (Float32.ltb (lf t) _).
    + split; [reflexivity|]. intros Hno. exfalso. by apply Hno.
    + split; [by intros (_ & _ & ?)|reflexivity].
  - split; [intros (_ & ? & _); lia|reflexivity].
Qed.

Lemma growth_due_dec t : growth_due t \/ ~ growth_due t.
Proof.
  unfold growth_due.
  destruct (Float32.eqb (lf t) (Float32.of_Z 1)); [right; by intros (? & _)|].
  destruct (decide (index t < numSizes t - 1)); [|right; by intros (_ & ? & _)].
  destruct (Float32.ltb (lf t) _); [by left|right; by intros (_ & _ & ?)].
Qed.

Lemma calm_cursor t : calm t -> wf_cursor t.
Proof.
  intros (Hs & Hn & _ & Hi). split; rewrite ?Hs, ?Hn, ?Hi; [done|by vm_compute| |lia].
  split; [repeat constructor; unfold UINT_MAX; lia|].
  intros [|[|[|i]]] a b Ha Hb; simplify_eq/=; lia.
Qed.

Lemma calm_no_growth t : calm t -> 0 <= numItem t <= 4 -> checkRehash t = t.
Proof.
  intros Hcalm Hk. pose proof Hcalm as (Hs & Hn & Hl & Hi).
  apply (checkRehash_due t (calm_cursor t Hcalm)).
  unfold growth_due, htCapacity, cur_size. rewrite Hs, Hl, Hi. intros (_ & _ & H).
  assert (numItem t = 0 \/ numItem t = 1 \/ numItem t = 2 \/ numItem t = 3
          \/ numItem t = 4) as [E|[E|[E|[E|E]]]] by lia;
    rewrite E in H; by vm_compute in H.
Qed.

Lemma calm_growth t : calm t -> numItem t = 5 -> checkRehash t = rehash t.
Proof.
  intros Hcalm Hk. pose proof Hcalm as (Hs & Hn & Hl & Hi).
  apply (checkRehash_due t (calm_cursor t Hcalm)).
  unfold growth_due, htCapacity, cur_size. rewrite Hs, Hn, Hl, Hi, Hk.
  by vm_compute.
Qed.

Lemma inequivalent_app f ds1 ds2 :
  inequivalent f (ds1 ++ ds2) <->
  inequivalent f ds1 /\ inequivalent f ds2 /\
  forall a b, a ∈ ds1 -> b ∈ ds2 -> compare f a b <> 0.
Proof.
  induction ds1 as [|d ds1 IH]; simpl.
  - split; [intros H; repeat split; [done|]|tauto].
    intros a b Ha. by apply elem_of_nil in Ha.
  - rewrite Forall_app, IH. split.
    + intros ((H1 & H2) & D1 & D2 & Hx). repeat split; try done.
      intros a b Ha Hb. apply elem_of_cons in Ha as [->|Ha]; [|eauto].
      by eapply Forall_forall in H2.
    + intros ((H1 & D1) & D2 & Hx). repeat split; try done.
      * apply Forall_forall. intros b Hb. apply Hx; [left|done].
      * intros a b Ha Hb. apply Hx; [by right|done].
Qed.

(** Insertions of pairwise inequivalent new data while the table of
    [testRehash] holds at most five entries: no growth. *)
Lemma calm_run t ds :
  lawful (functions t) -> wf t -> calm t ->
  Forall (fun d => is_null d = false) ds ->
  inequivalent (functions t) ds -> Forall (absent t) ds ->
  numItem t + Z.of_nat (length ds) <= 5 ->
  total t + Z.of_nat (length ds) <= INT_MAX ->
  exists frs t',
    htAddAll t ds = Ok (frs, t') /\ wf t' /\ calm t' /\
    functions t' = functions t /\
    numItem t' = numItem t + Z.of_nat (length ds) /\
    total t' = total t + Z.of_nat (length ds) /\
    (forall y, absent t y ->
       Forall (fun d => compare (functions t) d y <> 0) ds -> absent t' y).
Proof.
  revert t. induction ds as [|x ds IH]; intros t Hf Hwf Hcalm Hn Hd Ha Hk Ht.
  { exists [], t. split; [done|]. split; [done|]. split; [done|].
    split; [done|]. split; [simpl; lia|]. split; [simpl; lia|]. by intros y Hy _. }
  apply Forall_cons in Hn as [Hx Hn]. apply Forall_cons in Ha as [Hax Ha].
  destruct Hd as [Hdx Hd]. simpl length in Hk, Ht.
  pose proof (numItem_bound t Hwf) as Hni.
  destruct (htAdd_spec t x Hf Hwf Hx) as (t1 & E1 & Hwf1 & F1 & T1 & N1 & _ & D1);
    [lia|].
  rewrite (lookup_frequency_absent t x Hax) in E1, N1.
  rewrite decide_True in N1 by done.
  destruct (htAdd_frame t x _ _ E1) as (_ & S1 & NS1 & L1 & I1).
  rewrite calm_no_growth in I1 by (done || lia).
  assert (calm t1) as Hcalm1.
  { destruct Hcalm as (Hs & Hns & Hl & Hi). split; [congruence|].
    split; [congruence|]. split; congruence. }
  assert (forall y, absent t y -> compare (functions t) x y <> 0 -> absent t1 y)
    as Hab.
  { intros y Hy Hxy. apply Forall_forall. intros e' He'. rewrite F1.
    destruct (D1 e' He') as [->|(e & He & ->)]; [done|].
    by eapply Forall_forall in Hy. }
  destruct (IH t1) as (frs & t' & E & Hwf' & Hcalm' & F & N & T & A);
    [by rewrite F1|done|done|done|by rewrite F1| |lia|lia|].
  { apply Forall_forall. intros y Hy. apply Hab.
    - by eapply Forall_forall in Ha.
    - by eapply Forall_forall in Hdx. }
  exists (0 + 1 :: frs), t'. cbn [htAddAll]. rewrite E1. cbn [mbind result_bind].
  rewrite E. split; [done|]. split; [done|]. split; [done|].
  split; [congruence|]. split; [simpl length; lia|]. split; [simpl length; lia|].
  intros y Hy Hall. apply Forall_cons in Hall as [Hxy Hall].
  apply A; [by apply Hab|by rewrite F1].
Qed.

End Trigger.

(** C2 (growth trigger).  A call of [htAdd] with non-null data rehashes
    exactly when the load factor is not 1, a larger size remains in the
    schedule, and the number of unique entries before the insertion
    divided by the current capacity exceeds the load factor (a division
    and a comparison of [float] values: a quotient that the division
    rounds to the load factor does not exceed it); the new item is then
    placed by
    [addTail] in the grown table, in the bucket of its hash under the next
    capacity.  With the schedule 10, 30, 999 and the load factor 0.49, the
    capacity is 10 after up to five insertions of pairwise inequivalent
    data, and a sixth such insertion leaves the capacity at 30 with the
    sixth item in the bucket of its hash modulo 30. *)
Theorem growth_trigger :
  (forall (V : Type) (t : HashTable V) (v : V),
     wf_cursor t ->
     exists fr t',
       htAdd t (Some v) = Ok (fr, t') /\
       (growth_due t <-> index t' = index t + 1) /\
       (growth_due t ->
        htCapacity t' = zlookup (sizes t) (index t + 1) 0 /\
        bucket_of (rehash t) (Some v)
        = to_int (hash (functions t) (Some v)
                  mod zlookup (sizes t) (index t + 1) 0) /\
        t' = (addTail (rehash t) (bucket_of (rehash t) (Some v)) (Some v)).2) /\
       (~ growth_due t ->
        index t' = index t /\ htCapacity t' = htCapacity t /\
        t' = (addTail t (bucket_of t (Some v)) (Some v)).2)) /\
  (forall (V : Type) (f : HTFunctions V) (ds : list (ptr V)) (x : ptr V),
     lawful f ->
     Forall (fun d => is_null d = false) (ds ++ [x]) ->
     inequivalent f (ds ++ [x]) -> length ds = 5%nat ->
     exists t0 frs t5 t6,
       htCreate f [10; 30; 999] 3 Float32.f0_49 = Ok t0 /\
       (forall k, (k <= 5)%nat ->
          exists frs' tk,
            htAddAll t0 (take k ds) = Ok (frs', tk) /\ htCapacity tk = 10) /\
       htAddAll t0 ds = Ok (frs, t5) /\ htCapacity t5 = 10 /\
       htAdd t5 x = Ok (1, t6) /\ htCapacity t6 = 30 /\
       exists (i : nat) c,
         Z.of_nat i = hash f x mod 30 /\ ht t6 !! i = Some c /\
         mkEntry x 1 ∈ c).
Proof.
  split.
  - intros V t v Hc. pose proof Hc as [Hn Hm Hs Hx].
    destruct (checkRehash_due t Hc) as [Hyes Hno].
    pose proof (htAdd_unfold t (Some v) eq_refl) as E.
    destruct (htAdd_frame t (Some v) _ _ E) as (_ & F2 & _ & _ & F5).
    assert (index (rehash t) = index t + 1) as Hr.
    { destruct (rehash_frame t) as (_ & _ & _ & _ & _ & _ & ->).
      apply to_int_small. lia. }
    eexists _, _. split; [exact E|]. split; [|split].
    + split.
      * intros Hg. by rewrite F5, (Hyes Hg).
      * intros Hi. destruct (growth_due_dec t) as [|Hg]; [done|].
        rewrite F5, (Hno Hg) in Hi. lia.
    + intros Hg. rewrite (Hyes Hg) in F2, F5 |- *. split; [|split; [|done]].
      * unfold htCapacity, cur_size. by rewrite F2, F5, Hr.
      * unfold bucket_of, cur_size. by rewrite Hr.
    + intros Hg. rewrite (Hno Hg) in F2, F5 |- *. split; [|split; [|done]].
      * by rewrite F5.
      * unfold htCapacity, cur_size. by rewrite F2, F5.
  - intros V f ds x Hf Hn Hd Hlen.
    apply Forall_app in Hn as [Hn Hx]. apply Forall_cons in Hx as [Hx _].
    apply inequivalent_app in Hd as (Hd & _ & Hdx).
    set (t0 := mkTable f (take (Z.to_nat 3) [10; 30; 999]) 3 0 0 0 Float32.f0_49
                 (replicate (Z.to_nat (zlookup [10; 30; 999] 0 0)) [])).
    assert (htCreate f [10; 30; 999] 3 Float32.f0_49 = Ok t0) as E0.
    { apply htCreate_ok; [apply schedule_unsigned|by vm_compute|].
      apply schedule_create_ok. }
    destruct (htCreate_wf f [10; 30; 999] 3 Float32.f0_49 t0) as (Hwf0 & He0 & Hf0);
      [apply schedule_unsigned|by vm_compute| |done|].
    { repeat constructor; unfold INT_MAX; lia. }
    assert (calm t0) as Hcalm0 by done.
    assert (forall y, absent t0 y) as Ha0.
    { intros y. unfold absent. rewrite He0. constructor. }
    assert (forall ds', Forall (fun d => is_null d = false) ds' ->
              inequivalent f ds' -> (length ds' <= 5)%nat ->
              exists frs t',
                htAddAll t0 ds' = Ok (frs, t') /\ wf t' /\ calm t' /\
                functions t' = f /\ numItem t' = Z.of_nat (length ds') /\
                total t' = Z.of_nat (length ds') /\
                (forall y, Forall (fun d => compare f d y <> 0) ds' ->
                   absent t' y)) as Hrun.
    { intros ds' Hn' Hd' Hlen'.
      destruct (calm_run t0 ds') as (frs & t' & E & Hwf' & Hc' & F & N & T & A);
        try done.
      - by apply Forall_forall.
      - change (numItem t0) with 0. lia.
      - change (total t0) with 0. unfold INT_MAX. lia.
      - exists frs, t'. split; [done|]. split; [done|]. split; [done|].
        split; [done|]. split; [by rewrite N|]. split; [by rewrite T|].
        intros y Hy. by apply A. }
    destruct (Hrun ds Hn Hd) as (frs & t5 & E5 & Hwf5 & Hcalm5 & F5 & N5 & T5 & A5);
      [lia|].
    assert (forall t : HashTable V, calm t -> htCapacity t = 10) as Hcap.
    { intros t (Hs & _ & _ & Hi). unfold htCapacity, cur_size. by rewrite Hs, Hi. }
    assert (absent t5 x) as Hax.
    { apply A5. apply Forall_forall. intros d Hdin. apply Hdx; [done|left]. }
    destruct (htAdd_new t5 x) as (t6 & E6 & Hwf6 & Hp6);
      [by rewrite F5|done|done|done| |].
    { rewrite T5, Hlen. by vm_compute. }
    destruct (htAdd_frame t5 x _ _ E6) as (F6 & S6 & _ & _ & I6).
    rewrite calm_growth in I6 by (done || lia).
    destruct Hcalm5 as (Hs5 & Hns5 & Hl5 & Hi5).
    assert (index t6 = 1) as Hi6.
    { rewrite I6. destruct (rehash_frame t5) as (_ & _ & _ & _ & _ & _ & ->).
      by rewrite Hi5. }
    assert (htCapacity t6 = 30) as Hcap6.
    { unfold htCapacity, cur_size. by rewrite S6, Hs5, Hi6. }
    exists t0, frs, t5, t6. split; [done|]. split; [|split; [done|]].
    + intros k Hk.
      destruct (Hrun (take k ds)) as (frs' & tk & Ek & _ & Hck & _).
      * by apply Forall_take.
      * rewrite <- (take_drop k ds) in Hd. by apply inequivalent_app in Hd as (? & _).
      * rewrite length_take. lia.
      * exists frs', tk. split; [done|]. by apply Hcap.
    + split; [by apply Hcap|]. split; [done|]. split; [done|].
      assert (mkEntry x 1 ∈ entries t6) as Hin by (rewrite Hp6; left).
      apply elem_of_concat_lookup in Hin as (i & c & Hc & Hin).
      exists i, c. split; [|done].
      rewrite <- (wf_bucket t6 Hwf6 i c _ Hc Hin). cbn [data].
      rewrite bucket_of_mod by (unfold htCapacity in Hcap6; rewrite Hcap6; by vm_compute).
      unfold htCapacity in Hcap6. by rewrite Hcap6, F6, F5.
Qed.

Lemma growth_trigger_witness :
  (exists fr t',
     htAdd Demo.five (Some "f"%string) = Ok (fr, t') /\
     growth_due Demo.five /\ index t' = 1 /\ htCapacity t' = 30) /\
  (exists t5 t6 frs,
     htAddAll Demo.created Demo.words = Ok (frs, t5) /\ htCapacity t5 = 10 /\
     htAdd t5 (Some "f"%string) = Ok (1, t6) /\ htCapacity t6 = 30).
Proof.
  assert (growth_due Demo.five) as Hg by (vm_compute; repeat split; reflexivity).
  assert (index Demo.five + 1 = 1) as Hi by (vm_compute; reflexivity).
  assert (zlookup (sizes Demo.five) (index Demo.five + 1) 0 = 30) as Hs
    by (vm_compute; reflexivity).
  assert (inequivalent StringClient.stringFunctions (Demo.words ++ [Some "f"%string]))
    as Hd.
  { simpl. repeat split; repeat constructor; vm_compute; discriminate. }
  destruct growth_trigger as [H1 H2]. split.
  - destruct (H1 string Demo.five "f"%string) as (fr & t' & E & Hiff & Hyes & _).
    { apply five_spec. }
    exists fr, t'. split; [exact E|]. split; [exact Hg|].
    split; [rewrite (proj1 Hiff Hg); exact Hi|].
    destruct (Hyes Hg) as (-> & _). exact Hs.
  - destruct (H2 string StringClient.stringFunctions Demo.words (Some "f"%string))
      as (t0 & frs & t5 & t6 & E0 & _ & E5 & C5 & E6 & C6 & _).
    + apply stringFunctions_lawful.
    + repeat constructor.
    + exact Hd.
    + reflexivity.
    + change [10; 30; 999] with Demo.schedule in E0.
      rewrite created_run in E0. injection E0 as <-.
      exists t5, t6, frs. split; [exact E5|]. split; [exact C5|].
      split; [exact E6|exact C6].
Defined.

(** ** Frequencies *)

Section Counting.
Context {V : Type}.
Implicit Types (t : HashTable V) (f : HTFunctions V) (d x : ptr V)
  (e : HTEntry V) (ds : list (ptr V)).

Lemma htLookUp_frequency t d :
  is_null d = false ->
  exists e, htLookUp t d = Ok (e, t) /\ frequency e = lookup_frequency t d.
Proof.
  intros Hn. unfold lookup_frequency, htLookUp. rewrite Hn.
  cbn [negb assert mbind result_bind]. eauto.
Qed.

Lemma lookup_frequency_equiv t x d :
  lawful (functions t) -> wf t -> is_null x = false -> is_null d = false ->
  compare (functions t) x d = 0 ->
  lookup_frequency t d = lookup_frequency t x.
Proof.
  intros Hf Hwf Hx Hd Hxd.
  destruct (entry_cases t x) as [Ha|(e & He & Hex)].
  - rewrite (lookup_frequency_absent t x Ha).
    apply lookup_frequency_absent.
    eapply Forall_impl; [exact Ha|]. cbn beta. intros e He H. apply He.
    apply (compare_trans _ Hf _ d); [done|]. by apply (compare_sym _ Hf).
  - rewrite (lookup_frequency_found t x e) by done.
    apply lookup_frequency_found; try done.
    by apply (compare_trans _ Hf _ x).
Qed.

Lemma counters_unsigned t :
  wf t -> htTotalEntries t = total t /\ htUniqueEntries t = numItem t.
Proof.
  intros Hwf. pose proof (numItem_bound t Hwf).
  pose proof (wf_total_int t Hwf). unfold htTotalEntries, htUniqueEntries.
  by rewrite !to_unsigned_small by lia.
Qed.

Lemma lookup_frequency_nonneg t d :
  lawful (functions t) -> wf t -> is_null d = false ->
  0 <= lookup_frequency t d /\ (lookup_frequency t d = 0 -> absent t d).
Proof.
  intros Hf Hwf Hd.
  destruct (entry_cases t d) as [Ha|(e & He & Hed)].
  - by rewrite (lookup_frequency_absent t d Ha).
  - rewrite (lookup_frequency_found t d e) by done.
    pose proof (wf_frequency t Hwf) as Hfr.
    eapply Forall_forall in Hfr; [|exact He]. cbn beta in Hfr. split; lia.
Qed.

(** Further insertions into a class that is already in the table. *)
Lemma class_run t x ds :
  lawful (functions t) -> wf t -> is_null x = false ->
  1 <= lookup_frequency t x ->
  Forall (fun d => is_null d = false /\ compare (functions t) x d = 0) ds ->
  total t + Z.of_nat (length ds) <= INT_MAX ->
  exists t',
    htAddAll t ds
    = Ok ((fun i => lookup_frequency t x + Z.of_nat i) <$> seq 1 (length ds), t') /\
    wf t' /\ functions t' = functions t /\
    lookup_frequency t' x = lookup_frequency t x + Z.of_nat (length ds) /\
    total t' = total t + Z.of_nat (length ds) /\ numItem t' = numItem t.
Proof.
  revert t. induction ds as [|d ds IH]; intros t Hf Hwf Hx Hk Hds Ht.
  { exists t. split; [done|]. split; [done|]. split; [done|].
    split; [simpl; lia|]. split; [simpl; lia|done]. }
  apply Forall_cons in Hds as [[Hd Hxd] Hds]. simpl length in Ht.
  destruct (htAdd_spec t d Hf Hwf Hd) as (t1 & E1 & Hwf1 & F1 & T1 & N1 & L1 & _);
    [lia|].
  rewrite (lookup_frequency_equiv t x d) in E1, N1 by done.
  rewrite decide_False in N1 by lia.
  specialize (L1 x Hx). rewrite decide_True in L1 by done.
  destruct (IH t1) as (t' & E & Hwf' & F & L & T & N);
    [by rewrite F1|done|done|lia|by rewrite F1|lia|].
  exists t'. cbn [htAddAll]. rewrite E1. cbn [mbind result_bind]. rewrite E.
  cbn [mbind result_bind].
  split; [|split; [done|split; [congruence|]]].
  - do 2 f_equal. cbn [length seq fmap list_fmap]. f_equal.
    rewrite <- (fmap_S_seq 1), <- list_fmap_compose.
    apply list_fmap_ext. intros _ i _. simpl. lia.
  - simpl length. lia.
Qed.

End Counting.

(** C1 (frequency correctness).  On a well-formed table with lawful
    callbacks, and as long as the total count stays within [int]:
    inserting [N >= 1] values equivalent to [x], a class not yet in the
    table, returns 1, 2, ..., N in turn, after which the lookup of [x]
    reports the frequency [N], the total count has grown by [N] and the
    count of unique entries by one; and an insertion of data equivalent to
    that of an entry [e] returns the frequency of [e] plus one, which is
    then the frequency of that entry, adds one to the total count and
    leaves the count of unique entries as it was. *)
Theorem frequency_correctness {V} (t : HashTable V) :
  lawful (functions t) -> wf t ->
  (forall (x : ptr V) (ds : list (ptr V)),
     is_null x = false -> absent t x -> ds <> [] ->
     Forall (fun d => is_null d = false /\ compare (functions t) x d = 0) ds ->
     total t + Z.of_nat (length ds) <= INT_MAX ->
     exists t' e,
       htAddAll t ds = Ok (Z.of_nat <$> seq 1 (length ds), t') /\
       htLookUp t' x = Ok (e, t') /\ frequency e = Z.of_nat (length ds) /\
       htTotalEntries t' = htTotalEntries t + Z.of_nat (length ds) /\
       htUniqueEntries t' = htUniqueEntries t + 1) /\
  (forall (e : HTEntry V) (d : ptr V),
     e ∈ entries t -> is_null d = false ->
     compare (functions t) (data e) d = 0 -> total t < INT_MAX ->
     exists t',
       htAdd t d = Ok (frequency e + 1, t') /\
       htLookUp t' d = Ok (mkEntry (data e) (frequency e + 1), t') /\
       htTotalEntries t' = htTotalEntries t + 1 /\
       htUniqueEntries t' = htUniqueEntries t).
Proof.
  intros Hf Hwf. destruct (counters_unsigned t Hwf) as [-> ->]. split.
  - intros x [|d ds] Hx Ha Hne Hds Ht; [done|clear Hne].
    apply Forall_cons in Hds as [[Hd Hxd] Hds]. simpl length in Ht.
    destruct (htAdd_spec t d Hf Hwf Hd) as (t1 & E1 & Hwf1 & F1 & T1 & N1 & L1 & _);
      [lia|].
    rewrite (lookup_frequency_equiv t x d) in E1, N1 by done.
    rewrite (lookup_frequency_absent t x Ha) in E1, N1.
    rewrite decide_True in N1 by done.
    specialize (L1 x Hx). rewrite decide_True in L1 by done.
    rewrite (lookup_frequency_absent t x Ha) in L1.
    destruct (class_run t1 x ds) as (t' & E & Hwf' & F & L & T & N);
      [by rewrite F1|done|done|lia|by rewrite F1|lia|].
    destruct (htLookUp_frequency t' x Hx) as (e & El & Hfe).
    exists t', e. destruct (counters_unsigned t' Hwf') as [-> ->].
    cbn [htAddAll]. rewrite E1. cbn [mbind result_bind]. rewrite E.
    cbn [mbind result_bind].
    split; [|split; [done|split; [|split]]].
    + do 2 f_equal. cbn [length seq fmap list_fmap]. f_equal.
      rewrite <- (fmap_S_seq 1), <- list_fmap_compose.
      apply list_fmap_ext. intros _ i _. simpl. lia.
    + rewrite Hfe, L, L1. simpl length. lia.
    + simpl length. lia.
    + lia.
  - intros e d He Hd Hed Ht.
    destruct (htAdd_dup t d e Hf Hwf Hd He Hed Ht) as (t' & rest & E & Hwf' & Hp & Hp').
    destruct (htAdd_frame t d _ _ E) as (F1 & _).
    exists t'. destruct (counters_unsigned t' Hwf') as [-> ->].
    split; [done|]. split; [|split].
    + apply htLookUp_found; try done; [by rewrite F1|by rewrite Hp'; left|].
      by rewrite F1.
    + rewrite (wf_total t' Hwf'), (wf_total t Hwf).
      rewrite (sum_frequency_perm _ _ Hp'), (sum_frequency_perm _ _ Hp).
      simpl. lia.
    + rewrite (wf_numItem t' Hwf'), (wf_numItem t Hwf). by rewrite Hp', Hp.
Qed.

Lemma frequency_correctness_witness :
  (exists t' e,
     htAddAll Demo.five [Some "z"; Some "z"; Some "z"]%string = Ok ([1; 2; 3], t') /\
     htLookUp t' (Some "z"%string) = Ok (e, t') /\ frequency e = 3 /\
     htTotalEntries t' = 5 + 3 /\ htUniqueEntries t' = 5 + 1) /\
  (exists t',
     htAdd Demo.five (Some "c"%string) = Ok (1 + 1, t') /\
     htLookUp t' (Some "c"%string) = Ok (mkEntry (Some "c"%string) (1 + 1), t') /\
     htTotalEntries t' = 5 + 1 /\ htUniqueEntries t' = 5).
Proof.
  assert (htTotalEntries Demo.five = 5) as Ht by (vm_compute; reflexivity).
  assert (htUniqueEntries Demo.five = 5) as Hu by (vm_compute; reflexivity).
  assert (total Demo.five + 3 <= INT_MAX) as Hb by (vm_compute; discriminate).
  assert (total Demo.five < INT_MAX) as Hb' by (vm_compute; reflexivity).
  assert (mkEntry (Some "c"%string) 1 ∈ entries Demo.five) as Hc.
  { apply elem_of_concat_lookup.
    exists 9%nat, [mkEntry (Some "c"%string) 1]. split; [by vm_compute|left]. }
  assert (absent Demo.five (Some "z"%string)) as Ha.
  { unfold absent. vm_compute entries. repeat constructor; vm_compute; discriminate. }
  destruct five_spec as (Hwf & Hf & _).
  destruct (frequency_correctness Demo.five) as [H1 H2].
  - rewrite Hf. apply stringFunctions_lawful.
  - exact Hwf.
  - split.
    + destruct (H1 (Some "z"%string) [Some "z"; Some "z"; Some "z"]%string)
        as (t' & e & E & El & Hfe & Et & Eu).
      { reflexivity. }
      { exact Ha. }
      { discriminate. }
      { rewrite Hf. repeat constructor. }
      { exact Hb. }
      exists t', e. rewrite Ht in Et. rewrite Hu in Eu.
      split; [exact E|]. split; [exact El|]. split; [exact Hfe|].
      split; [exact Et|exact Eu].
    + destruct (H2 (mkEntry (Some "c"%string) 1) (Some "c"%string))
        as (t' & E & El & Et & Eu).
      { exact Hc. }
      { reflexivity. }
      { rewrite Hf. reflexivity. }
      { exact Hb'. }
      exists t'. rewrite Ht in Et. rewrite Hu in Eu.
      split; [exact E|]. split; [exact El|]. split; [exact Et|exact Eu].
Defined.

(** ** Metrics *)

Section Metrics.
Context {V : Type}.
Implicit Types (t : HashTable V) (c : list (HTEntry V))
  (b : list (list (HTEntry V))).

Lemma updateChain_loop_spec c chain count total :
  0 <= count -> 0 <= total ->
  count + Z.of_nat (length c) <= INT_MAX ->
  total + Z.of_nat (length c) <= INT_MAX ->
  updateChain_loop c chain count total
  = (match c with [] => chain | _ => 1 end,
     count + Z.of_nat (length c), total + Z.of_nat (length c)).
Proof.
  revert chain count total.
  induction c as [|e c IH]; intros chain count total Hc Ht Hcb Htb.
  { simpl. by rewrite !Z.add_0_r. }
  cbn [updateChain_loop]. simpl length in Hcb, Htb.
  rewrite !to_int_small by lia. rewrite IH by lia.
  simpl length. destruct c; triple_eq.
Qed.

Lemma nonempty_chains_cons c b :
  nonempty_chains (c :: b)
  = (match c with [] => 0 | _ => 1 end) + nonempty_chains b.
Proof.
  unfold nonempty_chains. rewrite filter_cons.
  destruct c; [by rewrite decide_False by auto|].
  rewrite decide_True by done. simpl length. lia.
Qed.

Lemma longest_chain_cons c b :
  longest_chain (c :: b) = Z.max (Z.of_nat (length c)) (longest_chain b).
Proof. unfold longest_chain. cbn [fmap list_fmap max_list]. apply Nat2Z.inj_max. Qed.

Lemma chain_total_cons c b :
  chain_total (c :: b) = Z.of_nat (length c) + chain_total b.
Proof.
  unfold chain_total. rewrite fmap_cons. cbn [sum_list_with].
  unfold id at 1. lia.
Qed.

Lemma chain_total_nonneg b : 0 <= chain_total b.
Proof. unfold chain_total. lia. Qed.

Lemma nonempty_le_total b : 0 <= nonempty_chains b <= chain_total b.
Proof.
  induction b as [|c b IH]; [by vm_compute|].
  rewrite nonempty_chains_cons, chain_total_cons. destruct c; simpl length; lia.
Qed.

Lemma longest_le_total b : 0 <= longest_chain b <= chain_total b.
Proof.
  induction b as [|c b IH]; [by vm_compute|].
  rewrite longest_chain_cons, chain_total_cons. lia.
Qed.

Lemma metrics_fold b num max total :
  0 <= num -> 0 <= max -> 0 <= total ->
  num <= total -> total + chain_total b <= INT_MAX ->
  fold_left (fun s c => metrics_step c s) b (num, max, total)
  = (num + nonempty_chains b, Z.max max (longest_chain b),
     total + chain_total b).
Proof.
  revert num max total.
  induction b as [|c b IH]; intros num max total Hn Hm Ht Hnt Hb.
  { simpl. unfold nonempty_chains, longest_chain, chain_total. simpl.
    triple_eq. }
  rewrite chain_total_cons in Hb. pose proof (chain_total_nonneg b).
  cbn [fold_left metrics_step]. unfold updateChain.
  rewrite updateChain_loop_spec by lia.
  rewrite nonempty_chains_cons, longest_chain_cons, chain_total_cons.
  destruct c as [|e c].
  - cbn [Z.eqb length]. change (Z.of_nat 0) with 0. rewrite !Z.add_0_r.
    destruct (Z.ltb_spec max 0); [lia|].
    rewrite IH by lia. triple_eq.
  - cbn [Z.eqb]. rewrite to_int_small by (simpl length in *; lia).
    rewrite Z.add_0_l.
    destruct (Z.ltb_spec max (Z.of_nat (length (e :: c))));
      rewrite IH by (simpl length in *; lia); triple_eq.
Qed.

Lemma htMetrics_unfold t :
  Z.of_nat (length (ht t)) = htCapacity t ->
  htMetrics t =
  let '(num, max, total) :=
    fold_left (fun s c => metrics_step c s) (ht t) (0, 0, 0) in
  mkMetrics (to_unsigned num) (to_unsigned max)
            (Float32.div (Float32.of_Z total) (Float32.of_Z num)).
Proof.
  intros Hlen. unfold htMetrics, htCapacity in *. rewrite <- Hlen.
  by rewrite <- (for_loop_array metrics_step []).
Qed.

End Metrics.

(** C7 (metrics exactness).  For a table whose bucket array has one slot
    per unit of capacity and whose chains hold at most [INT_MAX] entries
    together (both follow from [wf]), [htMetrics] reports the number of
    non-empty chains, the length of the longest chain, and the [float]
    quotient of the sum of the chain lengths by the number of non-empty
    chains; with no non-empty chain that quotient is 0.0 / 0.0, a NaN. *)
Theorem metrics_exactness {V} (t : HashTable V) :
  Z.of_nat (length (ht t)) = htCapacity t ->
  chain_total (ht t) <= INT_MAX ->
  numberOfChains (htMetrics t) = nonempty_chains (ht t) /\
  maxChainLength (htMetrics t) = longest_chain (ht t) /\
  avgChainLength (htMetrics t)
  = Float32.div (Float32.of_Z (chain_total (ht t)))
                (Float32.of_Z (nonempty_chains (ht t))) /\
  (nonempty_chains (ht t) = 0 ->
   Float32.is_nan (avgChainLength (htMetrics t)) = true).
Proof.
  intros Hlen Hb. rewrite htMetrics_unfold by done.
  rewrite metrics_fold by (done || lia). rewrite !Z.add_0_l.
  pose proof (nonempty_le_total (ht t)). pose proof (longest_le_total (ht t)).
  cbn [numberOfChains maxChainLength avgChainLength].
  rewrite Z.max_r by lia. rewrite !to_unsigned_small by lia.
  split; [done|]. split; [done|]. split; [done|].
  intros Hnone. rewrite Hnone.
  assert (chain_total (ht t) = 0) as ->; [|done].
  clear -Hnone. induction (ht t) as [|c b IH]; [done|].
  rewrite nonempty_chains_cons in Hnone. rewrite chain_total_cons.
  pose proof (nonempty_le_total b). pose proof (chain_total_nonneg b).
  destruct c; simpl length in *; lia.
Qed.

Lemma metrics_exactness_witness :
  numberOfChains (htMetrics Demo.five) = 5 /\
  maxChainLength (htMetrics Demo.five) = 1 /\
  avgChainLength (htMetrics Demo.five)
  = Float32.div (Float32.of_Z 5) (Float32.of_Z 5) /\
  Float32.is_nan (avgChainLength (htMetrics Demo.created)) = true.
Proof.
  assert (nonempty_chains (ht Demo.five) = 5) as E1 by (vm_compute; reflexivity).
  assert (longest_chain (ht Demo.five) = 1) as E2 by (vm_compute; reflexivity).
  assert (chain_total (ht Demo.five) = 5) as E3 by (vm_compute; reflexivity).
  assert (Z.of_nat (length (ht Demo.five)) = htCapacity Demo.five) as L1
    by (vm_compute; reflexivity).
  assert (chain_total (ht Demo.five) <= INT_MAX) as B1 by (vm_compute; discriminate).
  assert (Z.of_nat (length (ht Demo.created)) = htCapacity Demo.created) as L2
    by (vm_compute; reflexivity).
  assert (chain_total (ht Demo.created) <= INT_MAX) as B2
    by (vm_compute; discriminate).
  assert (nonempty_chains (ht Demo.created) = 0) as E4 by (vm_compute; reflexivity).
  destruct (metrics_exactness Demo.five L1 B1) as (H1 & H2 & H3 & _).
  destruct (metrics_exactness Demo.created L2 B2) as (_ & _ & _ & H4).
  rewrite E1 in H1. rewrite E2 in H2. rewrite E1, E3 in H3.
  split; [exact H1|]. split; [exact H2|]. split; [exact H3|exact (H4 E4)].
Defined.

(** ** Snapshot *)

Section Snapshot.
Context {V : Type}.
Implicit Types (t : HashTable V) (c p : list (HTEntry V))
  (b : list (list (HTEntry V))).

Lemma toArray_spec (z : HTEntry V) c p (m : nat) :
  Z.of_nat (length p + length c) <= INT_MAX ->
  toArray (p ++ replicate (length c + m) z) c (Z.of_nat (length p))
  = (p ++ c ++ replicate m z, Z.of_nat (length p + length c)).
Proof.
  revert p. induction c as [|e c IH]; intros p Hb.
  { simpl. by rewrite Nat.add_0_r. }
  cbn [toArray]. simpl length in *.
  rewrite zupdate_nat, to_int_small by lia.
  rewrite insert_app_r_alt, Nat.sub_diag by lia. cbn [replicate Nat.add].
  cbn [insert list_insert].
  replace (p ++ e :: replicate (length c + m) z)
    with ((p ++ [e]) ++ replicate (length c + m) z) by (by rewrite <- app_assoc).
  replace (Z.of_nat (length p) + 1) with (Z.of_nat (length (p ++ [e])))
    by (rewrite length_app; simpl; lia).
  rewrite IH by (rewrite length_app; simpl; lia).
  rewrite <- app_assoc, length_app. simpl.
  apply (f_equal2 pair); [reflexivity|]. apply (f_equal Z.of_nat). lia.
Qed.

Lemma toArray_fold (z : HTEntry V) b p (m : nat) :
  Z.of_nat (length p + length (concat b)) <= INT_MAX ->
  fold_left (fun (s : list (HTEntry V) * Z) c =>
               let '(arr, s0) := s in toArray arr c s0) b
    (p ++ replicate (length (concat b) + m) z, Z.of_nat (length p))
  = (p ++ concat b ++ replicate m z, Z.of_nat (length p + length (concat b))).
Proof.
  revert p. induction b as [|c b IH]; intros p Hb.
  { simpl. by rewrite Nat.add_0_r. }
  cbn [fold_left concat] in *. rewrite length_app in Hb. rewrite length_app.
  rewrite <- Nat.add_assoc, toArray_spec by lia.
  rewrite app_assoc. rewrite <- length_app.
  rewrite IH by (rewrite length_app; lia).
  rewrite <- !app_assoc, length_app.
  apply (f_equal2 pair); [reflexivity|]. apply (f_equal Z.of_nat). lia.
Qed.

Lemma htToArray_wf t :
  wf t ->
  htToArray t = (match entries t with [] => None | _ => Some (entries t) end,
                 htUniqueEntries t).
Proof.
  intros Hwf. pose proof (numItem_bound t Hwf) as Hn.
  pose proof (wf_total_int t Hwf) as Ht.
  unfold htToArray, htUniqueEntries, calloc.
  rewrite <- (wf_length t Hwf).
  rewrite (for_loop_array (fun c '(arr, s) => toArray arr c s) []).
  rewrite (wf_numItem t Hwf) in *. rewrite Nat2Z.id.
  pose proof (toArray_fold (mkEntry NULL 0) (ht t) [] 0) as H.
  rewrite Nat.add_0_r in H. cbn [app length Nat.add] in H.
  change (Z.of_nat 0) with 0 in H. fold (entries t) in H. cbn beta.
  rewrite H by lia. rewrite app_nil_r.
  rewrite to_unsigned_small by lia.
  destruct (entries t); [done|]. simpl length.
  by destruct (Z.eqb_spec (Z.of_nat (S (length l))) 0); [lia|].
Qed.

Lemma htAddAll_nonnull t (ds : list (ptr V)) frs t' :
  htAddAll t ds = Ok (frs, t') -> Forall (fun d => is_null d = false) ds.
Proof.
  revert t frs. induction ds as [|d ds IH]; intros t frs E; [constructor|].
  cbn [htAddAll] in E. destruct d as [v|]; [|discriminate E].
  destruct (htAdd t (Some v)) as [[fr t1]|]; [|discriminate E].
  cbn [mbind result_bind] in E.
  destruct (htAddAll t1 ds) as [[frs' t2]|] eqn:E2; [|discriminate E].
  injection E as _ ->. constructor; [done|]. by eapply IH.
Qed.

(** Every table built through the interface is well formed, as long as
    its sizes fit an [int] and the insertions do not overflow the total
    count. *)
Lemma reachable_wf (f : HTFunctions V) src n x t0 (ds : list (ptr V)) frs t :
  lawful f -> Forall is_unsigned src -> n <= INT_MAX ->
  Forall (fun s => s <= INT_MAX) (take (Z.to_nat n) src) ->
  htCreate f src n x = Ok t0 ->
  htAddAll t0 ds = Ok (frs, t) ->
  Z.of_nat (length ds) <= INT_MAX ->
  wf t /\ functions t = f.
Proof.
  intros Hf Hu Hn Hint E0 E Hlen.
  destruct (htCreate_wf f src n x t0 Hu Hn Hint E0) as (Hwf0 & He0 & Hf0).
  destruct (htAddAll_spec t0 ds) as (frs' & t' & E' & Hwf & F & _).
  - by rewrite Hf0.
  - done.
  - by eapply htAddAll_nonnull.
  - rewrite (wf_total t0 Hwf0), He0. simpl. lia.
  - rewrite E in E'. injection E' as <- <-. split; [done|congruence].
Qed.

End Snapshot.

(** C5 (snapshot round trip).  Let [t] be obtained from [htCreate], with
    lawful callbacks and sizes that fit an [int], by the insertions [ds],
    at most [INT_MAX] of them.  The size [htToArray] stores is the count
    of unique entries.  If nothing was inserted the result is the null
    pointer.  Otherwise it is an array of that length holding the entries
    of the table: no two of them are equivalent, the data of each was
    inserted and its frequency is the number of inserted values equivalent
    to it, and every inserted value has its class in the array. *)
Theorem snapshot_round_trip {V} (f : HTFunctions V) (src : list Z) (n : Z)
    (x : Float32.float) (t0 t : HashTable V) (ds : list (ptr V))
    (frs : list Z) :
  lawful f -> Forall is_unsigned src -> is_int n ->
  Forall (fun s => s <= INT_MAX) (take (Z.to_nat n) src) ->
  htCreate f src n x = Ok t0 ->
  htAddAll t0 ds = Ok (frs, t) ->
  Z.of_nat (length ds) <= INT_MAX ->
  exists arr,
    htToArray t = (match ds with [] => None | _ => Some arr end,
                   htUniqueEntries t) /\
    arr = entries t /\
    Z.of_nat (length arr) = htUniqueEntries t /\
    (ds = [] <-> arr = []) /\
    distinct f arr /\
    (forall e, e ∈ arr ->
       data e ∈ ds /\ frequency e = occurrences f ds (data e)) /\
    (forall d, d ∈ ds ->
       exists e, e ∈ arr /\ compare f (data e) d = 0 /\
                 frequency e = occurrences f ds d).
Proof.
  intros Hf Hu [_ Hn] Hint E0 E Hlen.
  destruct (htCreate_wf f src n x t0 Hu Hn Hint E0) as (Hwf0 & He0 & Hf0).
  pose proof (htAddAll_nonnull t0 ds frs t E) as Hnn.
  destruct (htAddAll_spec t0 ds) as (frs' & t' & E' & Hwf & F & T & L & D);
    [by rewrite Hf0|done|done| |].
  { rewrite (wf_total t0 Hwf0), He0. simpl. lia. }
  rewrite E in E'. injection E' as <- <-. rewrite Hf0 in *.
  assert (forall d, is_null d = false ->
            lookup_frequency t d = occurrences f ds d) as L'.
  { intros d Hd. rewrite (L d Hd), lookup_frequency_absent; [lia|].
    unfold absent. rewrite He0. constructor. }
  assert (forall e, e ∈ entries t ->
            data e ∈ ds /\ frequency e = occurrences f ds (data e)) as Hin.
  { intros e He. split.
    - destruct (D e He) as [|(e0 & He0' & _)]; [done|].
      rewrite He0 in He0'. by apply elem_of_nil in He0'.
    - rewrite <- L'.
      + symmetry. apply lookup_frequency_entry; [by rewrite F|done|done].
      + pose proof (wf_nonnull t Hwf) as H. by eapply Forall_forall in H. }
  assert (forall d, d ∈ ds ->
            exists e, e ∈ entries t /\ compare f (data e) d = 0 /\
                      frequency e = occurrences f ds d) as Hcl.
  { intros d Hd.
    assert (is_null d = false) as Hdn by (by eapply Forall_forall in Hnn).
    pose proof (occurrences_elem f ds d Hf Hd) as H1.
    destruct (entry_cases t d) as [Ha|(e & He & Hed)].
    - rewrite <- L', (lookup_frequency_absent t d Ha) in H1 by done. lia.
    - exists e. rewrite F in Hed. split; [done|]. split; [done|].
      rewrite <- L' by done. symmetry.
      apply lookup_frequency_found; try done; by rewrite F. }
  assert (ds = [] <-> entries t = []) as Hnil.
  { split.
    - intros ->. injection E as _ <-. done.
    - intros Hnil. destruct ds as [|d ds]; [done|].
      destruct (Hcl d) as (e & He & _); [left|].
      rewrite Hnil in He. by apply elem_of_nil in He. }
  exists (entries t). rewrite (htToArray_wf t Hwf).
  destruct (counters_unsigned t Hwf) as [_ Hcnt].
  split; [|split; [done|split; [|split; [done|split; [|done]]]]].
  - destruct ds as [|d ds].
    + by rewrite (proj1 Hnil eq_refl).
    + destruct (entries t) eqn:El; [|done].
      discriminate (proj2 Hnil eq_refl).
  - rewrite Hcnt. symmetry. apply (wf_numItem t Hwf).
  - rewrite <- F. apply (wf_distinct t Hwf).
Qed.

Lemma snapshot_round_trip_witness :
  (exists arr,
     htToArray Demo.five = (Some arr, htUniqueEntries Demo.five) /\
     Z.of_nat (length arr) = htUniqueEntries Demo.five /\
     forall d, d ∈ Demo.words ->
       exists e, e ∈ arr /\
         compare StringClient.stringFunctions (data e) d = 0 /\
         frequency e = occurrences StringClient.stringFunctions Demo.words d) /\
  htToArray Demo.created = (None, htUniqueEntries Demo.created).
Proof.
  assert (is_int 3) as Hn by (unfold is_int, INT_MIN, INT_MAX; lia).
  assert (Forall (fun s => s <= INT_MAX) (take (Z.to_nat 3) Demo.schedule)) as Hs.
  { repeat constructor; unfold INT_MAX; lia. }
  assert (Z.of_nat (length Demo.words) <= INT_MAX) as Hl
    by (vm_compute; discriminate).
  assert (Z.of_nat (length (@nil (ptr string))) <= INT_MAX) as Hl0
    by (vm_compute; discriminate).
  destruct five_spec as (_ & _ & frs & E). split.
  - destruct (snapshot_round_trip StringClient.stringFunctions Demo.schedule 3
                Float32.f0_49 Demo.created Demo.five Demo.words frs
                stringFunctions_lawful schedule_unsigned Hn Hs created_run E Hl)
      as (arr & H1 & _ & H2 & _ & _ & _ & H3).
    exists arr. split; [exact H1|]. split; [exact H2|exact H3].
  - destruct (snapshot_round_trip StringClient.stringFunctions Demo.schedule 3
                Float32.f0_49 Demo.created Demo.created [] []
                stringFunctions_lawful schedule_unsigned Hn Hs created_run
                eq_refl Hl0)
      as (arr & H1 & _). exact H1.
Defined.

(** * Further verified properties *)

(** ** Failure *)

Lemma htAdd_nonnull {V} (t : HashTable V) v :
  exists fr t', htAdd t (Some v) = Ok (fr, t').
Proof. rewrite htAdd_unfold by done. by eexists _, _. Qed.

Lemma htAddAll_abort {V} (t : HashTable V) ds :
  htAddAll t ds = Abort <-> NULL ∈ ds.
Proof.
  revert t. induction ds as [|d ds IH]; intros t.
  - split; [discriminate|]. intros H. by apply elem_of_nil in H.
  - destruct d as [v|].
    + destruct (htAdd_nonnull t v) as (fr & t' & E).
      cbn [htAddAll]. rewrite E. cbn [mbind result_bind].
      specialize (IH t'). rewrite elem_of_cons.
      destruct (htAddAll t' ds) as [[frs t'']|].
      * split; [discriminate|]. intros [H|H]; [discriminate H|].
        apply IH in H. discriminate H.
      * split; [|done]. intros _. right. by apply IH.
    + cbn [htAddAll]. change (@None V) with (@NULL V). rewrite htAdd_null.
      split; [|done]. intros _. apply elem_of_cons. by left.
Qed.

Lemma ok_pair_inj {A B} (a a' : A) (b b' : B) :
  Ok (a, b) = Ok (a', b') -> a = a' /\ b = b'.
Proof. intros E. by injection E. Qed.

Section Lookups.
Context {V : Type}.
Implicit Types (t : HashTable V) (f : HTFunctions V) (d : ptr V)
  (e : HTEntry V).

Lemma htLookUp_entry t d :
  is_null d = false -> htLookUp t d = Ok (lookup_entry t d, t).
Proof. by destruct d. Qed.

Lemma lookup_entry_frequency t d :
  lookup_frequency t d = frequency (lookup_entry t d).
Proof. by destruct d. Qed.

Lemma lookup_entry_found t d e :
  lawful (functions t) -> wf t -> is_null d = false ->
  e ∈ entries t -> compare (functions t) (data e) d = 0 ->
  lookup_entry t d = e.
Proof.
  intros Hf Hwf Hd He Hc. unfold lookup_entry.
  by rewrite (htLookUp_found t d e).
Qed.

Lemma lookup_entry_absent t d : absent t d -> lookup_entry t d = notFound.
Proof.
  intros Ha. destruct d as [v|]; [|done]. unfold lookup_entry.
  by rewrite htLookUp_absent.
Qed.

(** The result of a lookup depends on the set of entries only. *)
Lemma lookup_entry_perm t t' d :
  lawful (functions t) -> wf t -> wf t' -> functions t' = functions t ->
  entries t' ≡ₚ entries t -> lookup_entry t' d = lookup_entry t d.
Proof.
  intros Hf Hwf Hwf' Ef Hp. destruct d as [v|]; [|done].
  destruct (entry_cases t (Some v)) as [Ha|(e & He & Hc)].
  - rewrite (lookup_entry_absent t) by done.
    apply lookup_entry_absent. unfold absent. by rewrite Ef, Hp.
  - rewrite (lookup_entry_found t (Some v) e) by done.
    apply lookup_entry_found; [by rewrite Ef|done|done|by rewrite Hp|by rewrite Ef].
Qed.

Lemma lookup_entry_cases t d :
  lawful (functions t) -> wf t -> is_null d = false ->
  (absent t d /\ lookup_entry t d = notFound) \/
  (lookup_entry t d ∈ entries t /\
   compare (functions t) (data (lookup_entry t d)) d = 0 /\
   is_null (data (lookup_entry t d)) = false /\
   1 <= frequency (lookup_entry t d)).
Proof.
  intros Hf Hwf Hd.
  destruct (entry_cases t d) as [Ha|(e' & He & Hc)].
  - left. split; [done|]. by apply lookup_entry_absent.
  - right. rewrite (lookup_entry_found t d e') by done.
    pose proof (wf_nonnull t Hwf) as Hn. pose proof (wf_frequency t Hwf) as Hq.
    rewrite Forall_forall in Hn, Hq.
    split; [done|]. split; [done|]. split; [by apply Hn|by apply Hq].
Qed.

(** What an insertion does to the lookups: the class of the inserted
    value gets one more occurrence, under the pointer it had or under the
    inserted pointer if it is new; every other lookup returns what it
    returned before. *)
Lemma htAdd_lookup t d :
  lawful (functions t) -> wf t -> is_null d = false -> total t < INT_MAX ->
  exists t',
    htAdd t d = Ok (frequency (lookup_entry t d) + 1, t') /\ wf t' /\
    functions t' = functions t /\ total t' = total t + 1 /\
    forall d', is_null d' = false ->
      lookup_entry t' d' =
      if decide (compare (functions t) d' d = 0)
      then mkEntry (if is_null (data (lookup_entry t d)) then d
                    else data (lookup_entry t d))
                   (frequency (lookup_entry t d) + 1)
      else lookup_entry t d'.
Proof.
  intros Hf Hwf Hd Ht.
  destruct (htAdd_spec t d Hf Hwf Hd Ht) as (t1 & E1 & _ & Ef & Htot & _).
  assert (forall x y, compare (functions t) x y = 0 ->
                      compare (functions t) y x = 0) as Hsym
    by apply (compare_sym _ Hf).
  assert (forall x y z, compare (functions t) x y = 0 ->
                        compare (functions t) y z = 0 ->
                        compare (functions t) x z = 0) as Htr
    by apply (compare_trans _ Hf).
  destruct (lookup_entry_cases t d Hf Hwf Hd) as [[Ha En]|(He & Hc & Hnn & Hq)].
  - destruct (htAdd_new t d Hf Hwf Hd Ha Ht) as (t' & E & Hwf' & Hp).
    rewrite E in E1. injection E1 as E1 <-.
    exists t'. rewrite En. cbn [notFound frequency data is_null NULL].
    split; [exact E|]. split; [exact Hwf'|]. split; [exact Ef|].
    split; [exact Htot|].
    intros d' Hd'. case_decide as Hc.
    + apply lookup_entry_found; [by rewrite Ef|done|done| |].
      * rewrite Hp. apply elem_of_cons. by left.
      * rewrite Ef. cbn [data]. by apply Hsym.
    + destruct (lookup_entry_cases t d' Hf Hwf Hd') as [[Ha' ->]|(He' & Hc' & _)].
      * apply lookup_entry_absent. unfold absent. rewrite Ef, Hp.
        apply Forall_cons. split; [|exact Ha'].
        cbn [data]. intros H. by apply Hc, Hsym.
      * apply lookup_entry_found; [by rewrite Ef|done|done| |by rewrite Ef].
        rewrite Hp. apply elem_of_cons. by right.
  - set (e := lookup_entry t d) in *.
    destruct (htAdd_dup t d e Hf Hwf Hd He Hc Ht) as (t' & rest & E & Hwf' & Hp & Hp').
    rewrite E in E1. injection E1 as E1 <-.
    exists t'. rewrite Hnn.
    split; [exact E|]. split; [exact Hwf'|]. split; [exact Ef|].
    split; [exact Htot|].
    intros d' Hd'. case_decide as Hcd.
    + apply lookup_entry_found; [by rewrite Ef|done|done| |].
      * rewrite Hp'. apply elem_of_cons. by left.
      * rewrite Ef. cbn [data]. eapply Htr; [exact Hc|by apply Hsym].
    + assert (compare (functions t) (data e) d' <> 0) as Hed.
      { intros H. apply Hcd. eapply Htr; [apply Hsym, H|exact Hc]. }
      destruct (lookup_entry_cases t d' Hf Hwf Hd') as [[Ha' ->]|(He' & Hc' & _)].
      * apply lookup_entry_absent. unfold absent. rewrite Ef, Hp'.
        unfold absent in Ha'. rewrite Hp in Ha'.
        apply Forall_cons in Ha' as [_ Ha'].
        apply Forall_cons. split; [exact Hed|exact Ha'].
      * apply lookup_entry_found; [by rewrite Ef|done|done| |by rewrite Ef].
        rewrite Hp'. rewrite Hp in He'.
        apply elem_of_cons in He' as [He'|He'].
        -- exfalso. apply Hed. by rewrite <- He'.
        -- apply elem_of_cons. by right.
Qed.

End Lookups.

Section Runs.
Context {V : Type}.
Implicit Types (t : HashTable V) (f : HTFunctions V) (d : ptr V)
  (e : HTEntry V) (ds seen : list (ptr V)).

Lemma occurrences_app f ds1 ds2 d :
  occurrences f (ds1 ++ ds2) d = occurrences f ds1 d + occurrences f ds2 d.
Proof. unfold occurrences. rewrite filter_app, length_app. lia. Qed.

Lemma occurrences_one f x d :
  occurrences f [x] d = if decide (compare f d x = 0) then 1 else 0.
Proof.
  unfold occurrences. rewrite filter_cons, filter_nil.
  by destruct (decide (compare f d x = 0)).
Qed.

Lemma equivalent_filter f ds d d' :
  lawful f -> compare f d' d = 0 ->
  filter (fun x => compare f d' x = 0) ds
  = filter (fun x => compare f d x = 0) ds.
Proof.
  intros Hf Hc. apply list_filter_iff. intros x. split; intros H.
  - eapply (compare_trans _ Hf); [|exact H]. by apply (compare_sym _ Hf).
  - eapply (compare_trans _ Hf); [exact Hc|exact H].
Qed.

Lemma first_equivalent_snoc f seen x d :
  Forall (fun y => is_null y = false) seen ->
  first_equivalent f (seen ++ [x]) d =
  if is_null (first_equivalent f seen d)
  then (if decide (compare f d x = 0) then x else NULL)
  else first_equivalent f seen d.
Proof.
  intros Hn. unfold first_equivalent. rewrite filter_app.
  destruct (filter (fun y => compare f d y = 0) seen) as [|y l] eqn:E.
  - simpl. rewrite filter_cons, filter_nil.
    by destruct (decide (compare f d x = 0)).
  - simpl.
    assert (y ∈ seen) as Hy.
    { eapply (list_elem_of_filter (fun y => compare f d y = 0)).
      rewrite E. apply elem_of_cons. by left. }
    rewrite Forall_forall in Hn. by rewrite (Hn y Hy).
Qed.

(** A run of insertions, seen through [htLookUp]: if the lookups of a
    table report the first pointers and the numbers of occurrences of the
    classes of [seen], then after the insertion of [ds] they report those
    of [seen ++ ds], and the insertions return the running counts. *)
Lemma run_lookup f t seen ds :
  lawful f -> functions t = f -> wf t ->
  Forall (fun y => is_null y = false) seen ->
  Forall (fun y => is_null y = false) ds ->
  total t + Z.of_nat (length ds) <= INT_MAX ->
  (forall d, is_null d = false ->
     lookup_entry t d
     = mkEntry (first_equivalent f seen d) (occurrences f seen d)) ->
  exists t',
    htAddAll t ds = Ok (running_counts f seen ds, t') /\ wf t' /\
    functions t' = f /\ total t' = total t + Z.of_nat (length ds) /\
    forall d, is_null d = false ->
      lookup_entry t' d
      = mkEntry (first_equivalent f (seen ++ ds) d)
                (occurrences f (seen ++ ds) d).
Proof.
  intros Hf. revert t seen.
  induction ds as [|x ds IH]; intros t seen Ef Hwf Hseen Hds Ht Hinv.
  - exists t. rewrite app_nil_r. cbn [length] in *.
    split; [reflexivity|]. split; [exact Hwf|]. split; [exact Ef|].
    split; [lia|exact Hinv].
  - apply Forall_cons in Hds as [Hx Hds].
    rewrite length_cons, Nat2Z.inj_succ in Ht.
    assert (lawful (functions t)) as Hf' by by rewrite Ef.
    destruct (htAdd_lookup t x Hf' Hwf Hx ltac:(lia))
      as (t1 & E1 & Hwf1 & Ef1 & Ht1 & Hl1).
    destruct (IH t1 (seen ++ [x])) as (t' & E' & Hwf' & Ef' & Ht' & Hl').
    + by rewrite Ef1.
    + exact Hwf1.
    + apply Forall_app. split; [exact Hseen|]. by apply Forall_singleton.
    + exact Hds.
    + lia.
    + intros d Hd. rewrite (Hl1 d Hd), Ef. rewrite (Hinv x Hx).
      cbn [data frequency].
      rewrite occurrences_app, occurrences_one, first_equivalent_snoc by done.
      case_decide as Hc.
      * unfold first_equivalent, occurrences.
        rewrite (equivalent_filter f seen x d Hf Hc).
        apply (f_equal2 mkEntry); reflexivity.
      * rewrite (Hinv d Hd), Z.add_0_r. apply (f_equal2 mkEntry); [|reflexivity].
        by destruct (first_equivalent f seen d).
    + exists t'. cbn [htAddAll running_counts]. rewrite E1.
      cbn [mbind result_bind]. rewrite E'. cbn [mbind result_bind].
      rewrite (Hinv x Hx). cbn [frequency].
      rewrite <- (assoc_L (++)) in Hl'.
      split; [reflexivity|]. split; [exact Hwf'|]. split; [exact Ef'|].
      split; [rewrite Ht', Ht1, length_cons, Nat2Z.inj_succ; lia|exact Hl'].
Qed.

End Runs.

Section Reachable.
Context {V : Type}.
Implicit Types (t : HashTable V) (f : HTFunctions V) (d : ptr V)
  (e : HTEntry V) (ds seen : list (ptr V)).

Lemma first_equivalent_cases f ds d :
  (Forall (fun y => compare f d y <> 0) ds /\
   first_equivalent f ds d = NULL /\ occurrences f ds d = 0) \/
  (exists ds1 y ds2,
     ds = ds1 ++ y :: ds2 /\ Forall (fun z => compare f d z <> 0) ds1 /\
     compare f d y = 0 /\ first_equivalent f ds d = y /\
     1 <= occurrences f ds d).
Proof.
  induction ds as [|x ds IH].
  - left. by repeat split.
  - destruct (decide (compare f d x = 0)) as [Hc|Hc].
    + right. exists [], x, ds. split; [done|]. split; [done|]. split; [done|].
      unfold first_equivalent, occurrences. rewrite filter_cons_True by done.
      split; [done|]. rewrite length_cons. lia.
    + unfold first_equivalent, occurrences in *.
      rewrite filter_cons_False by done.
      destruct IH as [(H1 & H2 & H3)|(ds1 & y & ds2 & -> & H1 & H2 & H3 & H4)].
      * left. split; [by apply Forall_cons|done].
      * right. exists (x :: ds1), y, ds2. split; [done|].
        split; [by apply Forall_cons|done].
Qed.

Lemma running_counts_lookup f seen ds (i : nat) d :
  ds !! i = Some d ->
  running_counts f seen ds !! i
  = Some (occurrences f (seen ++ take i ds) d + 1).
Proof.
  revert seen i. induction ds as [|x ds IH]; intros seen i E; [done|].
  destruct i as [|i].
  - injection E as ->. cbn [running_counts take]. by rewrite app_nil_r.
  - cbn [running_counts take]. simpl in E. rewrite lookup_cons.
    rewrite (IH (seen ++ [x]) i E). by rewrite <- (assoc_L (++)).
Qed.

Lemma length_running_counts f seen ds :
  length (running_counts f seen ds) = length ds.
Proof.
  revert seen. induction ds as [|x ds IH]; intros seen; [done|].
  cbn [running_counts length]. by rewrite IH.
Qed.

(** A table made by [htCreate] and filled by a run of insertions. *)
Lemma reachable_run f src n x t0 ds frs t :
  lawful f -> Forall is_unsigned src -> n <= INT_MAX ->
  Forall (fun s => s <= INT_MAX) (take (Z.to_nat n) src) ->
  htCreate f src n x = Ok t0 ->
  htAddAll t0 ds = Ok (frs, t) ->
  Z.of_nat (length ds) <= INT_MAX ->
  frs = running_counts f [] ds /\ wf t /\ functions t = f /\
  total t = Z.of_nat (length ds) /\
  forall d, is_null d = false ->
    lookup_entry t d = mkEntry (first_equivalent f ds d) (occurrences f ds d).
Proof.
  intros Hf Hu Hn Hs E0 E Hl.
  destruct (htCreate_wf f src n x t0 Hu Hn Hs E0) as (Hwf0 & He0 & Hf0).
  pose proof (htAddAll_nonnull t0 ds frs t E) as Hds.
  assert (total t0 = 0) as Ht0 by by rewrite (wf_total t0 Hwf0), He0.
  destruct (run_lookup f t0 [] ds Hf Hf0 Hwf0 (Forall_nil_2 _) Hds)
    as (t' & E' & Hwf' & Ef' & Ht' & Hl').
  - lia.
  - intros d Hd. apply lookup_entry_absent. unfold absent. by rewrite He0.
  - rewrite E in E'. injection E' as -> ->.
    split; [reflexivity|]. split; [exact Hwf'|]. split; [exact Ef'|].
    split; [lia|exact Hl'].
Qed.

End Reachable.

(** ** Sample runs *)

Lemma created_runs (ds : list (ptr string)) :
  Forall (fun d => is_null d = false) ds ->
  Z.of_nat (length ds) <= INT_MAX ->
  exists frs t, htAddAll Demo.created ds = Ok (frs, t).
Proof.
  intros Hds Hl.
  destruct (htAddAll_spec Demo.created ds stringFunctions_lawful created_wf Hds)
    as (frs & t & E & _); [exact Hl|].
  by exists frs, t.
Qed.

Lemma mixed_nonnull :
  Forall (fun d : ptr string => is_null d = false) Cases.mixed.
Proof. repeat constructor. Qed.

Lemma sample_int : 3 <= INT_MAX.
Proof. unfold INT_MAX. lia. Qed.

Lemma sample_sizes_int :
  Forall (fun s => s <= INT_MAX) (take (Z.to_nat 3) Demo.schedule).
Proof. repeat constructor; unfold INT_MAX; lia. Qed.

(** ** Insertions and lookups *)

(** X2 (lookup after a run of insertions).  In a table made by
    [htCreate] and filled by the insertions [ds], the lookup of non-null
    data [d] returns the number of elements of [ds] equivalent to [d] as
    the frequency and the first such element as the data pointer: later
    equivalent pointers are counted, not stored.  If no element is
    equivalent the result is the null entry with frequency 0. *)
Theorem lookup_after_insertions {V} (f : HTFunctions V) (src : list Z)
    (n : Z) (x : Float32.float) (t0 t : HashTable V) (ds : list (ptr V))
    (frs : list Z) (d : ptr V) :
  lawful f -> Forall is_unsigned src -> is_int n ->
  Forall (fun s => s <= INT_MAX) (take (Z.to_nat n) src) ->
  htCreate f src n x = Ok t0 ->
  htAddAll t0 ds = Ok (frs, t) ->
  Z.of_nat (length ds) <= INT_MAX ->
  is_null d = false ->
  htLookUp t d
  = Ok (mkEntry (first_equivalent f ds d) (occurrences f ds d), t) /\
  ((Forall (fun y => compare f d y <> 0) ds /\
    first_equivalent f ds d = NULL /\ occurrences f ds d = 0) \/
   (exists ds1 y ds2,
      ds = ds1 ++ y :: ds2 /\ Forall (fun z => compare f d z <> 0) ds1 /\
      compare f d y = 0 /\ first_equivalent f ds d = y /\
      1 <= occurrences f ds d)).
Proof.
  intros Hf Hu [_ Hn] Hs E0 E Hl Hd.
  destruct (reachable_run f src n x t0 ds frs t Hf Hu Hn Hs E0 E Hl)
    as (_ & _ & _ & _ & Hlook).
  split; [|apply first_equivalent_cases].
  rewrite (htLookUp_entry t d Hd). by rewrite (Hlook d Hd).
Qed.

Lemma lookup_after_insertions_witness :
  exists t,
    htLookUp t (Some "a"%string) = Ok (mkEntry (Some "a"%string) 3, t) /\
    htLookUp t (Some "z"%string) = Ok (mkEntry NULL 0, t).
Proof.
  assert (is_int 3) as Hn by (unfold is_int, INT_MIN, INT_MAX; lia).
  assert (Z.of_nat (length Cases.mixed) <= INT_MAX) as Hl
    by (vm_compute; discriminate).
  destruct (created_runs Cases.mixed mixed_nonnull Hl) as (frs & t & E).
  exists t. split.
  - exact (proj1 (lookup_after_insertions StringClient.stringFunctions
             Demo.schedule 3 Float32.f0_49 Demo.created t Cases.mixed frs
             (Some "a"%string) stringFunctions_lawful schedule_unsigned Hn
             sample_sizes_int created_run E Hl eq_refl)).
  - exact (proj1 (lookup_after_insertions StringClient.stringFunctions
             Demo.schedule 3 Float32.f0_49 Demo.created t Cases.mixed frs
             (Some "z"%string) stringFunctions_lawful schedule_unsigned Hn
             sample_sizes_int created_run E Hl eq_refl)).
Defined.

(** X3 (returned frequencies).  In a run of insertions into a table made
    by [htCreate], the call that inserts the element at position [i]
    returns the number of elements equivalent to it among the first
    [i + 1]; the run returns one frequency for each element. *)
Theorem insertion_returns_running_count {V} (f : HTFunctions V)
    (src : list Z) (n : Z) (x : Float32.float) (t0 t : HashTable V)
    (ds : list (ptr V)) (frs : list Z) :
  lawful f -> Forall is_unsigned src -> is_int n ->
  Forall (fun s => s <= INT_MAX) (take (Z.to_nat n) src) ->
  htCreate f src n x = Ok t0 ->
  htAddAll t0 ds = Ok (frs, t) ->
  Z.of_nat (length ds) <= INT_MAX ->
  frs = running_counts f [] ds /\
  length frs = length ds /\
  forall (i : nat) d, ds !! i = Some d ->
    frs !! i = Some (occurrences f (take (S i) ds) d).
Proof.
  intros Hf Hu [_ Hn] Hs E0 E Hl.
  destruct (reachable_run f src n x t0 ds frs t Hf Hu Hn Hs E0 E Hl)
    as (-> & _).
  split; [reflexivity|]. split; [apply length_running_counts|].
  intros i d Hi. rewrite (running_counts_lookup f [] ds i d Hi).
  rewrite app_nil_l, (take_S_r ds i d Hi), occurrences_app, occurrences_one.
  rewrite decide_True by apply (compare_refl _ Hf). reflexivity.
Qed.

Lemma insertion_returns_running_count_witness :
  exists t, htAddAll Demo.created Cases.mixed = Ok ([1; 1; 2; 1; 3; 2], t).
Proof.
  assert (is_int 3) as Hn by (unfold is_int, INT_MIN, INT_MAX; lia).
  assert (Z.of_nat (length Cases.mixed) <= INT_MAX) as Hl
    by (vm_compute; discriminate).
  destruct (created_runs Cases.mixed mixed_nonnull Hl) as (frs & t & E).
  exists t. rewrite E.
  apply (f_equal (fun l => Ok (l, t))).
  exact (proj1 (insertion_returns_running_count StringClient.stringFunctions
           Demo.schedule 3 Float32.f0_49 Demo.created t Cases.mixed frs
           stringFunctions_lawful schedule_unsigned Hn sample_sizes_int
           created_run E Hl)).
Defined.

(** X4 (an insertion and the lookups).  On a well-formed table with
    lawful callbacks, [htAdd] of non-null data [d] returns one more than
    the frequency a lookup of [d] reported before.  Afterwards the lookup
    of any data equivalent to [d] returns that frequency, under the pointer
    the class already had or under [d] if the class is new; the lookup of
    any other data returns the entry it returned before the insertion. *)
Theorem insertion_lookup_frame {V} (t : HashTable V) (d : ptr V) :
  lawful (functions t) -> wf t -> is_null d = false -> total t < INT_MAX ->
  exists e0 e t',
    htLookUp t d = Ok (e0, t) /\
    htAdd t d = Ok (frequency e0 + 1, t') /\
    e = mkEntry (if is_null (data e0) then d else data e0)
                (frequency e0 + 1) /\
    (forall d', is_null d' = false -> compare (functions t) d' d = 0 ->
       htLookUp t' d' = Ok (e, t')) /\
    (forall d', is_null d' = false -> compare (functions t) d' d <> 0 ->
       exists e', htLookUp t d' = Ok (e', t) /\ htLookUp t' d' = Ok (e', t')).
Proof.
  intros Hf Hwf Hd Ht.
  destruct (htAdd_lookup t d Hf Hwf Hd Ht) as (t' & E & _ & _ & _ & Hl).
  eexists (lookup_entry t d), _, t'.
  split; [by apply htLookUp_entry|]. split; [exact E|]. split; [reflexivity|].
  split.
  - intros d' Hd' Hc. rewrite (htLookUp_entry t' d' Hd'), (Hl d' Hd').
    by rewrite decide_True.
  - intros d' Hd' Hc. exists (lookup_entry t d').
    split; [by apply htLookUp_entry|].
    rewrite (htLookUp_entry t' d' Hd'), (Hl d' Hd').
    by rewrite decide_False.
Qed.

Lemma insertion_lookup_frame_witness :
  exists t',
    htAdd Demo.five (Some "a"%string) = Ok (2, t') /\
    htLookUp t' (Some "a"%string) = Ok (mkEntry (Some "a"%string) 2, t') /\
    exists e',
      htLookUp Demo.five (Some "b"%string) = Ok (e', Demo.five) /\
      htLookUp t' (Some "b"%string) = Ok (e', t').
Proof.
  assert (total Demo.five < INT_MAX) as Ht by (vm_compute; reflexivity).
  assert (lookup_entry Demo.five (Some "a"%string)
          = mkEntry (Some "a"%string) 1) as Ea by (vm_compute; reflexivity).
  destruct five_spec as (Hwf & Ef & _).
  assert (lawful (functions Demo.five)) as Hf.
  { rewrite Ef. exact stringFunctions_lawful. }
  destruct (insertion_lookup_frame Demo.five (Some "a"%string) Hf Hwf
              eq_refl Ht) as (e0 & e & t' & E0 & E & -> & Hsame & Hother).
  rewrite (htLookUp_entry Demo.five (Some "a"%string) eq_refl) in E0.
  apply ok_pair_inj in E0 as [E0 _]. rewrite <- E0, Ea in E, Hsame.
  exists t'. split; [exact E|]. split.
  - apply (Hsame (Some "a"%string) eq_refl). rewrite Ef. reflexivity.
  - apply (Hother (Some "b"%string) eq_refl). rewrite Ef. discriminate.
Defined.

(** X5 (counters and layout of a filled table).  In a table made by
    [htCreate] and filled by the insertions [ds], [htTotalEntries] is the
    number of insertions and the sum of the frequencies of the entries,
    [htUniqueEntries] is the number of entries and is at most the total,
    the bucket array has one chain per unit of capacity, and every entry
    hangs from the chain numbered by its hash modulo the capacity, holds
    non-null data and a frequency between 1 and the number of
    insertions. *)
Theorem filled_table_layout {V} (f : HTFunctions V) (src : list Z) (n : Z)
    (x : Float32.float) (t0 t : HashTable V) (ds : list (ptr V))
    (frs : list Z) :
  lawful f -> Forall is_unsigned src -> is_int n ->
  Forall (fun s => s <= INT_MAX) (take (Z.to_nat n) src) ->
  htCreate f src n x = Ok t0 ->
  htAddAll t0 ds = Ok (frs, t) ->
  Z.of_nat (length ds) <= INT_MAX ->
  htTotalEntries t = Z.of_nat (length ds) /\
  htTotalEntries t = sum_frequency (entries t) /\
  htUniqueEntries t = Z.of_nat (length (entries t)) /\
  htUniqueEntries t <= htTotalEntries t /\
  Z.of_nat (length (ht t)) = htCapacity t /\
  forall (i : nat) c e, ht t !! i = Some c -> e ∈ c ->
    Z.of_nat i = hash f (data e) mod htCapacity t /\
    is_null (data e) = false /\
    1 <= frequency e <= Z.of_nat (length ds).
Proof.
  intros Hf Hu [_ Hn] Hs E0 E Hl.
  destruct (reachable_run f src n x t0 ds frs t Hf Hu Hn Hs E0 E Hl)
    as (_ & Hwf & Ef & Ht & _).
  destruct (counters_unsigned t Hwf) as [-> ->].
  pose proof (numItem_bound t Hwf) as Hb.
  split; [exact Ht|]. split; [apply (wf_total t Hwf)|].
  split; [apply (wf_numItem t Hwf)|]. split; [lia|].
  split; [apply (wf_length t Hwf)|].
  intros i c e Hc He.
  assert (e ∈ entries t) as Hin.
  { apply elem_of_concat_lookup. by exists i, c. }
  pose proof (wf_nonnull t Hwf) as Hnn. pose proof (wf_frequency t Hwf) as Hq.
  pose proof (frequency_le_sum (entries t) e Hq Hin) as Hle.
  rewrite <- (wf_total t Hwf), Ht in Hle.
  rewrite Forall_forall in Hnn, Hq.
  split; [|split; [by apply Hnn|split; [by apply Hq|exact Hle]]].
  rewrite <- (wf_bucket t Hwf i c e Hc He), <- Ef.
  apply bucket_of_mod, cur_size_range; [apply Hwf|apply (wf_sizes_int t Hwf)].
Qed.

Lemma filled_table_layout_witness :
  exists t,
    htAddAll Demo.created Cases.mixed = Ok ([1; 1; 2; 1; 3; 2], t) /\
    htTotalEntries t = 6 /\ htUniqueEntries t <= 6.
Proof.
  assert (is_int 3) as Hn by (unfold is_int, INT_MIN, INT_MAX; lia).
  assert (Z.of_nat (length Cases.mixed) <= INT_MAX) as Hl
    by (vm_compute; discriminate).
  destruct (created_runs Cases.mixed mixed_nonnull Hl) as (frs & t & E).
  destruct (reachable_run StringClient.stringFunctions Demo.schedule 3
              Float32.f0_49 Demo.created Cases.mixed frs t
              stringFunctions_lawful schedule_unsigned sample_int
              sample_sizes_int created_run E Hl) as (Efrs & _).
  destruct (filled_table_layout StringClient.stringFunctions Demo.schedule 3
              Float32.f0_49 Demo.created t Cases.mixed frs
              stringFunctions_lawful schedule_unsigned Hn sample_sizes_int
              created_run E Hl) as (H1 & _ & _ & H4 & _).
  exists t. split; [|split].
  - rewrite E, Efrs. reflexivity.
  - exact H1.
  - rewrite H1 in H4. exact H4.
Defined.

(** ** New entries and returned frequencies *)

Section Firsts.
Context {V : Type}.
Implicit Types (t : HashTable V) (f : HTFunctions V) (d : ptr V)
  (ds seen : list (ptr V)).

(** The unique count grows with the insertions that return 1. *)
Lemma run_unique f t seen ds :
  lawful f -> functions t = f -> wf t ->
  Forall (fun y => is_null y = false) seen ->
  Forall (fun y => is_null y = false) ds ->
  total t + Z.of_nat (length ds) <= INT_MAX ->
  (forall d, is_null d = false ->
     lookup_entry t d
     = mkEntry (first_equivalent f seen d) (occurrences f seen d)) ->
  exists t',
    htAddAll t ds = Ok (running_counts f seen ds, t') /\
    numItem t'
    = numItem t
      + Z.of_nat (length (filter (fun fr => fr = 1)
                                 (running_counts f seen ds))).
Proof.
  intros Hf. revert t seen.
  induction ds as [|x ds IH]; intros t seen Ef Hwf Hseen Hds Ht Hinv.
  - exists t. split; [reflexivity|]. simpl. lia.
  - apply Forall_cons in Hds as [Hx Hds].
    rewrite length_cons, Nat2Z.inj_succ in Ht.
    assert (lawful (functions t)) as Hf' by by rewrite Ef.
    destruct (run_lookup f t seen [x] Hf Ef Hwf Hseen)
      as (t1 & E1 & Hwf1 & Ef1 & Ht1 & Hl1).
    { by apply Forall_singleton. }
    { simpl length. lia. }
    { exact Hinv. }
    cbn [htAddAll running_counts] in E1.
    destruct (htAdd_spec t x Hf' Hwf Hx ltac:(lia))
      as (t2 & E2 & _ & _ & _ & Hn2 & _).
    rewrite E2 in E1. cbn [mbind result_bind] in E1.
    apply ok_pair_inj in E1 as [_ ->].
    rewrite lookup_entry_frequency, (Hinv x Hx) in E2, Hn2.
    cbn [frequency] in E2, Hn2.
    destruct (IH t1 (seen ++ [x]) Ef1 Hwf1) as (t' & E' & Hn').
    + apply Forall_app. split; [exact Hseen|]. by apply Forall_singleton.
    + exact Hds.
    + simpl length in Ht1. lia.
    + exact Hl1.
    + exists t'. cbn [htAddAll running_counts]. rewrite E2.
      cbn [mbind result_bind]. rewrite E'. cbn [mbind result_bind].
      split; [reflexivity|]. rewrite Hn', Hn2.
      pose proof (occurrences_nonneg f seen x) as Hge.
      rewrite filter_cons. repeat case_decide; simpl length; lia.
Qed.

End Firsts.

(** X19 (new entries are the insertions that return 1).  In a table
    made by [htCreate] and filled by a run of insertions,
    [htUniqueEntries] is the number of insertions that returned 1 and
    [htTotalEntries] the number of all of them. *)
Theorem unique_entries_are_first_insertions {V} (f : HTFunctions V)
    (src : list Z) (n : Z) (x : Float32.float) (t0 t : HashTable V)
    (ds : list (ptr V)) (frs : list Z) :
  lawful f -> Forall is_unsigned src -> is_int n ->
  Forall (fun s => s <= INT_MAX) (take (Z.to_nat n) src) ->
  htCreate f src n x = Ok t0 ->
  htAddAll t0 ds = Ok (frs, t) ->
  Z.of_nat (length ds) <= INT_MAX ->
  htUniqueEntries t = Z.of_nat (length (filter (fun fr => fr = 1) frs)) /\
  htTotalEntries t = Z.of_nat (length frs) /\
  Forall (fun fr => 1 <= fr) frs.
Proof.
  intros Hf Hu [_ Hn] Hs E0 E Hl.
  destruct (htCreate_wf f src n x t0 Hu Hn Hs E0) as (Hwf0 & He0 & Hf0).
  destruct (reachable_run f src n x t0 ds frs t Hf Hu Hn Hs E0 E Hl)
    as (Efrs & Hwf & _ & Ht & _).
  pose proof (htAddAll_nonnull t0 ds frs t E) as Hds.
  assert (total t0 = 0) as Ht0 by by rewrite (wf_total t0 Hwf0), He0.
  assert (numItem t0 = 0) as Hn0 by by rewrite (wf_numItem t0 Hwf0), He0.
  destruct (run_unique f t0 [] ds Hf Hf0 Hwf0 (Forall_nil_2 _) Hds)
    as (t' & E' & Hn').
  - lia.
  - intros d Hd. apply lookup_entry_absent. unfold absent. by rewrite He0.
  - rewrite E in E'. apply ok_pair_inj in E' as [_ <-].
    destruct (counters_unsigned t Hwf) as [-> ->].
    rewrite Hn', Hn0, Ht, Efrs, length_running_counts.
    split; [lia|]. split; [reflexivity|].
    clear. generalize (@nil (ptr V)).
    induction ds as [|d ds IH]; intros seen; [constructor|].
    cbn [running_counts]. constructor; [|apply IH].
    pose proof (occurrences_nonneg f seen d). lia.
Qed.

Lemma unique_entries_are_first_insertions_witness :
  exists t,
    htAddAll Demo.created Cases.mixed = Ok ([1; 1; 2; 1; 3; 2], t) /\
    htUniqueEntries t = 3 /\ htTotalEntries t = 6.
Proof.
  assert (is_int 3) as Hn by (unfold is_int, INT_MIN, INT_MAX; lia).
  assert (Z.of_nat (length Cases.mixed) <= INT_MAX) as Hl
    by (vm_compute; discriminate).
  destruct (created_runs Cases.mixed mixed_nonnull Hl) as (frs & t & E).
  destruct (reachable_run StringClient.stringFunctions Demo.schedule 3
              Float32.f0_49 Demo.created Cases.mixed frs t
              stringFunctions_lawful schedule_unsigned sample_int
              sample_sizes_int created_run E Hl) as (Efrs & _).
  destruct (unique_entries_are_first_insertions
              StringClient.stringFunctions Demo.schedule 3
              Float32.f0_49 Demo.created t Cases.mixed frs
              stringFunctions_lawful schedule_unsigned Hn sample_sizes_int
              created_run E Hl) as (H1 & H2 & _).
  assert (frs = [1; 1; 2; 1; 3; 2]) as Efrs'.
  { rewrite Efrs. vm_compute. reflexivity. }
  exists t. rewrite Efrs' in H1, H2. rewrite E, Efrs'.
  split; [reflexivity|]. split; [exact H1|exact H2].
Defined.

(** ** Growth and the lookups *)

(** X6 (growth is invisible to lookups).  On a well-formed table with
    lawful callbacks, the lookup of any non-null data, present or not,
    returns the same entry before and after the growth check of an
    insertion, and before and after a rehash when the schedule has a next
    size, although the entries hang from other buckets. *)
Theorem growth_keeps_lookups {V} (t : HashTable V) (d : ptr V) :
  lawful (functions t) -> wf t -> is_null d = false ->
  exists e,
    htLookUp t d = Ok (e, t) /\
    htLookUp (checkRehash t) d = Ok (e, checkRehash t) /\
    (index t < numSizes t - 1 -> htLookUp (rehash t) d = Ok (e, rehash t)).
Proof.
  intros Hf Hwf Hd. exists (lookup_entry t d).
  split; [by apply htLookUp_entry|]. split.
  - destruct (checkRehash_wf t Hf Hwf) as (Hwf' & Hp & Ef & _).
    rewrite (htLookUp_entry _ d Hd).
    by rewrite (lookup_entry_perm t (checkRehash t) d Hf Hwf Hwf' Ef Hp).
  - intros Hi. rewrite (htLookUp_entry _ d Hd).
    pose proof (rehash_wf t Hwf Hi Hf) as Hwf'.
    pose proof (rehash_entries t Hwf Hi) as Hp.
    destruct (rehash_frame t) as (Ef & _).
    by rewrite (lookup_entry_perm t (rehash t) d Hf Hwf Hwf' Ef Hp).
Qed.

Lemma growth_keeps_lookups_witness :
  htLookUp (rehash Demo.five) (Some "c"%string)
  = Ok (mkEntry (Some "c"%string) 1, rehash Demo.five) /\
  htLookUp (rehash Demo.five) (Some "z"%string)
  = Ok (notFound, rehash Demo.five).
Proof.
  assert (index Demo.five < numSizes Demo.five - 1) as Hi
    by (vm_compute; reflexivity).
  assert (lookup_entry Demo.five (Some "c"%string)
          = mkEntry (Some "c"%string) 1) as Ec by (vm_compute; reflexivity).
  assert (lookup_entry Demo.five (Some "z"%string) = notFound) as Ez
    by (vm_compute; reflexivity).
  destruct five_spec as (Hwf & Ef & _).
  assert (lawful (functions Demo.five)) as Hf.
  { rewrite Ef. exact stringFunctions_lawful. }
  split.
  - destruct (growth_keeps_lookups Demo.five (Some "c"%string) Hf Hwf eq_refl)
      as (e & E & _ & Hr).
    rewrite (htLookUp_entry Demo.five (Some "c"%string) eq_refl), Ec in E.
    apply ok_pair_inj in E as [<- _].
    exact (Hr Hi).
  - destruct (growth_keeps_lookups Demo.five (Some "z"%string) Hf Hwf eq_refl)
      as (e & E & _ & Hr).
    rewrite (htLookUp_entry Demo.five (Some "z"%string) eq_refl), Ez in E.
    apply ok_pair_inj in E as [<- _].
    exact (Hr Hi).
Defined.

(** ** Tables that do not grow *)

Section NoGrowth.
Context {V : Type}.
Implicit Types (t : HashTable V) (d : ptr V).

Lemma checkRehash_off t :
  wf_cursor t ->
  Float32.eqb (lf t) (Float32.of_Z 1) = true \/ index t = numSizes t - 1 ->
  checkRehash t = t.
Proof.
  intros Hc [H|H]; unfold checkRehash.
  - by rewrite H.
  - rewrite (numSizes_pred t Hc), H, Z.ltb_irrefl.
    by rewrite andb_false_r.
Qed.

Lemma htAddAll_off t ds frs t' :
  wf_cursor t ->
  Float32.eqb (lf t) (Float32.of_Z 1) = true \/ index t = numSizes t - 1 ->
  htAddAll t ds = Ok (frs, t') ->
  index t' = index t /\ sizes t' = sizes t.
Proof.
  revert t frs. induction ds as [|d ds IH]; intros t frs Hc Hoff E.
  - injection E as _ <-. done.
  - cbn [htAddAll] in E.
    destruct (htAdd t d) as [[fr t1]|] eqn:E1; [|discriminate E].
    cbn [mbind result_bind] in E.
    destruct (htAddAll t1 ds) as [[frs1 t2]|] eqn:E2; [|discriminate E].
    injection E as _ <-.
    destruct (htAdd_frame t d fr t1 E1) as (_ & Hs & Hn & Hl & Hi).
    destruct (htAdd_cursor t d fr t1 Hc E1) as (Hc1 & _).
    rewrite (checkRehash_off t Hc Hoff) in Hi.
    destruct (IH t1 frs1 Hc1) as [Hi2 Hs2]; [|done|].
    + rewrite Hl, Hi, Hn. exact Hoff.
    + split; [by rewrite Hi2|by rewrite Hs2].
Qed.

End NoGrowth.

(** X7 (growth switched off).  A table whose load factor is 1.0, or
    whose cursor is on the last size of the schedule, never grows: after
    any run of insertions the cursor and the capacity are what they
    were. *)
Theorem growth_disabled {V} (t t' : HashTable V) (ds : list (ptr V))
    (frs : list Z) :
  wf_cursor t ->
  Float32.eqb (lf t) (Float32.of_Z 1) = true \/ index t = numSizes t - 1 ->
  htAddAll t ds = Ok (frs, t') ->
  index t' = index t /\ htCapacity t' = htCapacity t.
Proof.
  intros Hc Hoff E.
  destruct (htAddAll_off t ds frs t' Hc Hoff E) as [Hi Hs].
  split; [exact Hi|]. unfold htCapacity, cur_size. by rewrite Hi, Hs.
Qed.

Lemma htAddAll_runs {V} (t : HashTable V) ds :
  Forall (fun d => is_null d = false) ds ->
  exists frs t', htAddAll t ds = Ok (frs, t').
Proof.
  intros Hds. destruct (htAddAll t ds) as [[frs t']|] eqn:E; [by eauto|].
  apply htAddAll_abort in E. rewrite Forall_forall in Hds.
  by apply Hds in E.
Qed.

Lemma fixed_cursor : wf_cursor Cases.fixed.
Proof.
  split; simpl; [done|by vm_compute| |lia].
  split; [repeat constructor; unfold UINT_MAX; lia|].
  intros [|[|i]] a b Ha Hb; simplify_eq/=; lia.
Qed.

Lemma sixteen_nonnull :
  Forall (fun d : ptr string => is_null d = false) Cases.sixteen.
Proof. repeat constructor. Qed.

Lemma growth_disabled_witness :
  exists frs t',
    htAddAll Cases.fixed Cases.sixteen = Ok (frs, t') /\ htCapacity t' = 10.
Proof.
  destruct (htAddAll_runs Cases.fixed Cases.sixteen sixteen_nonnull)
    as (frs & t' & E).
  exists frs, t'. split; [exact E|].
  exact (proj2 (growth_disabled Cases.fixed t' Cases.sixteen frs fixed_cursor
                  (or_introl eq_refl) E)).
Defined.

(** ** The cursor as a function of the unique count *)

Section Trajectory.
Context {V : Type}.
Implicit Types (t : HashTable V) (d : ptr V) (ds : list (ptr V)).

Lemma checkRehash_index t :
  wf_cursor t ->
  index (checkRehash t)
  = if growth_check (lf t) (sizes t) (numSizes t) (index t) (numItem t)
    then index t + 1 else index t.
Proof.
  intros Hc. unfold checkRehash, growth_check, cur_size.
  destruct (negb (Float32.eqb (lf t) (Float32.of_Z 1))
            && (index t <? to_int (numSizes t - 1))
            && Float32.ltb (lf t)
                 (Float32.div (Float32.of_Z (numItem t))
                    (Float32.of_Z (zlookup (sizes t) (index t) 0)))) eqn:E;
    [|reflexivity].
  apply andb_prop in E as [E _]. apply andb_prop in E as [_ E].
  apply Z.ltb_lt in E. rewrite (numSizes_pred t Hc) in E.
  destruct (rehash_frame t) as (_ & _ & _ & _ & _ & _ & ->).
  destruct Hc as [_ Hm _ Hx]. apply to_int_small. lia.
Qed.

(** Insertions of pairwise inequivalent data that the table does not
    hold: every one is a new entry, and the growth checks see the unique
    counts [numItem t], [numItem t + 1], ... *)
Lemma fresh_run t ds :
  lawful (functions t) -> wf t ->
  Forall (fun d => is_null d = false) ds ->
  inequivalent (functions t) ds -> Forall (absent t) ds ->
  total t + Z.of_nat (length ds) <= INT_MAX ->
  exists t',
    htAddAll t ds = Ok (replicate (length ds) 1, t') /\ wf t' /\
    functions t' = functions t /\ sizes t' = sizes t /\
    index t'
    = cursor_after (lf t) (sizes t) (numSizes t) (length ds)
        (index t) (numItem t) /\
    numItem t' = numItem t + Z.of_nat (length ds) /\
    total t' = total t + Z.of_nat (length ds).
Proof.
  revert t. induction ds as [|d ds IH]; intros t Hf Hwf Hn Hq Ha Ht.
  - exists t. cbn [length cursor_after replicate htAddAll].
    split; [reflexivity|]. split; [exact Hwf|]. split; [reflexivity|].
    split; [reflexivity|]. split; [reflexivity|]. split; simpl; lia.
  - apply Forall_cons in Hn as [Hd Hn]. apply Forall_cons in Ha as [Had Ha].
    destruct Hq as [Hdq Hq].
    rewrite length_cons, Nat2Z.inj_succ in Ht.
    destruct (htAdd_new t d Hf Hwf Hd Had ltac:(lia)) as (t1 & E1 & Hwf1 & Hp).
    destruct (htAdd_frame t d 1 t1 E1) as (Ef & Hs & Hns & Hl & Hi).
    rewrite (checkRehash_index t (wf_sched t Hwf)) in Hi.
    assert (numItem t1 = numItem t + 1) as Hn1.
    { rewrite (wf_numItem t1 Hwf1), (wf_numItem t Hwf), Hp, length_cons. lia. }
    assert (total t1 = total t + 1) as Ht1.
    { rewrite (wf_total t1 Hwf1), (wf_total t Hwf).
      rewrite (sum_frequency_perm _ _ Hp). simpl. lia. }
    destruct (IH t1) as (t' & E' & Hwf' & Ef' & Hs' & Hi' & Hn' & Ht').
    + by rewrite Ef.
    + exact Hwf1.
    + exact Hn.
    + by rewrite Ef.
    + rewrite Forall_forall in Ha, Hdq. apply Forall_forall. intros y Hy.
      unfold absent. rewrite Ef, Hp. apply Forall_cons. split.
      * cbn [data]. by apply Hdq.
      * by apply Ha.
    + lia.
    + exists t'. cbn [htAddAll length replicate cursor_after].
      rewrite E1. cbn [mbind result_bind]. rewrite E'.
      cbn [mbind result_bind].
      split; [reflexivity|]. split; [exact Hwf'|].
      split; [by rewrite Ef'|]. split; [by rewrite Hs'|].
      split; [by rewrite Hi', Hl, Hs, Hns, Hi, Hn1|].
      rewrite Nat2Z.inj_succ. lia.
Qed.

End Trajectory.

(** X8 (the capacity follows the unique count).  Insertions of pairwise
    inequivalent non-null data that the table does not hold all return 1,
    and the cursor they leave is a function of the schedule, the load
    factor, the cursor and the unique count before the run and the number
    of insertions: the growth check of each insertion sees one more unique
    entry than that of the one before. *)
Theorem capacity_follows_unique_count {V} (t : HashTable V)
    (ds : list (ptr V)) :
  lawful (functions t) -> wf t ->
  Forall (fun d => is_null d = false) ds ->
  inequivalent (functions t) ds -> Forall (absent t) ds ->
  total t + Z.of_nat (length ds) <= INT_MAX ->
  exists t',
    htAddAll t ds = Ok (replicate (length ds) 1, t') /\
    index t'
    = cursor_after (lf t) (sizes t) (numSizes t) (length ds)
        (index t) (numItem t) /\
    htCapacity t' = zlookup (sizes t) (index t') 0 /\
    htUniqueEntries t' = htUniqueEntries t + Z.of_nat (length ds) /\
    htTotalEntries t' = htTotalEntries t + Z.of_nat (length ds).
Proof.
  intros Hf Hwf Hn Hq Ha Ht.
  destruct (fresh_run t ds Hf Hwf Hn Hq Ha Ht)
    as (t' & E & Hwf' & _ & Hs & Hi & Hn' & Ht').
  exists t'. destruct (counters_unsigned t Hwf) as [-> ->].
  destruct (counters_unsigned t' Hwf') as [-> ->].
  split; [exact E|]. split; [exact Hi|].
  split; [unfold htCapacity, cur_size; by rewrite Hs|]. split; [exact Hn'|exact Ht'].
Qed.

Lemma sixteen_inequivalent :
  inequivalent StringClient.stringFunctions Cases.sixteen.
Proof.
  cbn [inequivalent Cases.sixteen].
  repeat match goal with
         | |- _ /\ _ => split
         | |- Forall _ (_ :: _) => apply Forall_cons; cbv beta
         | |- Forall _ [] => apply Forall_nil
         | |- True => exact I
         | |- _ <> _ => by vm_compute
         end.
Qed.

Lemma created_absent ds : Forall (absent Demo.created) ds.
Proof.
  induction ds as [|d ds IH]; [apply Forall_nil_2|].
  apply Forall_cons. split; [apply Forall_nil_2|exact IH].
Qed.

Lemma capacity_follows_unique_count_witness :
  exists t',
    htAddAll Demo.created Cases.sixteen = Ok (replicate 16 1, t') /\
    index t' = 2 /\ htUniqueEntries t' = 16.
Proof.
  assert (total Demo.created + Z.of_nat (length Cases.sixteen) <= INT_MAX)
    as Ht by (vm_compute; discriminate).
  destruct (capacity_follows_unique_count Demo.created Cases.sixteen
              stringFunctions_lawful created_wf sixteen_nonnull
              sixteen_inequivalent (created_absent _) Ht)
    as (t' & E & Hi & _ & Hu & _).
  exists t'. split; [exact E|]. split; [|exact Hu].
  rewrite Hi. vm_compute. reflexivity.
Defined.

Lemma cursor_testRehash (k : nat) :
  (k <= 16)%nat ->
  cursor_after Float32.f0_49 [10; 30; 999] 3 k 0 0
  = if (k <=? 5)%nat then 0 else if (k <=? 15)%nat then 1 else 2.
Proof.
  intros Hk.
  do 17 (destruct k as [|k]; [vm_compute; reflexivity|]). lia.
Qed.

(** X9 (the capacities [testRehash] expects).  With the schedule 10, 30,
    999 and the load factor 0.49, a table filled with up to sixteen
    pairwise inequivalent values has the capacity 10 while it holds at
    most five of them, 30 from the sixth to the fifteenth, and 999 with
    the sixteenth; all insertions return 1 and both counters equal the
    number of insertions. *)
Theorem testRehash_capacities {V} (f : HTFunctions V) (t0 : HashTable V)
    (ds : list (ptr V)) :
  lawful f ->
  htCreate f [10; 30; 999] 3 Float32.f0_49 = Ok t0 ->
  Forall (fun d => is_null d = false) ds ->
  inequivalent f ds -> (length ds <= 16)%nat ->
  exists t,
    htAddAll t0 ds = Ok (replicate (length ds) 1, t) /\
    htCapacity t
    = (if (length ds <=? 5)%nat then 10
       else if (length ds <=? 15)%nat then 30 else 999) /\
    htUniqueEntries t = Z.of_nat (length ds) /\
    htTotalEntries t = Z.of_nat (length ds).
Proof.
  intros Hf E0 Hn Hq Hk.
  destruct (htCreate_wf f [10; 30; 999] 3 Float32.f0_49 t0 schedule_unsigned
              sample_int sample_sizes_int E0) as (Hwf0 & He0 & Ef0).
  pose proof (htCreate_ok f Demo.schedule 3 Float32.f0_49 schedule_unsigned
                sample_int schedule_create_ok) as E1.
  change Demo.schedule with [10; 30; 999] in E1. rewrite E1 in E0.
  clear E1. injection E0 as E0.
  destruct (fresh_run t0 ds) as (t & E & Hwf & _ & Hs & Hi & Hu & Ht).
  - by rewrite Ef0.
  - exact Hwf0.
  - exact Hn.
  - by rewrite Ef0.
  - clear -He0. induction ds as [|d ds IH]; [apply Forall_nil_2|].
    apply Forall_cons. split; [|exact IH].
    unfold absent. rewrite He0. apply Forall_nil_2.
  - subst t0. cbn [total]. unfold INT_MAX. lia.
  - exists t. destruct (counters_unsigned t Hwf) as [-> ->].
    split; [exact E|]. subst t0. cbn [lf sizes numSizes index numItem total] in *.
    change (take (Z.to_nat 3) [10; 30; 999]) with [10; 30; 999] in *.
    rewrite (cursor_testRehash _ Hk) in Hi.
    split; [|split; [lia|lia]].
    unfold htCapacity, cur_size. rewrite Hs, Hi.
    destruct (length ds <=? 5)%nat; [reflexivity|].
    destruct (length ds <=? 15)%nat; reflexivity.
Qed.

Lemma testRehash_capacities_witness :
  exists t,
    htAddAll Demo.created Cases.sixteen = Ok (replicate 16 1, t) /\
    htCapacity t = 999 /\ htTotalEntries t = 16.
Proof.
  assert (length Cases.sixteen <= 16)%nat as Hk by (vm_compute; reflexivity).
  destruct (testRehash_capacities StringClient.stringFunctions Demo.created
              Cases.sixteen stringFunctions_lawful created_run
              sixteen_nonnull sixteen_inequivalent Hk)
    as (t & E & Hc & _ & Ht).
  exists t. split; [exact E|]. split; [exact Hc|exact Ht].
Defined.

(** ** The growth condition and rounding *)

Lemma htAddAll_lf {V} (t : HashTable V) ds frs t' :
  htAddAll t ds = Ok (frs, t') -> lf t' = lf t /\ numSizes t' = numSizes t.
Proof.
  revert t frs. induction ds as [|d ds IH]; intros t frs E.
  - apply ok_pair_inj in E as [_ <-]. done.
  - cbn [htAddAll] in E.
    destruct (htAdd t d) as [[fr t1]|] eqn:E1; [|discriminate E].
    cbn [mbind result_bind] in E.
    destruct (htAddAll t1 ds) as [[frs1 t2]|] eqn:E2; [|discriminate E].
    apply ok_pair_inj in E as [_ <-].
    destruct (htAdd_frame t d fr t1 E1) as (_ & _ & Hn & Hl & _).
    destruct (IH t1 frs1 E2) as [-> ->]. done.
Qed.

Lemma numberFunctions_lawful : lawful Rounding.numberFunctions.
Proof.
  split; cbn [Rounding.numberFunctions hash compare].
  - intros [k|]; [apply to_unsigned_range|by unfold is_unsigned, UINT_MAX].
  - intros d. by rewrite decide_True.
  - intros d1 d2. case_decide; [subst|done]. by rewrite decide_True.
  - intros d1 d2 d3. repeat case_decide; (done || congruence).
  - intros d1 d2. case_decide; [by subst|done].
Qed.

Lemma numbers_inequivalent (l : list nat) :
  NoDup l -> inequivalent Rounding.numberFunctions (Some <$> l).
Proof.
  induction 1 as [|k l Hk Hl IH]; [exact I|].
  cbn [fmap list_fmap inequivalent]. split; [|exact IH].
  apply Forall_fmap, Forall_forall. intros j Hj.
  cbn [Rounding.numberFunctions compare compose].
  rewrite decide_False; [done|]. intros E. injection E as ->. done.
Qed.

Lemma rounding_created_run :
  htCreate Rounding.numberFunctions Rounding.schedule 2 Rounding.f0_721
  = Ok Rounding.created.
Proof.
  apply htCreate_ok.
  - repeat constructor; unfold UINT_MAX; lia.
  - unfold INT_MAX. lia.
  - split; [lia|]. split; [done|].
    intros [|[|i]] Hi; try (exfalso; simpl in Hi; lia);
      split; vm_compute; done.
Qed.

Lemma rounding_created_wf :
  wf Rounding.created /\ entries Rounding.created = [].
Proof.
  destruct (htCreate_wf Rounding.numberFunctions Rounding.schedule 2
              Rounding.f0_721 Rounding.created) as (Hwf & He & _).
  - repeat constructor; unfold UINT_MAX; lia.
  - unfold INT_MAX. lia.
  - repeat constructor; unfold INT_MAX; lia.
  - exact rounding_created_run.
  - by split.
Qed.

(** The insertion of 16092 numbers into the table with the sizes 22319
    and 44641 and the load factor 0.721 leaves the capacity at 22319. *)
Lemma rounding_full_spec :
  htAddAll Rounding.created Rounding.values
  = Ok (replicate (length Rounding.values) 1, Rounding.full) /\
  wf Rounding.full /\ sizes Rounding.full = [22319; 44641] /\
  numSizes Rounding.full = 2 /\ lf Rounding.full = Rounding.f0_721 /\
  index Rounding.full = 0 /\ numItem Rounding.full = 16092.
Proof.
  assert (length Rounding.values = Z.to_nat 16092) as Hlen.
  { unfold Rounding.values. by rewrite length_fmap, length_seq. }
  assert (cursor_after Rounding.f0_721 [22319; 44641] 2 (Z.to_nat 16092) 0 0
          = 0) as Hcur by (vm_compute; reflexivity).
  destruct rounding_created_wf as [Hwf0 He0].
  destruct (fresh_run Rounding.created Rounding.values)
    as (t & E & Hwf & _ & Hs & Hi & Hn & _).
  - exact numberFunctions_lawful.
  - exact Hwf0.
  - unfold Rounding.values. apply Forall_fmap, Forall_forall. by intros k _.
  - apply numbers_inequivalent, NoDup_seq.
  - apply Forall_forall. intros d _. unfold absent. rewrite He0.
    apply Forall_nil_2.
  - rewrite Hlen. vm_compute. discriminate.
  - destruct (htAddAll_lf _ _ _ _ E) as [Hl Hns].
    assert (Rounding.full = t) as ->.
    { unfold Rounding.full, Rounding.after. rewrite E. reflexivity. }
    rewrite Hlen in Hi, Hn.
    split; [exact E|]. split; [exact Hwf|]. split; [exact Hs|].
    split; [exact Hns|]. split; [exact Hl|]. split; [|exact Hn].
    rewrite Hi. exact Hcur.
Qed.

(** The counterexample to C2 as it is worded.  The table with the sizes
    22319 and 44641 and the load factor 0.721 (as a [float]) that holds
    the 16092 numbers 0, ..., 16091 is built by [htCreate] and [htAdd].
    The load factor is not 1, there is a next size, and the quotient
    16092 / 22319 exceeds the load factor; but the [float] division rounds
    the quotient to the load factor itself, and no call of [htAdd] makes
    this table grow. *)
Lemma growth_trigger_counterexample :
  (exists frs,
     htCreate Rounding.numberFunctions Rounding.schedule 2 Rounding.f0_721
     = Ok Rounding.created /\
     htAddAll Rounding.created Rounding.values = Ok (frs, Rounding.full)) /\
  wf Rounding.full /\
  htUniqueEntries Rounding.full = 16092 /\ htCapacity Rounding.full = 22319 /\
  exact_growth_due Rounding.full /\
  Float32.div (Float32.of_Z (numItem Rounding.full))
              (Float32.of_Z (htCapacity Rounding.full))
  = lf Rounding.full /\
  (exists fr t', htAdd Rounding.full (Some (Z.to_nat 16092)) = Ok (fr, t')) /\
  (forall d fr t',
     htAdd Rounding.full d = Ok (fr, t') ->
     index t' = index Rounding.full /\ htCapacity t' = 22319).
Proof.
  destruct rounding_full_spec as (E & Hwf & Hs & Hns & Hl & Hi & Hn).
  assert (htCapacity Rounding.full = 22319) as Hcap.
  { unfold htCapacity, cur_size. rewrite Hs, Hi. reflexivity. }
  assert (Float32.div (Float32.of_Z 16092) (Float32.of_Z 22319)
          = Rounding.f0_721) as Hdiv by (vm_compute; reflexivity).
  split; [eexists; split; [exact rounding_created_run|exact E]|].
  split; [exact Hwf|].
  split; [destruct (counters_unsigned _ Hwf) as [_ ->]; exact Hn|].
  split; [exact Hcap|]. split; [|split; [|split]].
  - unfold exact_growth_due. rewrite Hcap, Hl, Hi, Hns, Hn.
    split; [reflexivity|]. split; [lia|]. vm_compute. reflexivity.
  - rewrite Hcap, Hl, Hn. exact Hdiv.
  - apply htAdd_nonnull.
  - intros d fr t' Ea.
    destruct (htAdd_frame _ d fr t' Ea) as (_ & Hs' & _ & _ & Hi').
    assert (~ growth_due Rounding.full) as Hno.
    { intros (_ & _ & H). rewrite Hcap, Hl, Hn, Hdiv in H.
      vm_compute in H. discriminate H. }
    rewrite (proj2 (checkRehash_due _ (wf_sched _ Hwf)) Hno) in Hi'.
    split; [exact Hi'|]. unfold htCapacity, cur_size.
    rewrite Hs', Hi', Hs, Hi. reflexivity.
Qed.

(** ** The snapshot and the lookups *)

(** X10 (the snapshot agrees with the lookups).  On a well-formed table
    with lawful callbacks [htToArray] returns null exactly when the table
    holds nothing; otherwise the array has [htUniqueEntries] elements whose
    frequencies add up to [htTotalEntries], the lookup of the data of each
    element returns that element, and the lookup of any non-null data
    returns an element of the array or, if none is equivalent, the null
    entry. *)
Theorem snapshot_agrees_with_lookups {V} (t : HashTable V) :
  lawful (functions t) -> wf t ->
  exists arr,
    htToArray t
    = (if htUniqueEntries t =? 0 then None else Some arr,
       htUniqueEntries t) /\
    Z.of_nat (length arr) = htUniqueEntries t /\
    sum_frequency arr = htTotalEntries t /\
    (forall e, e ∈ arr -> htLookUp t (data e) = Ok (e, t)) /\
    (forall d, is_null d = false ->
       exists e, htLookUp t d = Ok (e, t) /\
         ((e ∈ arr /\ compare (functions t) (data e) d = 0) \/
          (e = notFound /\
           Forall (fun e' => compare (functions t) (data e') d <> 0) arr))).
Proof.
  intros Hf Hwf. exists (entries t).
  destruct (counters_unsigned t Hwf) as [Et Eu].
  rewrite (htToArray_wf t Hwf), Eu, Et.
  split; [|split; [|split; [|split]]].
  - rewrite (wf_numItem t Hwf). apply (f_equal2 pair); [|reflexivity].
    by destruct (entries t).
  - symmetry. apply (wf_numItem t Hwf).
  - symmetry. apply (wf_total t Hwf).
  - intros e He. pose proof (wf_nonnull t Hwf) as Hn.
    rewrite Forall_forall in Hn.
    apply htLookUp_found; [done|done|by apply Hn|done|].
    apply (compare_refl _ Hf).
  - intros d Hd. exists (lookup_entry t d).
    split; [by apply htLookUp_entry|].
    destruct (lookup_entry_cases t d Hf Hwf Hd) as [[Ha E]|(He & Hc & _)].
    + right. by split.
    + left. by split.
Qed.

Lemma snapshot_agrees_with_lookups_witness :
  exists arr,
    htToArray Demo.five = (Some arr, 5) /\
    sum_frequency arr = 5 /\
    forall e, e ∈ arr -> htLookUp Demo.five (data e) = Ok (e, Demo.five).
Proof.
  assert (htUniqueEntries Demo.five = 5) as Eu by (vm_compute; reflexivity).
  assert (htTotalEntries Demo.five = 5) as Et by (vm_compute; reflexivity).
  destruct five_spec as (Hwf & Ef & _).
  assert (lawful (functions Demo.five)) as Hf.
  { rewrite Ef. exact stringFunctions_lawful. }
  destruct (snapshot_agrees_with_lookups Demo.five Hf Hwf)
    as (arr & H1 & _ & H3 & H4 & _).
  rewrite Eu in H1. rewrite Et in H3.
  exists arr. split; [exact H1|]. split; [exact H3|exact H4].
Defined.

(** ** The metrics and the counters *)

Section MetricsCounters.
Context {V : Type}.
Implicit Types (t : HashTable V) (b : list (list (HTEntry V))).

Lemma chain_total_concat b : chain_total b = Z.of_nat (length (concat b)).
Proof.
  induction b as [|c b IH]; [done|].
  rewrite chain_total_cons, IH. simpl concat. rewrite length_app. lia.
Qed.

Lemma nonempty_le_length b : nonempty_chains b <= Z.of_nat (length b).
Proof.
  induction b as [|c b IH]; [done|].
  rewrite nonempty_chains_cons, length_cons. destruct c; lia.
Qed.

Lemma longest_nonneg b : 0 <= longest_chain b.
Proof. unfold longest_chain. lia. Qed.

Lemma nonempty_nonneg b : 0 <= nonempty_chains b.
Proof. unfold nonempty_chains. lia. Qed.

Lemma total_le_product b :
  chain_total b <= nonempty_chains b * longest_chain b.
Proof.
  induction b as [|c b IH]; [done|].
  rewrite chain_total_cons, nonempty_chains_cons, longest_chain_cons.
  pose proof (nonempty_nonneg b). pose proof (longest_nonneg b).
  destruct c as [|e c].
  - simpl length. nia.
  - set (n := Z.of_nat (length (e :: c))). nia.
Qed.

Lemma htMetrics_wf t :
  wf t ->
  htMetrics t
  = mkMetrics (nonempty_chains (ht t)) (longest_chain (ht t))
      (Float32.div (Float32.of_Z (chain_total (ht t)))
                   (Float32.of_Z (nonempty_chains (ht t)))) /\
  chain_total (ht t) = numItem t /\ numItem t <= INT_MAX.
Proof.
  intros Hwf.
  assert (chain_total (ht t) = numItem t) as Hct.
  { rewrite chain_total_concat. symmetry. apply (wf_numItem t Hwf). }
  pose proof (numItem_bound t Hwf) as Hb.
  pose proof (wf_total_int t Hwf) as Hi.
  split; [|split; [exact Hct|lia]].
  rewrite htMetrics_unfold by apply (wf_length t Hwf).
  rewrite metrics_fold by (done || lia). rewrite !Z.add_0_l.
  pose proof (nonempty_le_total (ht t)). pose proof (longest_le_total (ht t)).
  rewrite Z.max_r by lia.
  by rewrite !to_unsigned_small by lia.
Qed.

End MetricsCounters.

(** X11 (the metrics and the counters).  On a well-formed table the
    number of non-empty chains [htMetrics] reports is at most the capacity
    and at most [htUniqueEntries], the longest chain is at most
    [htUniqueEntries], their product is at least [htUniqueEntries], the
    average is the [float] quotient of [htUniqueEntries] by the number of
    non-empty chains, and there is no non-empty chain exactly when the
    table holds nothing. *)
Theorem metrics_and_counters {V} (t : HashTable V) :
  wf t ->
  let m := htMetrics t in
  0 <= numberOfChains m <= htCapacity t /\
  numberOfChains m <= htUniqueEntries t /\
  0 <= maxChainLength m <= htUniqueEntries t /\
  htUniqueEntries t <= numberOfChains m * maxChainLength m /\
  avgChainLength m
  = Float32.div (Float32.of_Z (htUniqueEntries t))
                (Float32.of_Z (numberOfChains m)) /\
  (numberOfChains m = 0 <-> htUniqueEntries t = 0).
Proof.
  intros Hwf m. subst m.
  destruct (htMetrics_wf t Hwf) as (-> & Hct & Hi).
  destruct (counters_unsigned t Hwf) as [_ ->].
  cbn [numberOfChains maxChainLength avgChainLength].
  pose proof (nonempty_le_total (ht t)) as H1.
  pose proof (longest_le_total (ht t)) as H2.
  pose proof (total_le_product (ht t)) as H3.
  pose proof (nonempty_le_length (ht t)) as H4.
  rewrite (wf_length t Hwf) in H4. rewrite Hct in *.
  split; [unfold htCapacity; lia|]. split; [lia|]. split; [lia|].
  split; [exact H3|]. split; [reflexivity|]. nia.
Qed.

Lemma metrics_and_counters_witness :
  numberOfChains (htMetrics Demo.five) <= 5 /\
  5 <= numberOfChains (htMetrics Demo.five)
       * maxChainLength (htMetrics Demo.five).
Proof.
  assert (htUniqueEntries Demo.five = 5) as Eu by (vm_compute; reflexivity).
  destruct five_spec as (Hwf & _).
  destruct (metrics_and_counters Demo.five Hwf) as (_ & H2 & _ & H4 & _).
  rewrite Eu in H2, H4. split; [exact H2|exact H4].
Defined.

(** ** The chain an insertion touches *)

(** X12 (an insertion touches one chain).  On a well-formed table with
    lawful callbacks, after the growth check [htAdd] changes a single
    chain, the one numbered by the hash of the data modulo the capacity:
    if no entry of that chain is equivalent to the data, a new entry with
    frequency 1 is put in front of it and 1 is returned; otherwise the
    first equivalent entry gets its frequency incremented where it stands,
    keeps its data pointer, and the new frequency is returned. *)
Theorem insertion_touches_one_chain {V} (t : HashTable V) (d : ptr V) :
  lawful (functions t) -> wf t -> is_null d = false -> total t < INT_MAX ->
  exists (i : nat) c fr t',
    Z.of_nat i = hash (functions t) d mod htCapacity (checkRehash t) /\
    ht (checkRehash t) !! i = Some c /\
    htAdd t d = Ok (fr, t') /\
    ((unmatched (functions t) d c /\ fr = 1 /\
      ht t' = <[i := mkEntry d 1 :: c]> (ht (checkRehash t))) \/
     (exists c1 e c2,
        c = c1 ++ e :: c2 /\ unmatched (functions t) d c1 /\
        compare (functions t) (data e) d = 0 /\
        fr = frequency e + 1 /\
        ht t'
        = <[i := c1 ++ mkEntry (data e) (frequency e + 1) :: c2]>
            (ht (checkRehash t)))).
Proof.
  intros Hf Hwf Hd Ht.
  destruct (checkRehash_wf t Hf Hwf) as (Hwf1 & _ & Ef & _ & Et).
  rewrite (htAdd_unfold t d Hd), <- Ef.
  set (t1 := checkRehash t) in *.
  destruct (wf_slot t1 d Hwf1) as (i & c & Hb & Hc).
  exists i, c. do 2 eexists.
  split; [|split; [exact Hc|split; [reflexivity|]]].
  { rewrite <- Hb. apply bucket_of_mod, cur_size_range;
      [apply Hwf1|apply (wf_sizes_int t1 Hwf1)]. }
  rewrite Hb. unfold addTail.
  cbn [functions set_total set_numItem ht numItem total].
  rewrite (zlookup_Some _ _ _ _ Hc), !zupdate_nat.
  destruct (scan_cases (functions t1) c d) as [Hu|(c1 & e & c2 & -> & Hu & He)].
  - left. rewrite (addTail_loop_None _ _ _ Hu). cbn [fst snd ht set_ht].
    split; [exact Hu|]. split; [|reflexivity].
    unfold INT_MAX. by rewrite to_int_small, to_unsigned_small by (unfold INT_MAX; lia).
  - right. exists c1, e, c2. rewrite (addTail_loop_Some _ _ _ _ _ Hu He).
    rewrite zupdate_nat. cbn [fst snd ht set_ht].
    assert (e ∈ entries t1) as Hin.
    { apply elem_of_concat_lookup. exists i, (c1 ++ e :: c2). split; [exact Hc|].
      apply elem_of_app. right. apply elem_of_cons. by left. }
    pose proof (wf_frequency t1 Hwf1) as Hq.
    pose proof (frequency_le_sum (entries t1) e Hq Hin) as Hle.
    rewrite <- (wf_total t1 Hwf1), Et in Hle.
    rewrite Forall_forall in Hq. specialize (Hq e Hin).
    rewrite (to_unsigned_small (frequency e + 1)) by lia.
    split; [reflexivity|]. split; [exact Hu|]. split; [exact He|].
    split; [|reflexivity].
    by rewrite to_int_small, to_unsigned_small by lia.
Qed.

Lemma insertion_touches_one_chain_witness :
  exists (i : nat) c fr t',
    ht (checkRehash Demo.five) !! i = Some c /\
    htAdd Demo.five (Some "a"%string) = Ok (fr, t').
Proof.
  assert (total Demo.five < INT_MAX) as Ht by (vm_compute; reflexivity).
  destruct five_spec as (Hwf & Ef & _).
  assert (lawful (functions Demo.five)) as Hf.
  { rewrite Ef. exact stringFunctions_lawful. }
  destruct (insertion_touches_one_chain Demo.five (Some "a"%string) Hf Hwf
              eq_refl Ht) as (i & c & fr & t' & _ & Hc & E & _).
  exists i, c, fr, t'. split; [exact Hc|exact E].
Defined.

(** ** Teardown *)

Lemma fold_left_app_concat {A B} (h : A -> list B) (l : list A) acc :
  fold_left (fun tr c => tr ++ h c) l acc = acc ++ concat (h <$> l).
Proof.
  revert acc. induction l as [|x l IH]; intros acc.
  - by rewrite app_nil_r.
  - cbn [fold_left fmap list_fmap concat]. by rewrite IH, (assoc_L (++)).
Qed.

Lemma concat_fmap_concat {A B} (h : A -> list B) (b : list (list A)) :
  concat ((fun c : list A => concat (h <$> c)) <$> b)
  = concat (h <$> concat b).
Proof.
  induction b as [|c b IH]; [done|].
  cbn [fmap list_fmap concat]. rewrite IH, fmap_app.
  by rewrite concat_app.
Qed.

Lemma concat_fmap_fmap {A B} (h : A -> B) (b : list (list A)) :
  concat ((fun c : list A => h <$> c) <$> b) = h <$> concat b.
Proof.
  induction b as [|c b IH]; [done|].
  cbn [fmap list_fmap concat]. by rewrite IH, fmap_app.
Qed.

Lemma omap_app_l {A B} (g : A -> option B) (l1 l2 : list A) :
  omap g (l1 ++ l2) = omap g l1 ++ omap g l2.
Proof.
  induction l1 as [|x l1 IH]; [done|].
  cbn [app omap list_omap]. rewrite IH. by destruct (g x).
Qed.

Section TeardownProofs.
Context {V : Type}.
Implicit Types (t : HashTable V) (e : HTEntry V) (c : list (HTEntry V))
  (b : list (list (HTEntry V))) (tr : list (event V)).

Lemma destroyChain_data t c dd :
  dd <> 0 -> destroyChain t c dd = concat (entry_teardown t <$> c).
Proof.
  intros Hdd. induction c as [|e c IH]; [done|].
  cbn [destroyChain fmap list_fmap concat].
  rewrite (proj2 (Z.eqb_neq dd 0) Hdd), IH. unfold entry_teardown.
  by rewrite <- !(assoc_L (++)).
Qed.

Lemma destroyChain_nodes t c : destroyChain t c 0 = FreeNode <$> c.
Proof.
  induction c as [|e c IH]; [done|].
  cbn [destroyChain fmap list_fmap]. by rewrite IH.
Qed.

Lemma htDestroy_chains t dd :
  Z.of_nat (length (ht t)) = htCapacity t ->
  htDestroy t dd
  = concat ((fun c => destroyChain t c dd) <$> ht t)
    ++ [FreeFunctions; FreeSizes; FreeBuckets; FreeTable].
Proof.
  intros Hlen. unfold htDestroy. unfold htCapacity in Hlen. rewrite <- Hlen.
  rewrite (for_loop_array (fun c tr => tr ++ destroyChain t c dd) []).
  by rewrite fold_left_app_concat.
Qed.

Lemma htDestroy_data t dd :
  Z.of_nat (length (ht t)) = htCapacity t -> dd <> 0 ->
  htDestroy t dd
  = concat (entry_teardown t <$> entries t)
    ++ [FreeFunctions; FreeSizes; FreeBuckets; FreeTable].
Proof.
  intros Hlen Hdd. rewrite (htDestroy_chains t dd Hlen).
  unfold entries. rewrite <- concat_fmap_concat. do 2 f_equal.
  apply list_fmap_ext. intros _ c _. by apply destroyChain_data.
Qed.

Lemma htDestroy_nodes t :
  Z.of_nat (length (ht t)) = htCapacity t ->
  htDestroy t 0
  = (FreeNode <$> entries t)
    ++ [FreeFunctions; FreeSizes; FreeBuckets; FreeTable].
Proof.
  intros Hlen. rewrite (htDestroy_chains t 0 Hlen).
  unfold entries. rewrite <- concat_fmap_fmap. do 2 f_equal.
  apply list_fmap_ext. intros _ c _. apply destroyChain_nodes.
Qed.

Lemma teardown_projections t (l : list (HTEntry V)) :
  freed_data (concat (entry_teardown t <$> l)) = data <$> l /\
  freed_entries (concat (entry_teardown t <$> l)) = l /\
  freed_nodes (concat (entry_teardown t <$> l)) = l /\
  destroyed_data (concat (entry_teardown t <$> l))
  = match destroy (functions t) with Some _ => data <$> l | None => [] end.
Proof.
  unfold freed_data, freed_entries, freed_nodes, destroyed_data.
  induction l as [|e l (IH1 & IH2 & IH3 & IH4)].
  - by destruct (destroy (functions t)).
  - cbn [fmap list_fmap concat]. rewrite !omap_app_l, IH1, IH2, IH3, IH4.
    unfold entry_teardown. by destruct (destroy (functions t)).
Qed.

Lemma nodes_projections (l : list (HTEntry V)) :
  freed_data (FreeNode <$> l) = [] /\
  freed_entries (FreeNode <$> l) = [] /\
  freed_nodes (FreeNode <$> l) = l /\
  destroyed_data (V := V) (FreeNode <$> l) = [].
Proof.
  unfold freed_data, freed_entries, freed_nodes, destroyed_data.
  induction l as [|e l (IH1 & IH2 & IH3 & IH4)]; [done|].
  cbn [fmap list_fmap omap list_omap].
  change (list_fmap _ _ FreeNode l) with (FreeNode <$> l).
  by rewrite IH1, IH2, IH3, IH4.
Qed.

Lemma distinct_NoDup (f : HTFunctions V) (l : list (HTEntry V)) :
  (forall d, compare f d d = 0) -> distinct f l -> NoDup (data <$> l).
Proof.
  intros Hr. induction l as [|e l IH]; intros Hd; [constructor|].
  destruct Hd as [Hne Hd]. cbn [fmap list_fmap]. constructor; [|by apply IH].
  intros Hin. apply list_elem_of_fmap in Hin as (e' & E & He').
  rewrite Forall_forall in Hne. apply (Hne e' He'). rewrite <- E. apply Hr.
Qed.

End TeardownProofs.

(** ** The client that stores records *)

Lemma datFunctions_lawful : lawful DatClient.datFunctions.
Proof.
  pose proof stringFunctions_lawful as [_ H2 H3 H4 H5].
  cbn [StringClient.stringFunctions hash compare] in *.
  split; cbn [DatClient.datFunctions hash compare]; unfold DatClient.compareDat.
  - intros [x|]; simpl; [|by unfold is_unsigned, UINT_MAX].
    apply hashString_loop_unsigned. by unfold is_unsigned, UINT_MAX.
  - intros d. apply H2.
  - intros d1 d2. apply H3.
  - intros d1 d2 d3. apply H4.
  - intros d1 d2 H. apply H5 in H. by destruct d1, d2.
Qed.

Lemma dat_created_wf : wf Cases.dat_created.
Proof.
  apply (htCreate_wf DatClient.datFunctions [3; 7] 2 Cases.f0_73).
  - repeat constructor; unfold UINT_MAX; lia.
  - unfold INT_MAX. lia.
  - repeat constructor; unfold INT_MAX; lia.
  - reflexivity.
Qed.

Lemma dat_table_wf :
  wf Cases.dat_table /\ functions Cases.dat_table = DatClient.datFunctions.
Proof.
  destruct (htAddAll_spec Cases.dat_created Cases.dat_words
              datFunctions_lawful dat_created_wf)
    as (frs & t' & E & Hwf & Hf & _).
  - repeat constructor.
  - vm_compute. discriminate.
  - unfold Cases.dat_table. rewrite E. by split.
Qed.

(** X13 (teardown with the data).  With a non-zero [destroyData],
    [htDestroy] of a well-formed table with lawful callbacks goes through
    the entries chain after chain and, for each, calls the destroy
    callback on the data if the callback is not null, then frees the data,
    the entry and the chain node; it ends by freeing the function table,
    the sizes, the bucket array and the table.  Every data pointer is
    non-null and freed exactly once, and as many are freed as
    [htUniqueEntries] reports. *)
Theorem teardown_with_data {V} (t : HashTable V) (destroyData : Z) :
  lawful (functions t) -> wf t -> destroyData <> 0 ->
  htDestroy t destroyData
  = concat (entry_teardown t <$> entries t)
    ++ [FreeFunctions; FreeSizes; FreeBuckets; FreeTable] /\
  freed_data (htDestroy t destroyData) = data <$> entries t /\
  NoDup (freed_data (htDestroy t destroyData)) /\
  Forall (fun d => is_null d = false) (freed_data (htDestroy t destroyData)) /\
  Z.of_nat (length (freed_data (htDestroy t destroyData)))
  = htUniqueEntries t /\
  freed_entries (htDestroy t destroyData) = entries t /\
  freed_nodes (htDestroy t destroyData) = entries t /\
  destroyed_data (htDestroy t destroyData)
  = match destroy (functions t) with
    | Some _ => data <$> entries t
    | None => []
    end.
Proof.
  intros Hf Hwf Hdd.
  rewrite (htDestroy_data t destroyData (wf_length t Hwf) Hdd).
  destruct (teardown_projections t (entries t)) as (H1 & H2 & H3 & H4).
  unfold freed_data, freed_entries, freed_nodes, destroyed_data in *.
  rewrite !omap_app_l, H1, H2, H3, H4. cbn [omap list_omap].
  rewrite !app_nil_r.
  destruct (counters_unsigned t Hwf) as [_ ->].
  split; [reflexivity|]. split; [reflexivity|].
  split; [|split; [|split; [|done]]].
  - apply (distinct_NoDup (functions t)); [apply (compare_refl _ Hf)|].
    apply (wf_distinct t Hwf).
  - apply Forall_fmap. apply (wf_nonnull t Hwf).
  - rewrite length_fmap. symmetry. apply (wf_numItem t Hwf).
Qed.

Lemma teardown_with_data_witness :
  NoDup (freed_data (htDestroy Cases.dat_table 1)) /\
  Z.of_nat (length (freed_data (htDestroy Cases.dat_table 1))) = 2 /\
  destroyed_data (htDestroy Cases.dat_table 1)
  = freed_data (htDestroy Cases.dat_table 1).
Proof.
  assert (htUniqueEntries Cases.dat_table = 2) as Eu
    by (vm_compute; reflexivity).
  assert (1 <> 0) as Hdd by discriminate.
  destruct dat_table_wf as [Hwf Ef].
  assert (lawful (functions Cases.dat_table)) as Hf.
  { rewrite Ef. exact datFunctions_lawful. }
  destruct (teardown_with_data Cases.dat_table 1 Hf Hwf Hdd)
    as (_ & H1 & H2 & _ & H4 & _ & _ & H7).
  rewrite Eu in H4. rewrite Ef in H7. cbn [DatClient.datFunctions destroy] in H7.
  split; [exact H2|]. split; [exact H4|]. by rewrite H7, H1.
Defined.

(** X14 (teardown without the data).  With [destroyData] zero,
    [htDestroy] of a well-formed table frees one chain node for each entry
    and then the function table, the sizes, the bucket array and the
    table, and nothing else: the destroy callback is not called, and
    neither the data nor the entry records that [htAdd] allocated are
    freed. *)
Theorem teardown_without_data {V} (t : HashTable V) :
  wf t ->
  htDestroy t 0
  = (FreeNode <$> entries t)
    ++ [FreeFunctions; FreeSizes; FreeBuckets; FreeTable] /\
  freed_nodes (htDestroy t 0) = entries t /\
  Z.of_nat (length (freed_nodes (htDestroy t 0))) = htUniqueEntries t /\
  freed_entries (htDestroy t 0) = [] /\
  freed_data (htDestroy t 0) = [] /\
  destroyed_data (htDestroy t 0) = [].
Proof.
  intros Hwf. rewrite (htDestroy_nodes t (wf_length t Hwf)).
  destruct (nodes_projections (entries t)) as (H1 & H2 & H3 & H4).
  unfold freed_data, freed_entries, freed_nodes, destroyed_data in *.
  rewrite !omap_app_l, H1, H2, H3, H4. cbn [omap list_omap].
  rewrite !app_nil_r.
  destruct (counters_unsigned t Hwf) as [_ ->].
  split; [reflexivity|]. split; [reflexivity|].
  split; [|done]. symmetry. apply (wf_numItem t Hwf).
Qed.

Lemma teardown_without_data_witness :
  Z.of_nat (length (freed_nodes (htDestroy Cases.dat_table 0))) = 2 /\
  freed_entries (htDestroy Cases.dat_table 0) = [].
Proof.
  assert (htUniqueEntries Cases.dat_table = 2) as Eu
    by (vm_compute; reflexivity).
  destruct dat_table_wf as [Hwf _].
  destruct (teardown_without_data Cases.dat_table Hwf)
    as (_ & _ & H3 & H4 & _).
  rewrite Eu in H3. split; [exact H3|exact H4].
Defined.

(** ** The callbacks of the unit tests *)

(** X15 (the clients of the tests are lawful).  The callbacks the unit
    tests pass to [htCreate], for C strings and for records holding a C
    string, meet the assumptions made of a client: the hash is an
    [unsigned], the comparison is zero exactly on equal strings, hence on
    the pairs of an equivalence relation, and equal strings hash alike. *)
Theorem test_clients_lawful :
  lawful StringClient.stringFunctions /\
  lawful DatClient.datFunctions /\
  (forall a b : ptr string, StringClient.compareString a b = 0 <-> a = b) /\
  (forall a b : ptr DatClient.dat, DatClient.compareDat a b = 0 <-> a = b).
Proof.
  split; [exact stringFunctions_lawful|]. split; [exact datFunctions_lawful|].
  split; [exact compareString_eq|].
  intros a b. unfold DatClient.compareDat. rewrite compareString_eq.
  destruct a as [[a]|], b as [[b]|]; simpl; split; intros H; congruence.
Qed.

Lemma to_unsigned_mod z : to_unsigned z = z mod 4294967296.
Proof. with_strategy transparent [to_unsigned] reflexivity. Qed.

Lemma hashString_loop_value str h h' :
  to_unsigned h = to_unsigned h' ->
  to_unsigned (StringClient.hashString_loop str h)
  = to_unsigned (hash_value str h').
Proof.
  revert h h'. induction str as [|c str IH]; intros h h' E; [exact E|].
  cbn [StringClient.hashString_loop hash_value]. apply IH.
  rewrite !to_unsigned_mod in *. rewrite Zmod_mod.
  rewrite <- (Zplus_mod_idemp_r (31 * h)), <- (Zplus_mod_idemp_r (31 * h')).
  rewrite <- (Zmult_mod_idemp_r h), <- (Zmult_mod_idemp_r h'). by rewrite E.
Qed.

Lemma hashString_loop_app s1 s2 h :
  StringClient.hashString_loop (s1 ++ s2) h
  = StringClient.hashString_loop s2 (StringClient.hashString_loop s1 h).
Proof.
  revert h. induction s1 as [|c s1 IH]; intros h; [done|].
  cbn [String.append StringClient.hashString_loop]. apply IH.
Qed.

(** X16 (the hash of the tests).  [hashString] returns the value of the
    polynomial in 31 whose coefficients are the characters of the string,
    as signed [char] values, reduced modulo 2^32 once at the end: the
    wrap-around of the intermediate results does not show.  The hash of a
    concatenation is the hash of the second string computed from the hash
    of the first as the initial value. *)
Theorem hashString_closed_form (s1 s2 : string) :
  StringClient.hashString (Some s1) = hash_value s1 0 mod 4294967296 /\
  StringClient.hashString (Some (s1 ++ s2)%string)
  = StringClient.hashString_loop s2 (StringClient.hashString (Some s1)) /\
  StringClient.hashString (Some (s1 ++ s2)%string)
  = hash_value s2 (hash_value s1 0) mod 4294967296.
Proof.
  assert (is_unsigned 0) as H0 by (unfold is_unsigned, UINT_MAX; lia).
  assert (forall s, StringClient.hashString (Some s)
                    = hash_value s 0 mod 4294967296) as Hcf.
  { intros s. cbn [StringClient.hashString].
    rewrite <- to_unsigned_mod, <- (hashString_loop_value s 0 0 eq_refl).
    symmetry. apply to_unsigned_id. by apply hashString_loop_unsigned. }
  split; [apply Hcf|]. split.
  - cbn [StringClient.hashString]. apply hashString_loop_app.
  - rewrite Hcf. clear. generalize 0. induction s1 as [|c s1 IH]; intros h.
    + reflexivity.
    + cbn [String.append hash_value]. apply IH.
Qed.

(** ** Random test data *)

Lemma randomString_loop_length rand k n :
  String.length (Random.randomString_loop rand k n) = n.
Proof.
  revert k. induction n as [|n IH]; intros k; [done|].
  cbn [Random.randomString_loop String.length]. by rewrite IH.
Qed.

Lemma randomString_loop_chars rand k n :
  (forall i, 0 <= rand i) ->
  Forall (fun c => 32 <= Z.of_N (N_of_ascii c) <= 124)
         (list_ascii_of_string (Random.randomString_loop rand k n)).
Proof.
  intros Hr. revert k. induction n as [|n IH]; intros k; [constructor|].
  cbn [Random.randomString_loop list_ascii_of_string].
  constructor; [|apply IH].
  change (32 - 126 + 1) with (- (93)). rewrite Z.rem_opp_r by lia.
  pose proof (Z.rem_bound_pos (rand k) 93 (Hr k) ltac:(lia)) as Hb.
  unfold Random.char_of. rewrite Z.mod_small by lia.
  rewrite N_ascii_embedding by lia. lia.
Qed.

(** X17 (the random strings of the tests).  For values of [rand ()]
    between 0 and [RAND_MAX], [randomString] makes a string of 3 to 72
    characters with one call of [rand ()] for the length and one for each
    character; every character lies between the space and the vertical
    bar (codes 32 to 124), so none is the terminating zero, and the last
    two printable characters (codes 125 and 126) never occur. *)
Theorem randomString_bounds (rand : nat -> Z) (k : nat) :
  (forall i, 0 <= rand i <= Random.RAND_MAX) ->
  3 <= Z.of_nat (String.length (Random.randomString rand k).1) <= 72 /\
  (Random.randomString rand k).2
  = (k + 1 + String.length (Random.randomString rand k).1)%nat /\
  Forall (fun c => 32 <= Z.of_N (N_of_ascii c) <= 124)
         (list_ascii_of_string (Random.randomString rand k).1).
Proof.
  intros Hr. unfold Random.randomString. cbn [fst snd].
  rewrite randomString_loop_length.
  pose proof (Z.rem_bound_pos (rand k) 70 (proj1 (Hr k)) ltac:(lia)) as Hb.
  split; [lia|]. split; [lia|].
  apply randomString_loop_chars. intros i. apply Hr.
Qed.

Lemma randomString_bounds_witness :
  3 <= Z.of_nat (String.length (Random.randomString Cases.rand 0).1) <= 72.
Proof.
  assert (forall i, 0 <= Cases.rand i <= Random.RAND_MAX) as Hr.
  { intros i. unfold Cases.rand, Random.RAND_MAX.
    pose proof (Z.mod_pos_bound (Z.of_nat i * 7919 + 12345) 2147483648
                  ltac:(lia)). lia. }
  exact (proj1 (randomString_bounds Cases.rand 0 Hr)).
Defined.

(** ** The comparison of reals of the unit tests *)

Lemma TEST_REAL_nan expect epsilon :
  TEST_REAL S754_nan expect epsilon = false.
Proof.
  unfold TEST_REAL, Float64.sub, Float64.ltb.
  assert (SFsub Float64.prec Float64.emax S754_nan expect = S754_nan) as ->
    by by destruct expect.
  assert (SFsub Float64.prec Float64.emax expect S754_nan = S754_nan) as ->
    by by destruct expect.
  by destruct epsilon.
Qed.

(** X18 (the average of an empty table passes any test).  For a
    well-formed table that holds nothing, the average chain length that
    [htMetrics] reports is a NaN, and [TEST_REAL] reports no failure for
    it whatever the expected value and the tolerance are: both of its
    comparisons are false on a NaN. *)
Theorem empty_average_passes_TEST_REAL {V} (t : HashTable V)
    (expect epsilon : Float64.float) :
  wf t -> htUniqueEntries t = 0 ->
  avgChainLength (htMetrics t) = S754_nan /\
  TEST_REAL (Float64.of_float (avgChainLength (htMetrics t))) expect epsilon
  = false.
Proof.
  intros Hwf Hu.
  destruct (htMetrics_wf t Hwf) as (-> & Hct & _).
  destruct (counters_unsigned t Hwf) as [_ Eu]. rewrite Eu in Hu.
  pose proof (nonempty_le_total (ht t)) as Hle.
  cbn [avgChainLength]. rewrite Hct, Hu in *.
  assert (nonempty_chains (ht t) = 0) as -> by lia.
  split; [reflexivity|]. apply TEST_REAL_nan.
Qed.

Lemma empty_average_passes_TEST_REAL_witness :
  TEST_REAL (Float64.of_float (avgChainLength (htMetrics Demo.created)))
    (S754_zero false) (Float64.of_float Float32.f0_49)
  = false.
Proof.
  exact (proj2 (empty_average_passes_TEST_REAL Demo.created (S754_zero false)
                  (Float64.of_float Float32.f0_49) created_wf eq_refl)).
Defined.
